(** * littleutils: the table formatter, the tolerant JSON encoder and the
    small helpers

    A shallow embedding of [pretty_table], [DecentJSONEncoder.default] and the
    helpers they call ([_helpful_dict_error], [helpful_error_dict_get],
    [ensure_list_if_string], [date_to_datetime]) from [utils.py], and of the
    other helpers of that file that compute on values ([helpful_error_list_get],
    [only], [retry], [strip_optional_prefix], [strip_required_prefix],
    [select_keys], [group_by_key_func], [setattrs]), followed by the
    properties of these functions.

    Python strings are modelled as [string] (one [ascii] per code point below
    256), exceptions as values of an error type threaded through a result
    monad, dictionaries as [gmap string value], and iterators as a state with
    a [next] function. *)

From Stdlib Require Import ZArith NArith Ascii String List Lia.
From stdpp Require Import base option list gmap strings pretty sorting.

Local Open Scope Z_scope.
Local Open Scope nat_scope.

(** ** Python builtins used by the source *)

Module Py.

(** Exceptions raised by the modelled code, with the message they carry. *)
Inductive exn : Type :=
| ValueError (msg : string)
| KeyError (msg : string)
| IndexError (msg : string)
| TypeError (msg : string)
| OverflowError (msg : string).

(** A computation that returns a value or raises. *)
Inductive result (A : Type) : Type :=
| Ok (a : A)
| Raise (e : exn).
Arguments Ok {A} a.
Arguments Raise {A} e.

#[global] Instance result_ret : MRet result := fun A a => Ok a.
#[global] Instance result_bind : MBind result := fun A B f m =>
  match m with
  | Ok a => f a
  | Raise e => Raise e
  end.

#[global] Instance result_fmap : FMap result := fun A B f m =>
  match m with
  | Ok a => Ok (f a)
  | Raise e => Raise e
  end.

(** [str.isspace] of Python 3 on the code points below 256. *)
Definition is_space (c : ascii) : bool :=
  let n := N_of_ascii c in
  ((9 <=? n) && (n <=? 13) || (28 <=? n) && (n <=? 32) || (n =? 133) || (n =? 160))%N.

(** [c * n]: the one-character string [c] repeated [n] times. *)
Fixpoint str_mul (c : ascii) (n : nat) : string :=
  match n with
  | O => EmptyString
  | S n' => String c (str_mul c n')
  end.

(** [s.ljust(width)] *)
Definition ljust (s : string) (width : nat) : string :=
  s +:+ str_mul " " (width - String.length s).

(** [s.lstrip()] *)
Fixpoint lstrip (s : string) : string :=
  match s with
  | EmptyString => EmptyString
  | String c s' => if is_space c then lstrip s' else s
  end.

(** [s.rstrip()] *)
Fixpoint rstrip (s : string) : string :=
  match s with
  | EmptyString => EmptyString
  | String c s' =>
      match rstrip s' with
      | EmptyString => if is_space c then EmptyString else String c EmptyString
      | r => String c r
      end
  end.

(** [s.strip()]: whitespace is removed at both ends. *)
Definition strip (s : string) : string := rstrip (lstrip s).

(** [sep.join(l)] *)
Definition join (sep : string) (l : list string) : string := String.concat sep l.

(** [s[:n]] *)
Definition slice_to (n : nat) (s : string) : string := String.substring 0 n s.

(** [sub in s] *)
Fixpoint contains (sub s : string) : bool :=
  String.prefix sub s ||
  match s with
  | EmptyString => false
  | String _ s' => contains sub s'
  end.

(** [s.count(sub)] for a non-empty [sub]: occurrences are counted from the
    left and do not overlap. [skip] is the number of characters still covered
    by the occurrence found last. *)
Fixpoint count_from (sub : string) (skip : nat) (s : string) : nat :=
  match s with
  | EmptyString => 0
  | String _ s' =>
      match skip with
      | S k => count_from sub k s'
      | O => if String.prefix sub s
             then S (count_from sub (String.length sub - 1) s')
             else count_from sub 0 s'
      end
  end.
Definition count (sub s : string) : nat := count_from sub 0 s.

(** [s.split(c)] for a one-character separator. *)
Fixpoint split_on (c : ascii) (s : string) : list string :=
  match s with
  | EmptyString => [EmptyString]
  | String a s' =>
      if Ascii.eqb a c then EmptyString :: split_on c s'
      else match split_on c s' with
           | [] => [String a EmptyString]
           | w :: ws => String a w :: ws
           end
  end.

Definition newline : ascii := "010"%char.
Definition nl : string := String newline EmptyString.

(** The lines of a text: [s.split('\n')]. *)
Definition lines_of (s : string) : list string := split_on newline s.

(** [str(n)] for an integer and for a length. *)
Definition str_int (n : Z) : string := pretty n.
Definition str_nat (n : nat) : string := pretty n.

(** [repr(s)] for a string (Python 3): the text is quoted with ['], or with
    the double quote when it holds a ['] and no double quote; the quote in
    use and the backslash are escaped, tab, newline and carriage return are
    written with their letter, and every other non-printable code point as
    [\xhh]. *)
Definition dquote : ascii := "034"%char.
Definition squote : ascii := "039"%char.
Definition backslash : ascii := "092"%char.

Fixpoint has_char (c : ascii) (s : string) : bool :=
  match s with
  | EmptyString => false
  | String a s' => Ascii.eqb a c || has_char c s'
  end.

Definition hex_digit (n : nat) : ascii :=
  default "0"%char (String.get n "0123456789abcdef").

Definition printable (c : ascii) : bool :=
  let n := N_of_ascii c in
  ((32 <=? n) && (n <? 127) || (161 <=? n) && negb (n =? 173))%N.

Definition repr_char (quote c : ascii) : string :=
  if Ascii.eqb c quote || Ascii.eqb c backslash then String backslash (String c EmptyString)
  else if Ascii.eqb c "009" then String backslash "t"
  else if Ascii.eqb c "010" then String backslash "n"
  else if Ascii.eqb c "013" then String backslash "r"
  else if printable c then String c EmptyString
  else String backslash
         (String "x" (String (hex_digit (nat_of_ascii c / 16))
                        (String (hex_digit (nat_of_ascii c mod 16)) EmptyString))).

Fixpoint repr_body (quote : ascii) (s : string) : string :=
  match s with
  | EmptyString => EmptyString
  | String c s' => repr_char quote c +:+ repr_body quote s'
  end.

Definition repr_str (s : string) : string :=
  let quote := if has_char squote s && negb (has_char dquote s) then dquote else squote in
  String quote (repr_body quote s +:+ String quote EmptyString).

(** The Python values that occur as cells of a table and as items of an
    iterable. *)
Inductive value : Type :=
| VNone
| VBool (b : bool)
| VInt (n : Z)
| VStr (s : string).

#[global] Instance value_eq_dec : EqDecision value.
Proof. solve_decision. Defined.

(** [str(v)] *)
Definition str (v : value) : string :=
  match v with
  | VNone => "None"
  | VBool true => "True"
  | VBool false => "False"
  | VInt n => str_int n
  | VStr s => s
  end.

(** [repr(v)] *)
Definition repr (v : value) : string :=
  match v with
  | VStr s => repr_str s
  | _ => str v
  end.

(** [str(l)] for a list whose items have the given [repr]s. *)
Definition str_list (reprs : list string) : string :=
  "[" +:+ join ", " reprs +:+ "]".

(** [sorted(l)] on strings: ascending by code point. *)
Definition sorted (l : list string) : list string := merge_sort String.le l.

(** [d.keys()], in no particular order. *)
Definition keys {V} (d : gmap string V) : list string := elements (dom d).

(** [l[i]] *)
Definition list_get {A} (l : list A) (i : nat) : result A :=
  match l !! i with
  | Some x => Ok x
  | None => Raise (IndexError "list index out of range")
  end.

(** [max(l)] *)
Definition py_max (l : list nat) : result nat :=
  match l with
  | [] => Raise (ValueError "max() arg is an empty sequence")
  | x :: l' => Ok (foldl Nat.max x l')
  end.

#[global] Instance value_inhabited : Inhabited value := populate VNone.

End Py.

Import Py.

(** ** Dictionary helpers *)

(** [_helpful_dict_error(d, key)] always raises. *)
Definition _helpful_dict_error {A V} (d : gmap string V) (key : string) : result A :=
  Raise (KeyError ("Tried to access " +:+ repr_str key +:+ ", only keys are: "
                   +:+ slice_to 1000 (str_list (repr_str <$> sorted (keys d))))).

(** [helpful_error_dict_get(d, key)] *)
Definition helpful_error_dict_get {V} (d : gmap string V) (key : string) : result V :=
  match d !! key with
  | Some v => Ok v
  | None => _helpful_dict_error d key
  end.

(** ** [ensure_list_if_string] *)

(** An argument that is a string or already a list of strings. *)
Inductive str_or_list : Type :=
| AStr (s : string)
| AList (l : list string).

(** The separators of the pattern ['[,\s]+']. *)
Definition is_sep (c : ascii) : bool := Ascii.eqb c "," || is_space c.

(** [re.split('[,\s]+', s)]: the pieces between the maximal runs of
    separators; a run at either end leaves an empty piece there.
    [in_sep] says that the character before [s] was a separator. *)
Fixpoint re_split_go (in_sep : bool) (s : string) : list string :=
  match s with
  | EmptyString => [EmptyString]
  | String c s' =>
      if is_sep c then
        if in_sep then re_split_go true s' else EmptyString :: re_split_go true s'
      else
        match re_split_go false s' with
        | [] => [String c EmptyString]
        | w :: ws => String c w :: ws
        end
  end.
Definition re_split (s : string) : list string := re_split_go false s.

(** [bool(s)] for a string. *)
Definition nonempty (s : string) : bool :=
  match s with
  | EmptyString => false
  | String _ _ => true
  end.

Definition ensure_list_if_string (x : str_or_list) : list string :=
  match x with
  | AStr s => filter (fun w => nonempty w = true) (re_split s)
  | AList l => l
  end.

(** ** [pretty_table] *)

(** A row: a sequence (modelled as a list of cells), a mapping (a dict), or
    any other object, of which only [__dict__] is read. Column names, that is
    the keys of mappings and the names of a header, are strings. *)
Inductive row : Type :=
| RowSeq (cells : list value)
| RowMap (d : gmap string value)
| RowObj (__dict__ : gmap string value).

(** The values stored in [row_type[0]]. *)
Inductive row_kind : Type := sequence | mapping.
Inductive row_type_cell : Type :=
| RTNone
| RTAny
| RTKind (t : row_kind).

#[global] Instance row_kind_eq_dec : EqDecision row_kind.
Proof. solve_decision. Defined.

(** An element of [rows2]: the list object [header] itself, which
    [handle_dict] may still fill in place after it was inserted, or the list
    built for one row. *)
Inductive entry : Type :=
| TheHeader
| Cells (cells : list value).

(** The variables that the loop of [pretty_table] and its two closures
    share. *)
Record state : Type := State {
  row_type : row_type_cell;
  header : list string;
  rows2 : list entry
}.

(** The list an entry denotes under the current contents of [header]. *)
Definition entry_cells (hdr : list string) (e : entry) : list value :=
  match e with
  | TheHeader => VStr <$> hdr
  | Cells cells => cells
  end.

(** [bool(header)] for the argument of [pretty_table]. *)
Definition truthy (h : option str_or_list) : bool :=
  match h with
  | None => false
  | Some (AStr s) => nonempty s
  | Some (AList l) => match l with [] => false | _ => true end
  end.

Definition mixing_msg : string :=
  "Cannot mix sequences and other types of rows without specifying a header".

Definition require_type (t : row_kind) (st : state) : result state :=
  match row_type st with
  | RTNone => Ok (State (RTKind t) (header st) (rows2 st))
  | RTAny => Ok st
  | RTKind t' => if decide (t' = t) then Ok st else Raise (ValueError mixing_msg)
  end.

(** [handle_dict(d)]: the cells of the row and the state it leaves. *)
Definition handle_dict (d : gmap string value) (st : state)
  : result (list value * state) :=
  st1 ← require_type mapping st;
  let st2 :=
    match header st1 with
    | [] => State (row_type st1) (sorted (keys d)) (TheHeader :: rows2 st1)
    | _ => st1
    end in
  cells ← mapM (helpful_error_dict_get d) (header st2);
  mret (cells, st2).

(** The message of the length check. [rows2[0]] and the row are formatted
    with [%s]; a row is shown here as Python shows a list, and a row that is
    a tuple has the same items between parentheses. *)
Definition mismatch_msg (first current : list value) : string :=
  "Mismatched lengths." +:+ nl
  +:+ "First row (len = " +:+ str_nat (length first) +:+ "):" +:+ nl
  +:+ str_list (repr <$> first) +:+ nl
  +:+ "Current row (len = " +:+ str_nat (length current) +:+ "):" +:+ nl
  +:+ str_list (repr <$> current).

(** The check made on a sequence row. *)
Definition handle_seq (cells : list value) (st : state)
  : result (list value * state) :=
  st1 ← require_type sequence st;
  match rows2 st1 with
  | e0 :: _ =>
      let first := entry_cells (header st1) e0 in
      if decide (length cells ≠ length first)
      then Raise (ValueError (mismatch_msg first cells))
      else mret (cells, st1)
  | [] => mret (cells, st1)
  end.

(** One turn of the loop [for row in rows]. *)
Definition process_row (r : row) (st : state) : result state :=
  '(cells, st') ← match r with
                  | RowMap d => handle_dict d st
                  | RowSeq cells => handle_seq cells st
                  | RowObj d => handle_dict d st
                  end;
  mret (State (row_type st') (header st') (rows2 st' ++ [Cells cells])).

Fixpoint process_rows (rows : list row) (st : state) : result state :=
  match rows with
  | [] => mret st
  | r :: rows' => st' ← process_row r st; process_rows rows' st'
  end.

(** The state before the loop. *)
Definition initial_state (h : option str_or_list) : state :=
  match h with
  | Some a =>
      if truthy h then State RTAny (ensure_list_if_string a) [TheHeader]
      else State RTNone [] []
  | None => State RTNone [] []
  end.

(** [max(len(row[i]) for row in rows)] *)
Definition column_width (rows : list (list string)) (i : nat) : result nat :=
  lens ← mapM (fun r => String.length <$> list_get r i) rows;
  py_max lens.

(** One line of the table. *)
Definition render_line (widths : list nat) (r : list string) : string :=
  strip (join " | " (zip_with ljust r widths)).

(** The statements after the loop: conversion to text, column widths, lines,
    the dash line under a header. *)
Definition str_rows (st : state) : list (list string) :=
  (fun e => str <$> entry_cells (header st) e) <$> rows2 st.

Definition render (st : state) : result string :=
  let rows := str_rows st in
  row0 ← list_get rows 0;
  widths ← mapM (column_width rows) (seq 0 (length row0));
  let lines := render_line widths <$> rows in
  lines' ← match header st with
           | [] => mret lines
           | _ => line0 ← list_get lines 0;
                  mret (take 1 lines ++ str_mul "-" (String.length line0) :: drop 1 lines)
           end;
  mret (join nl lines').

Definition pretty_table (rows : list row) (h : option str_or_list) : result string :=
  st ← process_rows rows (initial_state h);
  render st.

(** ** Floating-point numbers *)

(** A binary64 number other than NaN: a signed zero, a signed infinity, or
    [m * 2^e] with its sign. *)
Inductive float : Type :=
| FZero (neg : bool)
| FInf (neg : bool)
| FFinite (neg : bool) (m : positive) (e : Z).

(** [n / d] rounded to the nearest integer, ties to the even one ([d > 0]). *)
Definition round_half_even (n d : Z) : Z :=
  let q := (n / d)%Z in
  let r := (n mod d)%Z in
  if (2 * r <? d)%Z then q
  else if (d <? 2 * r)%Z then (q + 1)%Z
  else if Z.even q then q else (q + 1)%Z.

(** [p / q] scaled by [2^-e], as a numerator and a denominator. *)
Definition scaled (p q : positive) (e : Z) : Z * Z :=
  if (e <? 0)%Z then (Z.pos p * 2 ^ (- e), Z.pos q)%Z
  else (Z.pos p, Z.pos q * 2 ^ e)%Z.

(** The exponent [k] with [2^k <= p/q < 2^(k+1)]. *)
Definition ilog2_ratio (p q : positive) : Z :=
  let k := (Z.log2 (Z.pos p) - Z.log2 (Z.pos q))%Z in
  let '(n, d) := scaled p q k in
  if (d <=? n)%Z then k else (k - 1)%Z.

(** The exponent of the last place of the binary64 numbers around [p/q]:
    53 significant bits, and no exponent below that of the subnormals. *)
Definition ulp_exponent (p q : positive) : Z :=
  Z.max (ilog2_ratio p q - 52) (-1074).

(** The binary64 number nearest to [p/q], or [None] when the rounded value
    is beyond the largest finite one. *)
Definition nearest_binary64 (neg : bool) (p q : positive) : option float :=
  let e := ulp_exponent p q in
  let '(n, d) := scaled p q e in
  let m := round_half_even n d in
  let '(m, e) := if (m =? 2 ^ 53)%Z then (2 ^ 52, e + 1)%Z else (m, e) in
  match m with
  | Zpos m' => if (971 <? e)%Z then None else Some (FFinite neg m' e)
  | _ => Some (FZero neg)
  end.

(** [float(Decimal)]: a finite decimal [(-1)^neg * coefficient * 10^exponent];
    too large a value gives an infinity. *)
Definition float_of_decimal (neg : bool) (coefficient : N) (exponent : Z) : float :=
  match coefficient with
  | N0 => FZero neg
  | Npos c =>
      let p := if (exponent <? 0)%Z then c else (c * Z.to_pos (10 ^ exponent))%positive in
      let q := if (exponent <? 0)%Z then Z.to_pos (10 ^ (- exponent)) else 1%positive in
      match nearest_binary64 neg p q with
      | Some f => f
      | None => FInf neg
      end
  end.

(** [float(Fraction)], that is [numerator / denominator] on integers; too
    large a quotient raises. *)
Definition float_of_fraction (numerator : Z) (denominator : positive) : result float :=
  match numerator with
  | Z0 => Ok (FZero false)
  | Zpos p | Zneg p =>
      match nearest_binary64 (numerator <? 0)%Z p denominator with
      | Some f => Ok f
      | None => Raise (OverflowError "integer division result too large for a float")
      end
  end.

(** ** Dates and times *)

Record date : Type := Date { year : nat; month : nat; day : nat }.
Record time : Type := Time { hour : nat; minute : nat; second : nat; microsecond : nat }.
Record datetime : Type := DateTime { dt_date : date; dt_time : time }.

(** A [date] instance: a plain date, or a [datetime], which is a subclass. *)
Inductive date_like : Type :=
| ADate (d : date)
| ADateTime (dt : datetime).

(** [datetime.min.time()] *)
Definition midnight : time := Time 0 0 0 0.

(** ['%0<width>d' % n] *)
Definition zero_padded (width n : nat) : string :=
  let s := str_nat n in
  str_mul "0" (width - String.length s) +:+ s.

(** [time.isoformat()] of a time without time zone. *)
Definition time_isoformat (t : time) : string :=
  zero_padded 2 (hour t) +:+ ":" +:+ zero_padded 2 (minute t) +:+ ":"
  +:+ zero_padded 2 (second t)
  +:+ match microsecond t with
      | O => EmptyString
      | us => "." +:+ zero_padded 6 us
      end.

Definition date_isoformat (d : date) : string :=
  zero_padded 4 (year d) +:+ "-" +:+ zero_padded 2 (month d) +:+ "-"
  +:+ zero_padded 2 (day d).

(** [datetime.isoformat()] *)
Definition datetime_isoformat (dt : datetime) : string :=
  date_isoformat (dt_date dt) +:+ "T" +:+ time_isoformat (dt_time dt).

Definition date_to_datetime (d : date_like) : datetime :=
  match d with
  | ADateTime dt => dt
  | ADate d' => DateTime d' midnight
  end.

(** ** Iterators *)

(** An iterator: its current state and [next], which returns an item and
    the state after it, or [None] for [StopIteration]. *)
Record iterator : Type := Iterator {
  it_state : Type;
  it_start : it_state;
  it_next : it_state -> option (value * it_state)
}.

(** The result of [list(islice(it, n))]: the items, the state the iterator
    is left in, and the number of calls of [next]. *)
Record drawn (St : Type) : Type := Drawn {
  items : list value;
  rest : St;
  calls : nat
}.
Arguments Drawn {St} items rest calls.
Arguments items {St} d.
Arguments rest {St} d.
Arguments calls {St} d.

Fixpoint islice {St : Type} (next : St -> option (value * St)) (n : nat) (s : St) : drawn St :=
  match n with
  | O => Drawn [] s 0
  | S n' =>
      match next s with
      | None => Drawn [] s 1
      | Some (x, s') =>
          let d := islice next n' s' in
          Drawn (x :: items d) (rest d) (S (calls d))
      end
  end.

(** ** [DecentJSONEncoder] *)

(** The objects handed to [default], by the class tests it makes. *)
Inductive encodable : Type :=
| EStr (s : string)
| EList (elts : list value)
| ETuple (elts : list value)
| ESequence (cls : string) (elts : list value)
| EMapping (cls : string) (d : gmap string value)
| EDecimal (neg : bool) (coefficient : N) (exponent : Z)
| EFraction (numerator : Z) (denominator : positive)
| EDate (d : date_like)
| ETime (t : time)
| EIterable (cls : string) (it : iterator)
| EOther (cls : string).

(** The objects [default] returns. *)
Inductive encoded : Type :=
| JStr (s : string)
| JList (elts : list value)
| JTuple (elts : list value)
| JDict (d : gmap string value)
| JFloat (f : float).

Record DecentJSONEncoder : Type := Encoder { max_iterable_elements : Z }.

(** [__init__]: [kwargs.pop('max_iterable_elements', 10000)] *)
Definition __init__ (kwargs : gmap string Z) : DecentJSONEncoder :=
  Encoder (default 10000%Z (kwargs !! "max_iterable_elements")).

Definition too_large_msg (cls : string) (limit : Z) : string :=
  "Object of type " +:+ cls +:+ " has more than " +:+ str_int limit +:+ " elements.".

(** [islice(iterable, self.max_iterable_elements + 1)] as [default] calls
    it. *)
Definition draw (self : DecentJSONEncoder) (it : iterator) : drawn (it_state it) :=
  islice (it_next it) (Z.to_nat (max_iterable_elements self + 1)) (it_start it).

(** [JSONEncoder.default] *)
Definition JSONEncoder_default {A} (cls : string) : result A :=
  Raise (TypeError ("Object of type " +:+ cls +:+ " is not JSON serializable")).

(** [sys.maxsize], the largest [Py_ssize_t], on a 64-bit build. *)
Definition sys_maxsize : Z := (2 ^ 63 - 1)%Z.

(** The check [islice] makes of its stop argument: a stop that does not fit
    a [Py_ssize_t], or [-1], is refused with one message, any other negative
    stop with another. *)
Definition islice_stop_error (stop : Z) : option exn :=
  if (stop =? -1)%Z || (stop <? - sys_maxsize - 1)%Z || (sys_maxsize <? stop)%Z
  then Some (ValueError "Stop argument for islice() must be None or an integer: 0 <= x <= sys.maxsize.")
  else if (stop <? 0)%Z
  then Some (ValueError "Indices for islice() must be None or an integer: 0 <= x <= sys.maxsize.")
  else None.

Definition default (self : DecentJSONEncoder) (o : encodable) : result encoded :=
  match o with
  | EStr s => Ok (JStr s)
  | EList l => Ok (JList l)
  | ETuple l => Ok (JTuple l)
  | ESequence _ l => Ok (JTuple l)
  | EMapping _ d => Ok (JDict d)
  | EDecimal neg c e => Ok (JFloat (float_of_decimal neg c e))
  | EFraction n d => JFloat <$> float_of_fraction n d
  | EDate d => Ok (JStr (datetime_isoformat (date_to_datetime d)))
  | ETime t => Ok (JStr (time_isoformat t))
  | EIterable cls it =>
      match islice_stop_error (max_iterable_elements self + 1) with
      | Some e => Raise e
      | None =>
          let result := items (draw self it) in
          if (max_iterable_elements self <? Z.of_nat (length result))%Z
          then Raise (ValueError (too_large_msg cls (max_iterable_elements self)))
          else Ok (JList result)
      end
  | EOther cls => JSONEncoder_default cls
  end.

(** ** Exceptions of the other helpers *)

(** [only] and [strip_required_prefix] raise [AssertionError], and the
    function handed to [retry] may raise anything: an exception is an
    [AssertionError] with its message or one of the exceptions above. *)
Inductive exception : Type :=
| AssertionError (msg : string)
| Builtin (e : exn).

Inductive outcome (A : Type) : Type :=
| Return (a : A)
| Throw (e : exception).
Arguments Return {A} a.
Arguments Throw {A} e.

(** A computation that raises one of the exceptions above, if any. *)
Definition lift {A} (r : result A) : outcome A :=
  match r with
  | Ok a => Return a
  | Raise e => Throw (Builtin e)
  end.

(** ** Lists with a helpful [IndexError] *)

(** [lst[index]] for an integer: a negative index counts from the end. *)
Definition list_getitem {A} (lst : list A) (index : Z) : result A :=
  let i := if (index <? 0)%Z then (index + Z.of_nat (length lst))%Z else index in
  if (i <? 0)%Z then Raise (IndexError "list index out of range")
  else list_get lst (Z.to_nat i).

Definition helpful_error_list_get {A} (lst : list A) (index : Z) : result A :=
  match list_getitem lst index with
  | Ok x => Ok x
  | Raise (IndexError _) =>
      Raise (IndexError ("Tried to access " +:+ str_int index
                         +:+ ", length is only " +:+ str_nat (length lst)))
  | Raise e => Raise e
  end.

Module HelpfulErrorList.
Record t (A : Type) : Type := UserList { data : list A }.
Arguments UserList {A} data.
Arguments data {A} _.

Definition __getitem__ {A} (self : t A) (item : Z) : result A :=
  helpful_error_list_get (data self) item.

(** [Sequence.__iter__], which [UserList] inherits: the items are read by
    [self[i]] for [i = 0, 1, ...] until that raises [IndexError]. The state
    of the iterator is the index; an integer index raises nothing else
    here. *)
Definition __iter__ (self : t value) : iterator :=
  Iterator nat 0 (fun i => match __getitem__ self (Z.of_nat i) with
                           | Ok v => Some (v, S i)
                           | Raise _ => None
                           end).
End HelpfulErrorList.

(** [HelpfulErrorDict]: a [UserDict] whose [__missing__] is
    [_helpful_dict_error]; [UserDict.__getitem__] calls it for a key that
    [data] lacks, and [keys()] are the keys of [data]. *)
Module HelpfulErrorDict.
Record t (V : Type) : Type := UserDict { data : gmap string V }.
Arguments UserDict {V} data.
Arguments data {V} _.

Definition __missing__ {A V} (self : t V) (key : string) : result A :=
  _helpful_dict_error (data self) key.

Definition __getitem__ {V} (self : t V) (key : string) : result V :=
  match data self !! key with
  | Some v => Ok v
  | None => __missing__ self key
  end.
End HelpfulErrorDict.

(** ** [only] *)

(** The argument of [only]: a sized collection, here a list or a tuple, or
    an iterator. *)
Inductive only_arg : Type :=
| OSized (l : list value)
| OIterator (it : iterator).

(** [islice(it, 2)] as [only] consumes it. *)
Definition only_draw (it : iterator) : drawn (it_state it) :=
  islice (it_next it) 2 (it_start it).

Definition only (it : only_arg) : outcome value :=
  match it with
  | OSized l =>
      if decide (length l ≠ 1)
      then Throw (AssertionError ("Expected one value, found " +:+ str_nat (length l)))
      else lift (list_get l 0)
  | OIterator it =>
      let lst := items (only_draw it) in
      if decide (length lst = 0)
      then Throw (AssertionError "Expected one value, found 0")
      else if decide (1 < length lst)
      then Throw (AssertionError "Expected one value, found several")
      else lift (list_get lst 0)
  end.

(** ** [retry] *)

(** What the wrapper does besides calling the function: a call
    [log.error(message, e)] and a call [sleep(seconds)]. *)
Inductive effect : Type :=
| Logged (message : string) (e : exception)
| Slept (seconds : Z).

(** A run of the wrapper: what it returns ([None] when the loop ends without
    a [return]) or raises, the world the function has left, the effects in
    order, and the number of calls of the function. *)
Record attempted (W A : Type) : Type := Attempted {
  returned : outcome (option A);
  world : W;
  effects : list effect;
  attempts : nat
}.
Arguments Attempted {W A} returned world effects attempts.
Arguments returned {W A} a.
Arguments world {W A} a.
Arguments effects {W A} a.
Arguments attempts {W A} a.

Definition retry_message : string := "Failed with error %r, trying again".

(** [time.sleep] refuses a negative time. *)
Definition sleep_error : exception :=
  Builtin (ValueError "sleep length must be non-negative").

(** The loop [for i in range(num_attempts)] of the wrapper, from the turn
    [i] on, with [todo] turns left. The function is a function of the
    world: it returns or raises, and leaves a world. [exception_class] is
    the instance test of the class, [log] says that a logger is given. *)
Fixpoint wrapper_loop {W A} (num_attempts : Z) (exception_class : exception -> bool)
    (log : bool) (sleeptime : Z) (func : W -> outcome A * W)
    (i todo : nat) (w : W) : attempted W A :=
  match todo with
  | O => Attempted (Return None) w [] 0
  | S todo' =>
      match func w with
      | (Return a, w1) => Attempted (Return (Some a)) w1 [] 1
      | (Throw e, w1) =>
          if exception_class e then
            if (Z.of_nat i =? num_attempts - 1)%Z then Attempted (Throw e) w1 [] 1
            else
              let logged := if log then [Logged retry_message e] else [] in
              if (sleeptime <? 0)%Z then Attempted (Throw sleep_error) w1 logged 1
              else
                let later := wrapper_loop num_attempts exception_class log sleeptime
                               func (S i) todo' w1 in
                Attempted (returned later) (world later)
                  (logged ++ Slept sleeptime :: effects later) (S (attempts later))
          else Attempted (Throw e) w1 [] 1
      end
  end.

(** [retry(num_attempts, exception_class, log, sleeptime)(func)] called in
    the world [w]. *)
Definition retry {W A} (num_attempts : Z) (exception_class : exception -> bool)
    (log : bool) (sleeptime : Z) (func : W -> outcome A * W) (w : W) : attempted W A :=
  wrapper_loop num_attempts exception_class log sleeptime func 0 (Z.to_nat num_attempts) w.

(** The instance tests of [Exception], [KeyError] and [IndexError]. *)
Definition Exception (e : exception) : bool := true.
Definition class_KeyError (e : exception) : bool :=
  match e with
  | Builtin (KeyError _) => true
  | _ => false
  end.
Definition class_IndexError (e : exception) : bool :=
  match e with
  | Builtin (IndexError _) => true
  | _ => false
  end.

(** ** Prefixes *)

(** [s[n:]] *)
Fixpoint slice_from (n : nat) (s : string) : string :=
  match n, s with
  | O, _ => s
  | S n', String _ s' => slice_from n' s'
  | S _, EmptyString => EmptyString
  end.

(** ['String starts with %r, not %r' % (s[:len(prefix)], prefix)] *)
Definition starts_with_msg (s prefix : string) : string :=
  "String starts with " +:+ repr_str (slice_to (String.length prefix) s)
  +:+ ", not " +:+ repr_str prefix.

(** A call [log.warn(message, *args)]. *)
Record warning : Type := Warn {
  warn_message : string;
  warn_args : list string
}.

(** [strip_optional_prefix(string, prefix, log)]: the string returned and
    the calls of [log.warn]; [log] says that a logger is given. *)
Definition strip_optional_prefix (s prefix : string) (log : bool) : string * list warning :=
  if String.prefix prefix s then (slice_from (String.length prefix) s, [])
  else if log
  then (s, [Warn "String starts with %r, not %r" [slice_to (String.length prefix) s; prefix]])
  else (s, []).

Definition strip_required_prefix (s prefix : string) : outcome string :=
  if String.prefix prefix s then Return (slice_from (String.length prefix) s)
  else Throw (AssertionError (starts_with_msg s prefix)).

(** ** [select_keys] *)

(** [d[key]] on a plain dict. *)
Definition dict_getitem {V} (d : gmap string V) (key : string) : result V :=
  match d !! key with
  | Some v => Ok v
  | None => Raise (KeyError key)
  end.

(** [{k: get(k) for k in keys}], built on [acc] key by key. *)
Fixpoint dict_comprehension {V} (get : string -> result V) (keys : list string)
    (acc : gmap string V) : result (gmap string V) :=
  match keys with
  | [] => Ok acc
  | k :: keys' => v ← get k; dict_comprehension get keys' (<[k := v]> acc)
  end.

Definition select_keys {V} (d : gmap string V) (keys : str_or_list) (helpful_error : bool)
  : result (gmap string V) :=
  let keys := ensure_list_if_string keys in
  if helpful_error then dict_comprehension (helpful_error_dict_get d) keys ∅
  else dict_comprehension (dict_getitem d) keys ∅.

(** ** [group_by_key_func] *)

(** The [defaultdict(list)] is a map in which a key that was never used has
    no entry; [result[k].append(item)] starts from the empty list then. *)
Definition group_by_key_func {A K} `{Countable K} (iterable : list A) (key_func : A -> K)
  : gmap K (list A) :=
  foldl (fun result item =>
           <[key_func item := from_option id [] (result !! key_func item) ++ [item]]> result)
        ∅ iterable.

(** ** [setattrs] *)

(** An object is modelled by its attributes, [kwargs] is a dict; the loop
    sets one attribute per item. *)
Definition setattrs {V} (obj : gmap string V) (kwargs : gmap string V) : gmap string V :=
  map_fold (fun key v obj => <[key := v]> obj) obj kwargs.

(** ** Vocabulary of the properties *)

(** The iterator, started in state [s], yields exactly the items [l] and is
    then exhausted. *)
Inductive yields {St : Type} (next : St -> option (value * St)) : St -> list value -> Prop :=
| yields_stop s : next s = None -> yields next s []
| yields_item s x s' l :
    next s = Some (x, s') -> yields next s' l -> yields next s (x :: l).

(** The iterator, started in state [s], yields the items [l] and perhaps
    more. *)
Inductive yields_at_least {St : Type} (next : St -> option (value * St)) : St -> list value -> Prop :=
| at_least_nil s : yields_at_least next s []
| at_least_item s x s' l :
    next s = Some (x, s') -> yields_at_least next s' l -> yields_at_least next s (x :: l).

(** The cells [handle_dict] reads from a mapping that has every key of the
    header. *)
Definition dict_cells (d : gmap string value) (hdr : list string) : list value :=
  (fun k => d !!! k) <$> hdr.

(** The dictionary of a mapping row or of a record row. *)
Definition row_dict (r : row) : option (gmap string value) :=
  match r with
  | RowSeq _ => None
  | RowMap d => Some d
  | RowObj d => Some d
  end.

(** The kind [require_type] is called with for a row. *)
Definition kind_of (r : row) : row_kind :=
  match r with
  | RowSeq _ => sequence
  | _ => mapping
  end.

(** [require_type(t)] passes for these contents of [row_type[0]], and leaves
    [accept t] there. *)
Definition accepts (t : row_kind) (rt : row_type_cell) : Prop :=
  rt = RTNone \/ rt = RTAny \/ rt = RTKind t.

Definition accept (t : row_kind) (rt : row_type_cell) : row_type_cell :=
  match rt with
  | RTNone => RTKind t
  | _ => rt
  end.

(** A row agrees with a header: a sequence has as many cells as the header
    has names, a mapping or record has every name of the header as a key. *)
Definition fits (hdr : list string) (r : row) : Prop :=
  match r with
  | RowSeq cells => length cells = length hdr
  | RowMap d | RowObj d => Forall (fun k => k ∈ dom d) hdr
  end.

(** The cells of a row that agrees with the header, in column order. *)
Definition normalize (hdr : list string) (r : row) : list value :=
  match r with
  | RowSeq cells => cells
  | RowMap d | RowObj d => dict_cells d hdr
  end.

(** The width of column [i] of a table of texts: the greatest length of a
    cell in that column. *)
Definition column_max (table : list (list string)) (i : nat) : nat :=
  match (fun r => String.length (nth i r EmptyString)) <$> table with
  | [] => 0
  | x :: l => foldl Nat.max x l
  end.

Definition table_widths (table : list (list string)) : list nat :=
  match table with
  | [] => []
  | row0 :: _ => column_max table <$> seq 0 (length row0)
  end.

(** The line of dashes, placed under the first line when there is a
    header. *)
Definition with_dash (hdr : list string) (lines : list string) : list string :=
  match hdr, lines with
  | _ :: _, line0 :: ls => line0 :: str_mul "-" (String.length line0) :: ls
  | _, _ => lines
  end.

(** The text of a table: every row rendered with the column widths of the
    table, the dash line under the header, the lines joined by newlines. *)
Definition layout (hdr : list string) (table : list (list string)) : string :=
  join nl (with_dash hdr (render_line (table_widths table) <$> table)).

(** The message of the KeyError for a key that [d] lacks. *)
Definition key_error_msg (d : gmap string value) (key : string) : string :=
  "Tried to access " +:+ repr_str key +:+ ", only keys are: "
  +:+ slice_to 1000 (str_list (repr_str <$> sorted (keys d))).

(** The text has a character that is not whitespace. *)
Fixpoint has_visible (s : string) : bool :=
  match s with
  | EmptyString => false
  | String c s' => negb (is_space c) || has_visible s'
  end.

(** The text of a cell holds neither a bar nor a newline. *)
Definition bar : ascii := "|"%char.
Definition plain (s : string) : Prop :=
  has_char bar s = false /\ has_char newline s = false.

(** In a row of two cells or more, the first and the last cell have a
    character that is not whitespace. *)
Definition ends_visible (r : list string) : Prop :=
  match r with
  | [] | [_] => True
  | c :: r' => has_visible c = true
               /\ exists z, last r' = Some z /\ has_visible z = true
  end.

(** A line as the specification words it: padded cells joined by the
    separator, whitespace removed at the end only. *)
Definition render_line_trailing (widths : list nat) (r : list string) : string :=
  rstrip (join " | " (zip_with ljust r widths)).

Definition layout_trailing (hdr : list string) (table : list (list string)) : string :=
  join nl (with_dash hdr (render_line_trailing (table_widths table) <$> table)).

(** The list of a row stored under a header has the length of the header,
    or is empty. *)
Definition entry_ok (hdr : list string) (e : entry) : Prop :=
  match e with
  | TheHeader => True
  | Cells c => length c = length hdr \/ c = []
  end.

(** The header list stands first in [rows2], and every list stored for a
    row has the length of the header or is empty. *)
Definition header_first (st : state) : Prop :=
  (exists es, rows2 st = TheHeader :: es) /\ Forall (entry_ok (header st)) (rows2 st).

(** The contents of [row_type], [header] and [rows2] between two turns of
    the loop: without a header and before the first row nothing is stored;
    in sequence mode there is no header and the rows have the length of the
    first one; otherwise the header list stands first. *)
Definition well_formed (st : state) : Prop :=
  match row_type st with
  | RTNone => header st = [] /\ rows2 st = []
  | RTKind sequence =>
      header st = []
      /\ exists c0 cs, rows2 st = Cells c0 :: (Cells <$> cs)
                       /\ Forall (fun c => length c = length c0) cs
  | _ => header_first st
  end.

(** The integer [m] is within half a unit of [p / q] counted in units of
    [2^e], that is, [|m * 2^e - p/q| <= 2^e / 2]. *)
Definition within_half_unit (p q : positive) (e : Z) (m : Z) : Prop :=
  (2 * Z.abs (m * snd (scaled p q e) - fst (scaled p q e)) <= snd (scaled p q e))%Z.

(** The rows of the first example of the docstring. *)
Definition example_cells : list (list value) :=
  [[VStr "a"; VStr "hello"; VStr "c"; VInt 1];
   [VStr "world"; VStr "b"; VStr "d"; VInt 2]].

(** A mapping whose one key is 1001 characters long. *)
Definition long_key_dict : gmap string value := {[ str_mul "k" 1001 := VInt 1 ]}.

(** The dict [{'a': a, 'b': b}]. *)
Definition d_ab (a b : Z) : gmap string value :=
  <["a" := VInt a]> (<["b" := VInt b]> ∅).

(** [range(n)] and [itertools.repeat(v)] as iterators. *)
Definition range_it (n : nat) : iterator :=
  Iterator nat 0 (fun i => if decide (i < n) then Some (VInt (Z.of_nat i), S i) else None).
Definition repeat_it (v : value) : iterator :=
  Iterator unit tt (fun _ => Some (v, tt)).



(** ** Vocabulary of the properties of the other helpers *)

(** [func], called again and again from the world [w], raises the
    exceptions [es], each one of the class, and leaves the world [w']. *)
Inductive fails_with {W A} (func : W -> outcome A * W) (exception_class : exception -> bool)
  : W -> list exception -> W -> Prop :=
| fails_nil w : fails_with func exception_class w [] w
| fails_cons w e w1 es w' :
    func w = (Throw e, w1) -> exception_class e = true ->
    fails_with func exception_class w1 es w' ->
    fails_with func exception_class w (e :: es) w'.

(** The result of a call is an exception of the class. *)
Definition caught {A} (exception_class : exception -> bool) (r : outcome A) : bool :=
  match r with
  | Return _ => false
  | Throw e => exception_class e
  end.

(** What the wrapper makes of the result of the call it ends with. *)
Definition wrapper_result {A} (r : outcome A) : outcome (option A) :=
  match r with
  | Return a => Return (Some a)
  | Throw e => Throw e
  end.

(** The effects between the calls: after each failure the log entry, if a
    logger is given, and the sleep. *)
Definition retry_effects (log : bool) (sleeptime : Z) (es : list exception) : list effect :=
  es ≫= (fun e => (if log then [Logged retry_message e] else []) ++ [Slept sleeptime]).

Definition is_sleep (e : effect) : bool :=
  match e with
  | Slept _ => true
  | Logged _ _ => false
  end.

(** A function that counts its calls in the world and always raises
    [KeyError]. *)
Definition always_fails (runs : nat) : outcome unit * nat :=
  (Throw (Builtin (KeyError "1")), S runs).

(** The text holds no separator of [ensure_list_if_string]. *)
Fixpoint no_sep (s : string) : bool :=
  match s with
  | EmptyString => true
  | String c s' => negb (is_sep c) && no_sep s'
  end.

(** The text holds separators only. *)
Fixpoint all_sep (s : string) : bool :=
  match s with
  | EmptyString => true
  | String c s' => is_sep c && all_sep s'
  end.

(** A word: a text that is not empty and holds no separator. *)
Definition is_word (w : string) : bool := nonempty w && no_sep w.

(** The text without its separators. *)
Fixpoint remove_seps (s : string) : string :=
  match s with
  | EmptyString => EmptyString
  | String c s' => if is_sep c then remove_seps s' else String c (remove_seps s')
  end.

(** The entries of [d] under the keys [ks]. *)
Definition restricted {V} (ks : list string) (d : gmap string V) : gmap string V :=
  filter (fun kv => kv.1 ∈ ks) d.

(** A row without the entries that the header does not name. *)
Definition restrict_row (hdr : list string) (r : row) : row :=
  match r with
  | RowSeq cells => RowSeq cells
  | RowMap d => RowMap (restricted hdr d)
  | RowObj d => RowObj (restricted hdr d)
  end.

(** The cells of a row padded to the column widths and joined by the
    separator: the line before [strip]. *)
Definition padded (widths : list nat) (r : list string) : string :=
  join " | " (zip_with ljust r widths).

(** Where column [i] starts in such a line: after the columns before it,
    each followed by the three characters of the separator. *)
Definition column_offset (widths : list nat) (i : nat) : nat :=
  sum_list ((fun w => w + 3) <$> take i widths).

(** ** Vocabulary of the nearest binary64 number *)













(** * Properties *)

(** ** The iterable cap of the encoder *)

Section Islice.
Context {St : Type} (next : St -> option (value * St)).

Lemma islice_calls n s : calls (islice next n s) <= n.
Proof.
  revert s. induction n as [|n IH]; intros s; simpl; [lia|].
  destruct (next s) as [[x s']|]; simpl; [|lia].
  specialize (IH s'). lia.
Qed.

Lemma islice_length n s : length (items (islice next n s)) <= calls (islice next n s).
Proof.
  revert s. induction n as [|n IH]; intros s; simpl; [lia|].
  destruct (next s) as [[x s']|]; simpl; [|lia].
  specialize (IH s'). lia.
Qed.

Lemma islice_yields n s l :
  yields next s l -> length l <= n -> items (islice next (S n) s) = l.
Proof.
  intros Hy. revert n. induction Hy as [s Hs|s x s' l Hs Hy IH]; intros n Hn.
  - simpl. by rewrite Hs.
  - simpl in Hn. destruct n as [|n]; [lia|].
    change (islice next (S (S n)) s) with
      (match next s with
       | None => Drawn [] s 1
       | Some (x, s') =>
           let d := islice next (S n) s' in Drawn (x :: items d) (rest d) (S (calls d))
       end).
    rewrite Hs. simpl. f_equal. apply IH. lia.
Qed.

Lemma islice_at_least n s l :
  yields_at_least next s l -> length l = n -> items (islice next n s) = l.
Proof.
  intros Hy. revert n. induction Hy as [s|s x s' l Hs Hy IH]; intros n Hn.
  - simpl in Hn. by subst n.
  - simpl in Hn. subst n. simpl. rewrite Hs. simpl. f_equal. by apply IH.
Qed.

End Islice.

Lemma islice_stop_ok (stop : Z) :
  (0 <= stop <= sys_maxsize)%Z -> islice_stop_error stop = None.
Proof.
  intros Hs. unfold islice_stop_error.
  destruct (Z.eqb_spec stop (-1)); [lia|].
  destruct (Z.ltb_spec stop (- sys_maxsize - 1)); [lia|].
  destruct (Z.ltb_spec sys_maxsize stop); [lia|]. simpl.
  by destruct (Z.ltb_spec stop 0); [lia|].
Qed.

(** C1. With a limit that is a count, that is, one that [islice] accepts
    with one more ([0 <= max_iterable_elements < sys.maxsize]), the hook calls
    [next] on a generic iterable at most [max_iterable_elements + 1] times and
    so draws at most that many items; an iterable that yields at most the
    limit (in particular exactly the limit) is returned as the list of its
    items, in order; one that yields at least one item more fails with the
    ValueError that names the class and the limit; and the limit is 10000
    when the keyword is not given. *)
Theorem default_iterable_cap (self : DecentJSONEncoder) (cls : string) (it : iterator) :
  (0 <= max_iterable_elements self < sys_maxsize)%Z ->
  (Z.of_nat (calls (draw self it)) <= max_iterable_elements self + 1)%Z
  /\ (Z.of_nat (length (items (draw self it))) <= max_iterable_elements self + 1)%Z
  /\ (forall l, yields (it_next it) (it_start it) l ->
        (Z.of_nat (length l) <= max_iterable_elements self)%Z ->
        default self (EIterable cls it) = Ok (JList l))
  /\ (forall l, yields_at_least (it_next it) (it_start it) l ->
        Z.of_nat (length l) = (max_iterable_elements self + 1)%Z ->
        default self (EIterable cls it) =
        Raise (ValueError ("Object of type " +:+ cls +:+ " has more than "
                           +:+ str_int (max_iterable_elements self) +:+ " elements.")))
  /\ (forall kwargs : gmap string Z, kwargs !! "max_iterable_elements" = None ->
        max_iterable_elements (__init__ kwargs) = 10000%Z).
Proof.
  intros Hmax.
  pose proof (islice_calls (it_next it) (Z.to_nat (max_iterable_elements self + 1)) (it_start it)) as Hc.
  pose proof (islice_length (it_next it) (Z.to_nat (max_iterable_elements self + 1)) (it_start it)) as Hl.
  fold (draw self it) in Hc, Hl.
  assert (Hstop : islice_stop_error (max_iterable_elements self + 1) = None)
    by (apply islice_stop_ok; lia).
  split; [lia|]. split; [lia|]. split; [|split].
  - intros l Hy Hlen. unfold default. rewrite Hstop.
    assert (Hit : items (draw self it) = l).
    { unfold draw. replace (Z.to_nat (max_iterable_elements self + 1))
        with (S (Z.to_nat (max_iterable_elements self))) by lia.
      apply islice_yields; [done|lia]. }
    rewrite Hit.
    destruct (Z.ltb_spec (max_iterable_elements self) (Z.of_nat (length l))); [lia|done].
  - intros l Hy Hlen. unfold default. rewrite Hstop.
    assert (Hit : items (draw self it) = l).
    { unfold draw. apply islice_at_least; [done|lia]. }
    rewrite Hit.
    destruct (Z.ltb_spec (max_iterable_elements self) (Z.of_nat (length l))); [done|lia].
  - intros kwargs Hk. unfold __init__. by rewrite Hk.
Qed.

Lemma range_it_yields n i :
  i <= n -> yields (it_next (range_it n)) i (VInt <$> (Z.of_nat <$> seq i (n - i))).
Proof.
  intros Hi. remember (n - i) as k eqn:Hk. revert i Hi Hk.
  induction k as [|k IH]; intros i Hi Hk.
  - apply yields_stop. simpl. case_decide; [lia|done].
  - simpl. eapply yields_item.
    + simpl. case_decide; [done|lia].
    + apply IH; lia.
Qed.

Lemma repeat_it_at_least v n :
  yields_at_least (it_next (repeat_it v)) tt (replicate n v).
Proof. induction n as [|n IH]; simpl; econstructor; eauto. Qed.

(** [(x for x in range(3))] passes a limit of 3, and [repeat(5)] exceeds it. *)
Lemma default_iterable_cap_witness :
  default (Encoder 3) (EIterable "generator" (range_it 3)) = Ok (JList [VInt 0; VInt 1; VInt 2])
  /\ default (Encoder 3) (EIterable "repeat" (repeat_it (VInt 5)))
     = Raise (ValueError "Object of type repeat has more than 3 elements.").
Proof.
  assert (H3 : (0 <= max_iterable_elements (Encoder 3) < sys_maxsize)%Z)
    by (unfold sys_maxsize; simpl; lia).
  split.
  - destruct (default_iterable_cap (Encoder 3) "generator" (range_it 3) H3)
      as (_ & _ & Hok & _ & _).
    apply Hok; [apply (range_it_yields 3 0); lia | simpl; lia].
  - destruct (default_iterable_cap (Encoder 3) "repeat" (repeat_it (VInt 5)) H3)
      as (_ & _ & _ & Hbad & _).
    apply (Hbad (replicate 4 (VInt 5))); [apply repeat_it_at_least | reflexivity].
Defined.

(** A limit that [islice] refuses with one more: the hook fails before it
    draws anything. *)
Example default_limit_out_of_range :
  default (Encoder sys_maxsize) (EIterable "repeat" (repeat_it (VInt 5)))
  = Raise (ValueError "Stop argument for islice() must be None or an integer: 0 <= x <= sys.maxsize.")
  /\ default (Encoder (-2)) (EIterable "repeat" (repeat_it (VInt 5)))
     = Raise (ValueError "Stop argument for islice() must be None or an integer: 0 <= x <= sys.maxsize.")
  /\ default (Encoder (-3)) (EIterable "repeat" (repeat_it (VInt 5)))
     = Raise (ValueError "Indices for islice() must be None or an integer: 0 <= x <= sys.maxsize.").
Proof. repeat split. Qed.

Example default_repeat_10000 :
  default (__init__ ∅) (EIterable "repeat" (repeat_it (VInt 5)))
  = Raise (ValueError "Object of type repeat has more than 10000 elements.").
Proof. vm_compute. reflexivity. Qed.

(** ** The result monad *)

Lemma bind_Ok {A B} (f : A -> result B) (a : A) : (Ok a ≫= f) = f a.
Proof. reflexivity. Qed.

Lemma bind_Raise {A B} (f : A -> result B) (e : exn) : (Raise e ≫= f) = Raise e.
Proof. reflexivity. Qed.

Lemma bind_Ok_inv {A B} (f : A -> result B) (m : result A) (b : B) :
  (m ≫= f) = Ok b -> exists a, m = Ok a /\ f a = Ok b.
Proof. destruct m as [a|e]; [eauto|discriminate]. Qed.

Lemma bind_Raise_inv {A B} (f : A -> result B) (m : result A) (e : exn) :
  (m ≫= f) = Raise e -> m = Raise e \/ exists a, m = Ok a /\ f a = Raise e.
Proof. destruct m as [a|e']; [eauto|]. intros [= ->]. by left. Qed.

Lemma mapM_Ok {A B} (f : A -> result B) (g : A -> B) (l : list A) :
  Forall (fun x => f x = Ok (g x)) l -> mapM f l = Ok (g <$> l).
Proof.
  induction 1 as [|x l Hx _ IH]; [reflexivity|].
  simpl. rewrite Hx, bind_Ok, IH. reflexivity.
Qed.

Lemma mapM_Raise {A B} (f : A -> result B) (g : A -> B) (l1 l2 : list A) x e :
  Forall (fun x => f x = Ok (g x)) l1 -> f x = Raise e ->
  mapM f (l1 ++ x :: l2) = Raise e.
Proof.
  induction 1 as [|y l Hy _ IH]; intros Hx; simpl.
  - by rewrite Hx.
  - rewrite Hy, bind_Ok, IH by done. reflexivity.
Qed.

Lemma mapM_Raise_inv {A B} (f : A -> result B) (l : list A) e :
  mapM f l = Raise e -> exists x, x ∈ l /\ f x = Raise e.
Proof.
  induction l as [|x l IH]; [discriminate|].
  simpl. intros H. apply bind_Raise_inv in H as [H|(y & Hy & H)].
  - exists x. split; [left|done].
  - apply bind_Raise_inv in H as [H|(k & Hk & H)]; [|discriminate].
    destruct (IH H) as (z & Hz & Hfz). exists z. split; [by right|done].
Qed.

Lemma mapM_Ok_inv {A B} (f : A -> result B) (l : list A) (k : list B) :
  mapM f l = Ok k -> Forall2 (fun x y => f x = Ok y) l k.
Proof.
  revert k. induction l as [|x l IH]; intros k.
  - intros [= <-]. constructor.
  - simpl. intros H. apply bind_Ok_inv in H as (y & Hy & H).
    apply bind_Ok_inv in H as (k' & Hk' & H). injection H as <-.
    constructor; auto.
Qed.

(** ** The loop of [pretty_table] *)

Lemma process_rows_app rows1 rows2' st :
  process_rows (rows1 ++ rows2') st = (process_rows rows1 st ≫= process_rows rows2').
Proof.
  revert st. induction rows1 as [|r rows1 IH]; intros st; [reflexivity|].
  simpl. destruct (process_row r st) as [st'|e]; [|reflexivity].
  rewrite !bind_Ok. apply IH.
Qed.

Lemma process_rows_raise rows1 r rows2' st st' e :
  process_rows rows1 st = Ok st' -> process_row r st' = Raise e ->
  process_rows (rows1 ++ r :: rows2') st = Raise e.
Proof.
  intros H1 H2. rewrite process_rows_app, H1, bind_Ok. simpl. by rewrite H2.
Qed.

Lemma pretty_table_raise rows1 r rows2' h st e :
  process_rows rows1 (initial_state h) = Ok st -> process_row r st = Raise e ->
  pretty_table (rows1 ++ r :: rows2') h = Raise e.
Proof.
  intros H1 H2. unfold pretty_table.
  by rewrite (process_rows_raise _ _ _ _ _ _ H1 H2).
Qed.

Lemma dict_lookups_Ok (d : gmap string value) (hdr : list string) :
  Forall (fun k => k ∈ dom d) hdr ->
  mapM (helpful_error_dict_get d) hdr = Ok (dict_cells d hdr).
Proof.
  intros H. apply mapM_Ok. eapply Forall_impl; [exact H|].
  intros k Hk. apply elem_of_dom in Hk as [v Hv].
  unfold helpful_error_dict_get. rewrite Hv. f_equal.
  by rewrite (lookup_total_correct _ _ _ Hv).
Qed.

Lemma dict_lookups_Raise (d : gmap string value) (before after : list string) key :
  Forall (fun k => k ∈ dom d) before -> key ∉ dom d ->
  mapM (helpful_error_dict_get d) (before ++ key :: after)
  = Raise (KeyError (key_error_msg d key)).
Proof.
  intros Hb Hk. apply (mapM_Raise _ (fun k => d !!! k)).
  - eapply Forall_impl; [exact Hb|]. intros k Hk'.
    apply elem_of_dom in Hk' as [v Hv].
    unfold helpful_error_dict_get. rewrite Hv. f_equal.
    by rewrite (lookup_total_correct _ _ _ Hv).
  - apply not_elem_of_dom in Hk. unfold helpful_error_dict_get. by rewrite Hk.
Qed.

Lemma dict_lookups_Raise_inv (d : gmap string value) (hdr : list string) e :
  mapM (helpful_error_dict_get d) hdr = Raise e ->
  exists key, key ∈ hdr /\ d !! key = None /\ e = KeyError (key_error_msg d key).
Proof.
  intros H. apply mapM_Raise_inv in H as (key & Hin & H).
  exists key. split; [done|]. unfold helpful_error_dict_get in H.
  destruct (d !! key); [discriminate|]. split; [done|].
  unfold _helpful_dict_error in H. by injection H as <-.
Qed.

Lemma sorted_keys_in_dom (d : gmap string value) :
  Forall (fun k => k ∈ dom d) (sorted (keys d)).
Proof.
  apply Forall_forall. intros k Hk. unfold sorted, keys in Hk.
  rewrite merge_sort_Permutation in Hk. by apply elem_of_elements in Hk.
Qed.

Lemma sorted_keys_nil (d : gmap string value) :
  sorted (keys d) = [] <-> dom d = ∅.
Proof.
  unfold sorted, keys. split.
  - intros H. apply leibniz_equiv, elements_empty_inv.
    apply Permutation_nil_r. rewrite <- H. by rewrite merge_sort_Permutation.
  - intros ->. by rewrite elements_empty.
Qed.

Lemma length_dict_cells d hdr : length (dict_cells d hdr) = length hdr.
Proof. unfold dict_cells. by rewrite length_fmap. Qed.

Lemma require_type_Ok t st :
  accepts t (row_type st) ->
  require_type t st = Ok (State (accept t (row_type st)) (header st) (rows2 st)).
Proof.
  unfold require_type, accepts. destruct st as [rt hdr rs]; simpl.
  intros [->|[->| ->]]; simpl; [done..|]. by rewrite decide_True.
Qed.

Lemma require_type_Raise t t' st :
  row_type st = RTKind t' -> t' <> t ->
  require_type t st = Raise (ValueError mixing_msg).
Proof. unfold require_type. intros -> Hne. by rewrite decide_False. Qed.

Lemma require_type_cases t st :
  (accepts t (row_type st)
   /\ require_type t st = Ok (State (accept t (row_type st)) (header st) (rows2 st)))
  \/ ((exists t', row_type st = RTKind t' /\ t' <> t)
      /\ require_type t st = Raise (ValueError mixing_msg)).
Proof.
  destruct (row_type st) as [| |t'] eqn:Hrt.
  - left. assert (Ha : accepts t (row_type st)) by (left; done).
    split; [by rewrite <- Hrt|]. rewrite (require_type_Ok _ _ Ha). by rewrite Hrt.
  - left. assert (Ha : accepts t (row_type st)) by (right; left; done).
    split; [by rewrite <- Hrt|]. rewrite (require_type_Ok _ _ Ha). by rewrite Hrt.
  - destruct (decide (t' = t)) as [->|Hne].
    + left. assert (Ha : accepts t (row_type st)) by (right; right; done).
      split; [by rewrite <- Hrt|]. rewrite (require_type_Ok _ _ Ha). by rewrite Hrt.
    + right. split; [eauto|]. by apply (require_type_Raise t t').
Qed.

Lemma process_row_dict_fits r d st :
  row_dict r = Some d -> accepts mapping (row_type st) ->
  header st <> [] -> Forall (fun k => k ∈ dom d) (header st) ->
  process_row r st
  = Ok (State (accept mapping (row_type st)) (header st)
          (rows2 st ++ [Cells (dict_cells d (header st))])).
Proof.
  intros Hr Ha Hne Hfit.
  assert (Hd : handle_dict d st
               = Ok (dict_cells d (header st),
                     State (accept mapping (row_type st)) (header st) (rows2 st))).
  { unfold handle_dict. rewrite (require_type_Ok _ _ Ha), bind_Ok. simpl.
    destruct (header st) as [|k hdr] eqn:Hh; [done|].
    simpl header. rewrite (dict_lookups_Ok d (k :: hdr) Hfit). reflexivity. }
  destruct r as [cells|d'|d']; simplify_eq/=; unfold process_row; by rewrite Hd.
Qed.

Lemma process_row_dict_derive r d st :
  row_dict r = Some d -> accepts mapping (row_type st) -> header st = [] ->
  process_row r st
  = Ok (State (accept mapping (row_type st)) (sorted (keys d))
          (TheHeader :: rows2 st ++ [Cells (dict_cells d (sorted (keys d)))])).
Proof.
  intros Hr Ha Hnil.
  assert (Hd : handle_dict d st
               = Ok (dict_cells d (sorted (keys d)),
                     State (accept mapping (row_type st)) (sorted (keys d))
                       (TheHeader :: rows2 st))).
  { unfold handle_dict. rewrite (require_type_Ok _ _ Ha), bind_Ok. simpl.
    rewrite Hnil. simpl header.
    rewrite (dict_lookups_Ok d _ (sorted_keys_in_dom d)). reflexivity. }
  destruct r as [cells|d'|d']; simplify_eq/=; unfold process_row; by rewrite Hd.
Qed.

Lemma process_row_dict_missing r d st before key after :
  row_dict r = Some d -> accepts mapping (row_type st) ->
  header st = before ++ key :: after ->
  Forall (fun k => k ∈ dom d) before -> key ∉ dom d ->
  process_row r st = Raise (KeyError (key_error_msg d key)).
Proof.
  intros Hr Ha Hh Hb Hk.
  assert (Hd : handle_dict d st = Raise (KeyError (key_error_msg d key))).
  { unfold handle_dict. rewrite (require_type_Ok _ _ Ha), bind_Ok. simpl.
    rewrite Hh. destruct (before ++ key :: after) as [|k0 l0] eqn:Heq.
    { by destruct before. }
    simpl header. rewrite <- Heq.
    by rewrite (dict_lookups_Raise d before after key Hb Hk). }
  destruct r as [cells|d'|d']; simplify_eq/=; unfold process_row; by rewrite Hd.
Qed.

Lemma process_row_seq_first cells st :
  accepts sequence (row_type st) -> rows2 st = [] ->
  process_row (RowSeq cells) st
  = Ok (State (accept sequence (row_type st)) (header st) [Cells cells]).
Proof.
  intros Ha Hnil. unfold process_row, handle_seq.
  rewrite (require_type_Ok _ _ Ha), bind_Ok. simpl. rewrite Hnil. reflexivity.
Qed.

Lemma process_row_seq_same cells st e0 es :
  accepts sequence (row_type st) -> rows2 st = e0 :: es ->
  length cells = length (entry_cells (header st) e0) ->
  process_row (RowSeq cells) st
  = Ok (State (accept sequence (row_type st)) (header st) (rows2 st ++ [Cells cells])).
Proof.
  intros Ha Hrs Hlen. unfold process_row, handle_seq.
  rewrite (require_type_Ok _ _ Ha), bind_Ok. simpl. rewrite Hrs.
  rewrite decide_False by (intros Hne; by apply Hne). reflexivity.
Qed.


(** ** The statements after the loop *)

Lemma list_get_Ok {A} (l : list A) i x : l !! i = Some x -> list_get l i = Ok x.
Proof. unfold list_get. by intros ->. Qed.

Lemma column_width_Ok (table : list (list string)) (i : nat) :
  table <> [] -> Forall (fun r => i < length r) table ->
  column_width table i = Ok (column_max table i).
Proof.
  intros Hne Hall. unfold column_width.
  rewrite (mapM_Ok _ (fun r => String.length (nth i r EmptyString))).
  - rewrite bind_Ok. unfold column_max, py_max.
    destruct table as [|r table]; [done|]. reflexivity.
  - eapply Forall_impl; [exact Hall|]. intros r Hr. simpl in Hr.
    apply lookup_lt_is_Some_2 in Hr as [c Hc].
    rewrite (list_get_Ok _ _ _ Hc). simpl. f_equal. f_equal.
    apply nth_lookup_Some with (d := EmptyString) in Hc. by rewrite Hc.
Qed.

Lemma widths_Ok (table : list (list string)) (row0 : list string) rest :
  table = row0 :: rest -> Forall (fun r => length r = length row0) table ->
  mapM (column_width table) (seq 0 (length row0)) = Ok (table_widths table).
Proof.
  intros Ht Hall. subst table. unfold table_widths.
  set (table := row0 :: rest) in *.
  apply mapM_Ok. apply Forall_forall. intros i Hi.
  apply elem_of_seq in Hi. apply column_width_Ok; [done|].
  eapply Forall_impl; [exact Hall|]. intros r Hr. simpl in *. lia.
Qed.

Lemma render_rect st row0 rest :
  str_rows st = row0 :: rest ->
  Forall (fun r => length r = length row0) (str_rows st) ->
  render st = Ok (layout (header st) (str_rows st)).
Proof.
  intros Ht Hall. unfold render, layout.
  rewrite (list_get_Ok _ 0 row0) by (by rewrite Ht).
  rewrite bind_Ok, (widths_Ok _ _ _ Ht Hall), bind_Ok.
  destruct (header st) as [|k hdr]; [reflexivity|].
  rewrite Ht. reflexivity.
Qed.

(** ** Strings *)

Lemma str_app_nil_l (s : string) : EmptyString +:+ s = s.
Proof. reflexivity. Qed.

Lemma str_app_cons (c : ascii) (s t : string) : String c s +:+ t = String c (s +:+ t).
Proof. reflexivity. Qed.

Lemma str_app_nil_r (s : string) : s +:+ EmptyString = s.
Proof. induction s as [|c s IH]; [done|]. by rewrite str_app_cons, IH. Qed.

Lemma str_length_app (s t : string) :
  String.length (s +:+ t) = String.length s + String.length t.
Proof. induction s as [|c s IH]; [done|]. rewrite str_app_cons. simpl. by rewrite IH. Qed.

Lemma length_str_mul c n : String.length (str_mul c n) = n.
Proof. induction n as [|n IH]; simpl; by rewrite ?IH. Qed.

Lemma ljust_own_length (s : string) : ljust s (String.length s) = s.
Proof. unfold ljust. rewrite Nat.sub_diag. apply str_app_nil_r. Qed.

Lemma zip_ljust_own (l : list string) :
  zip_with ljust l (String.length <$> l) = l.
Proof.
  induction l as [|s l IH]; [done|]. csimpl. by rewrite ljust_own_length, IH.
Qed.

Lemma str_VStr (l : list string) : str <$> (VStr <$> l) = l.
Proof. induction l as [|s l IH]; [done|]. csimpl. by rewrite IH. Qed.

Lemma fmap_nth_seq {A B} (f : A -> B) (d : A) (l : list A) :
  (fun i => f (nth i l d)) <$> seq 0 (length l) = f <$> l.
Proof.
  apply list_eq. intros i. rewrite !list_lookup_fmap.
  destruct (decide (i < length l)) as [Hi|Hi].
  - rewrite lookup_seq_lt by done. simpl.
    destruct (lookup_lt_is_Some_2 l i Hi) as [x Hx]. rewrite Hx. simpl.
    by rewrite (nth_lookup_Some _ _ d _ Hx).
  - rewrite lookup_seq_ge by lia. by rewrite lookup_ge_None_2 by lia.
Qed.

(** ** A header and no rows *)

Lemma initial_state_header a :
  truthy (Some a) = true ->
  initial_state (Some a) = State RTAny (ensure_list_if_string a) [TheHeader].
Proof. unfold initial_state. by intros ->. Qed.

Lemma names_truthy a : ensure_list_if_string a <> [] -> truthy (Some a) = true.
Proof. destruct a as [[|c s]|[|k l]]; simpl; done. Qed.

Lemma initial_state_no_header h :
  truthy h = false -> initial_state h = State RTNone [] [].
Proof. unfold initial_state. destruct h; [by intros ->|done]. Qed.

Lemma no_word_all_sep s : ensure_list_if_string (AStr s) = [] -> all_sep s = true.
Proof.
  simpl. unfold re_split. generalize false.
  induction s as [|c s IH]; intros b H; [done|]. simpl in *.
  destruct (is_sep c) eqn:Hc; simpl.
  - destruct b; [by apply (IH true)|].
    rewrite filter_cons_False in H by done. by apply (IH true).
  - destruct (re_split_go false s) as [|w ws];
      by rewrite filter_cons_True in H by done.
Qed.

(** C9 as stated fails: a header string of separators only is supplied, and
    with no rows the result is the empty text: no header line with a dash
    line under it. *)
Lemma separator_header_no_dash_counterexample :
  truthy (Some (AStr ",")) = true
  /\ pretty_table [] (Some (AStr ",")) = Ok EmptyString
  /\ ~ exists header_line,
        pretty_table [] (Some (AStr ","))
        = Ok (header_line +:+ nl +:+ str_mul "-" (String.length header_line)).
Proof.
  split; [reflexivity|]. split; [reflexivity|].
  intros [header_line H]. change (pretty_table [] (Some (AStr ","))) with
    (@Ok string EmptyString) in H.
  injection H as H. destruct header_line as [|c t].
  - rewrite str_app_nil_l in H. unfold nl in H. rewrite str_app_cons in H. discriminate.
  - rewrite str_app_cons in H. discriminate.
Qed.

(** C9, amended. Without rows and without a header [pretty_table] raises the
    IndexError of [rows[0]] instead of returning a text (also for a header
    that is empty and so counts as absent); with a header that names at least
    one column and no rows it returns the header line and the dash line
    under it, and nothing else; with a header that is supplied but names no
    column, a string of commas and whitespace only, and no rows it returns
    the empty text. *)
Theorem pretty_table_no_rows :
  pretty_table [] None = Raise (IndexError "list index out of range")
  /\ (forall h, truthy h = false ->
        pretty_table [] h = Raise (IndexError "list index out of range"))
  /\ (forall a, ensure_list_if_string a <> [] ->
        let header_line := strip (join " | " (ensure_list_if_string a)) in
        pretty_table [] (Some a)
        = Ok (header_line +:+ nl +:+ str_mul "-" (String.length header_line)))
  /\ (forall a, truthy (Some a) = true -> ensure_list_if_string a = [] ->
        (exists s, a = AStr s /\ nonempty s = true /\ all_sep s = true)
        /\ pretty_table [] (Some a) = Ok EmptyString).
Proof.
  split; [reflexivity|]. split; [|split].
  - intros h Hh. unfold pretty_table. rewrite (initial_state_no_header h Hh).
    reflexivity.
  - intros a Hne header_line. pose proof (names_truthy a Hne) as Ha.
    unfold pretty_table.
    rewrite (initial_state_header a Ha). simpl process_rows. rewrite bind_Ok.
    set (names := ensure_list_if_string a) in *.
    set (st := State RTAny names [TheHeader]).
    assert (Hrows : str_rows st = [names]).
    { unfold str_rows. simpl. by rewrite str_VStr. }
    rewrite (render_rect st names []); [|done|].
    2:{ rewrite Hrows. by constructor. }
    unfold layout. rewrite Hrows. simpl header.
    assert (Hw : table_widths [names] = String.length <$> names).
    { unfold table_widths, column_max. simpl.
      apply (fmap_nth_seq String.length EmptyString names). }
    rewrite Hw. simpl fmap. unfold render_line. rewrite zip_ljust_own.
    fold header_line. destruct names as [|k names']; [done|]. reflexivity.
  - intros a Ha Hnil. split.
    + destruct a as [s|l]; [|by destruct l]. exists s. split; [done|]. split; [done|].
      by apply no_word_all_sep.
    + unfold pretty_table. rewrite (initial_state_header a Ha), Hnil. reflexivity.
Qed.

Lemma pretty_table_no_rows_witness :
  pretty_table [] (Some (AStr "a b")) = Ok ("a | b" +:+ nl +:+ "-----")
  /\ pretty_table [] (Some (AStr ", ,")) = Ok EmptyString.
Proof.
  destruct pretty_table_no_rows as (_ & _ & H & Hsep). split.
  - apply (H (AStr "a b")). discriminate.
  - apply (Hsep (AStr ", ,")); reflexivity.
Defined.

(** ** The errors of [pretty_table] *)

Lemma handle_dict_Raise d st e :
  handle_dict d st = Raise e ->
  ((exists t', row_type st = RTKind t' /\ t' <> mapping) /\ e = ValueError mixing_msg)
  \/ (exists key, accepts mapping (row_type st) /\ key ∈ header st
        /\ d !! key = None /\ e = KeyError (key_error_msg d key)).
Proof.
  unfold handle_dict. intros H.
  destruct (require_type_cases mapping st) as [[Ha Hr]|[Hk Hr]];
    rewrite Hr in H.
  - right. rewrite bind_Ok in H. cbn [header rows2 row_type] in H.
    apply bind_Raise_inv in H as [H|(cells & _ & H)]; [|discriminate].
    apply dict_lookups_Raise_inv in H as (key & Hin & Hkey & ->).
    exists key. split; [done|]. split; [|done].
    destruct (header st) as [|k hdr]; [|done]. cbn [header] in Hin.
    pose proof (sorted_keys_in_dom d) as Hdom.
    rewrite Forall_forall in Hdom. apply Hdom, elem_of_dom in Hin as [v Hv].
    congruence.
  - left. rewrite bind_Raise in H. injection H as <-. eauto.
Qed.

Lemma handle_seq_Raise cells st e :
  handle_seq cells st = Raise e ->
  ((exists t', row_type st = RTKind t' /\ t' <> sequence) /\ e = ValueError mixing_msg)
  \/ (exists e0 es, accepts sequence (row_type st) /\ rows2 st = e0 :: es
        /\ length cells <> length (entry_cells (header st) e0)
        /\ e = ValueError (mismatch_msg (entry_cells (header st) e0) cells)).
Proof.
  unfold handle_seq. intros H.
  destruct (require_type_cases sequence st) as [[Ha Hr]|[Hk Hr]];
    rewrite Hr in H.
  - right. rewrite bind_Ok in H. simpl in H.
    destruct (rows2 st) as [|e0 es]; [discriminate|].
    case_decide; [|discriminate]. injection H as <-. exists e0, es. eauto.
  - left. rewrite bind_Raise in H. injection H as <-. eauto.
Qed.

Lemma process_row_Raise r st e :
  process_row r st = Raise e ->
  ((exists t', row_type st = RTKind t' /\ t' <> kind_of r) /\ e = ValueError mixing_msg)
  \/ (exists d key, row_dict r = Some d /\ accepts mapping (row_type st)
        /\ key ∈ header st /\ d !! key = None
        /\ e = KeyError (key_error_msg d key))
  \/ (exists cells e0 es, r = RowSeq cells /\ accepts sequence (row_type st)
        /\ rows2 st = e0 :: es
        /\ length cells <> length (entry_cells (header st) e0)
        /\ e = ValueError (mismatch_msg (entry_cells (header st) e0) cells)).
Proof.
  unfold process_row. intros H.
  apply bind_Raise_inv in H as [H|([cells st'] & _ & H)]; [|discriminate].
  destruct r as [cells|d|d].
  - apply handle_seq_Raise in H as [[Hk ->]|(e0 & es & Ha & Hrs & Hlen & ->)].
    + left. eauto.
    + right. right. exists cells, e0, es. eauto.
  - apply handle_dict_Raise in H as [[Hk ->]|(key & Ha & Hin & Hkey & ->)].
    + left. eauto.
    + right. left. exists d, key. eauto.
  - apply handle_dict_Raise in H as [[Hk ->]|(key & Ha & Hin & Hkey & ->)].
    + left. eauto.
    + right. left. exists d, key. eauto.
Qed.

Lemma process_rows_Raise rows st e :
  process_rows rows st = Raise e ->
  exists before r after st',
    rows = before ++ r :: after
    /\ process_rows before st = Ok st' /\ process_row r st' = Raise e.
Proof.
  revert st. induction rows as [|r rows IH]; intros st; [discriminate|].
  simpl. intros H. apply bind_Raise_inv in H as [H|(st1 & Hst1 & H)].
  - exists [], r, rows, st. eauto.
  - destruct (IH _ H) as (before & r' & after & st' & -> & Hb & Hr).
    exists (r :: before), r', after, st'. split; [done|]. split; [|done].
    simpl. by rewrite Hst1, bind_Ok.
Qed.

Lemma mapM_length {A B} (f : A -> result B) (l : list A) (k : list B) :
  mapM f l = Ok k -> length k = length l.
Proof. intros H. apply mapM_Ok_inv in H. symmetry. by eapply Forall2_length. Qed.

Lemma column_width_Raise table i e :
  table <> [] -> column_width table i = Raise e ->
  e = IndexError "list index out of range".
Proof.
  intros Hne. unfold column_width. intros H.
  apply bind_Raise_inv in H as [H|(lens & Hlens & H)].
  - apply mapM_Raise_inv in H as (r & _ & H). unfold list_get in H.
    destruct (r !! i); [discriminate|]. by injection H as <-.
  - apply mapM_length in Hlens. destruct lens as [|x lens]; [|discriminate].
    destruct table; [done|discriminate].
Qed.

Lemma render_Raise st e :
  render st = Raise e -> e = IndexError "list index out of range".
Proof.
  unfold render. intros H.
  apply bind_Raise_inv in H as [H|(row0 & Hrow0 & H)].
  { unfold list_get in H. destruct (str_rows st !! 0); [discriminate|].
    by injection H as <-. }
  assert (Hne : str_rows st <> []).
  { intros Hnil. rewrite Hnil in Hrow0. discriminate. }
  apply bind_Raise_inv in H as [H|(widths & _ & H)].
  { apply mapM_Raise_inv in H as (i & _ & H). by eapply column_width_Raise. }
  apply bind_Raise_inv in H as [H|(lines & _ & H)]; [|discriminate].
  destruct (header st); [discriminate|].
  apply bind_Raise_inv in H as [H|(line0 & _ & H)]; [|discriminate].
  unfold list_get in H. destruct (_ !! 0); [discriminate|]. by injection H as <-.
Qed.

Lemma pretty_table_Raise rows h e :
  pretty_table rows h = Raise e ->
  (exists before r after st,
     rows = before ++ r :: after
     /\ process_rows before (initial_state h) = Ok st /\ process_row r st = Raise e)
  \/ e = IndexError "list index out of range".
Proof.
  unfold pretty_table. intros H.
  apply bind_Raise_inv in H as [H|(st & _ & H)].
  - left. by apply process_rows_Raise.
  - right. by apply (render_Raise st).
Qed.

(** ** The KeyError of a mapping row *)

Lemma slice_to_length n s : String.length (slice_to n s) = Nat.min n (String.length s).
Proof.
  unfold slice_to. revert s. induction n as [|n IH]; intros [|c s]; simpl; auto.
Qed.

Lemma slice_to_prefix n s : exists t, s = slice_to n s +:+ t.
Proof.
  unfold slice_to. revert s. induction n as [|n IH]; intros [|c s]; simpl.
  - by exists EmptyString.
  - by exists (String c s).
  - by exists EmptyString.
  - destruct (IH s) as [t Ht]. exists t. rewrite str_app_cons. by rewrite <- Ht.
Qed.

Lemma slice_to_all n s : String.length s <= n -> slice_to n s = s.
Proof.
  unfold slice_to. revert s. induction n as [|n IH]; intros [|c s]; simpl; auto.
  - lia.
  - intros H. f_equal. apply IH. lia.
Qed.

(** C10. The KeyError of [_helpful_dict_error], which is also the one of
    [helpful_error_dict_get] and the only KeyError [pretty_table] raises,
    reports the text of the sorted key list cut to its first 1000 characters:
    the reported text is a prefix of the full one, at most 1000 characters
    long, and differs from it as soon as the full text is longer. *)
Theorem key_error_list_is_cut :
  (forall (d : gmap string value) (key : string),
     let full := str_list (repr_str <$> sorted (keys d)) in
     let reported := slice_to 1000 full in
     @_helpful_dict_error value value d key
     = Raise (KeyError ("Tried to access " +:+ repr_str key
                        +:+ ", only keys are: " +:+ reported))
     /\ (d !! key = None ->
         helpful_error_dict_get d key
         = Raise (KeyError ("Tried to access " +:+ repr_str key
                            +:+ ", only keys are: " +:+ reported)))
     /\ String.length reported <= 1000
     /\ (exists cut, full = reported +:+ cut)
     /\ (1000 < String.length full ->
         String.length reported = 1000 /\ reported <> full))
  /\ (forall rows h msg,
        pretty_table rows h = Raise (KeyError msg) ->
        exists d key,
          (RowMap d ∈ rows \/ RowObj d ∈ rows) /\ d !! key = None
          /\ msg = "Tried to access " +:+ repr_str key +:+ ", only keys are: "
                   +:+ slice_to 1000 (str_list (repr_str <$> sorted (keys d)))).
Proof.
  split.
  - intros d key full reported. split; [reflexivity|]. split.
    { intros Hk. unfold helpful_error_dict_get. by rewrite Hk. }
    pose proof (slice_to_length 1000 full) as Hlen. fold reported in Hlen.
    split; [lia|]. split; [apply slice_to_prefix|].
    intros Hlong. split; [lia|]. intros Heq. rewrite Heq in Hlen. lia.
  - intros rows h msg H.
    apply pretty_table_Raise in H as [(before & r & after & st & -> & _ & H)|H];
      [|discriminate].
    apply process_row_Raise in H
      as [[_ H]|[(d & key & Hd & _ & _ & Hkey & H)
                 |(cells & e0 & es & _ & _ & _ & _ & H)]];
      [discriminate| |discriminate].
    injection H as ->. exists d, key. split; [|done].
    destruct r as [cells|d'|d']; simplify_eq/=.
    + left. apply elem_of_app. right. left.
    + right. apply elem_of_app. right. left.
Qed.

(** C5 as stated fails: for a mapping whose key list is longer than 1000
    characters the KeyError does not contain the sorted list of the keys. *)
Lemma key_error_full_list_counterexample :
  pretty_table [RowMap long_key_dict] (Some (AList ["c"]))
  = Raise (KeyError (key_error_msg long_key_dict "c"))
  /\ contains (str_list (repr_str <$> sorted (keys long_key_dict)))
       (key_error_msg long_key_dict "c") = false.
Proof. split; vm_compute; reflexivity. Qed.

(** C5, amended. Once the rows before it are processed and the row kind is
    accepted, a mapping or record row is read by looking up every key of the
    header in order: when it has them all its cells are the values found, and
    at the first key it lacks [pretty_table] raises the KeyError that names
    that key and the text of the sorted list of the keys of the row, cut to
    1000 characters (the whole text when it is not longer). *)
Theorem mapping_row_key_lookup (h : option str_or_list) (before after : list row)
    (r : row) (d : gmap string value) (st : state) :
  process_rows before (initial_state h) = Ok st ->
  row_dict r = Some d ->
  accepts mapping (row_type st) ->
  header st <> [] ->
  (Forall (fun k => k ∈ dom d) (header st) ->
   process_row r st
   = Ok (State (accept mapping (row_type st)) (header st)
           (rows2 st ++ [Cells ((fun k => d !!! k) <$> header st)])))
  /\ (forall found key rest,
        header st = found ++ key :: rest ->
        Forall (fun k => k ∈ dom d) found -> key ∉ dom d ->
        let full := str_list (repr_str <$> sorted (keys d)) in
        pretty_table (before ++ r :: after) h
        = Raise (KeyError ("Tried to access " +:+ repr_str key
                           +:+ ", only keys are: " +:+ slice_to 1000 full))
        /\ (String.length full <= 1000 -> slice_to 1000 full = full)).
Proof.
  intros Hbefore Hd Ha Hne. split.
  - intros Hall. by apply process_row_dict_fits.
  - intros found key rest Hh Hfound Hkey full. split.
    + apply (pretty_table_raise before r after h st); [done|].
      by apply (process_row_dict_missing r d st found key rest).
    + apply slice_to_all.
Qed.

Lemma mapping_row_key_lookup_witness :
  pretty_table ([RowSeq [VInt 5; VInt 6]] ++ RowMap (d_ab 1 2) :: []) (Some (AStr "a c"))
  = Raise (KeyError "Tried to access 'c', only keys are: ['a', 'b']").
Proof.
  assert (Hst : process_rows [RowSeq [VInt 5; VInt 6]] (initial_state (Some (AStr "a c")))
                = Ok (State RTAny ["a"; "c"] [TheHeader; Cells [VInt 5; VInt 6]]))
    by reflexivity.
  destruct (mapping_row_key_lookup (Some (AStr "a c")) [RowSeq [VInt 5; VInt 6]] []
              (RowMap (d_ab 1 2)) (d_ab 1 2) _ Hst eq_refl
              (or_intror (or_introl eq_refl)) ltac:(discriminate)) as [_ H].
  destruct (H ["a"] "c" [] eq_refl) as [Hmsg _].
  - constructor; [|constructor]. apply elem_of_dom. by eexists.
  - apply not_elem_of_dom. reflexivity.
  - exact Hmsg.
Defined.

(** ** Runs of the loop under a fixed header *)

Lemma accept_stable t rt : rt <> RTNone -> accept t rt = rt.
Proof. by destruct rt. Qed.

Lemma state_eta st : State (row_type st) (header st) (rows2 st) = st.
Proof. by destruct st. Qed.

(** Under a header that is set and stands first in [rows2], a row that
    agrees with the header is appended as its normalized cells. *)
Lemma process_row_fits r st es :
  row_type st <> RTNone -> accepts (kind_of r) (row_type st) ->
  header st <> [] -> rows2 st = TheHeader :: es ->
  fits (header st) r ->
  process_row r st
  = Ok (State (row_type st) (header st) (rows2 st ++ [Cells (normalize (header st) r)])).
Proof.
  intros Hrt Ha Hne Hrs Hfit. destruct r as [cells|d|d]; simpl in *.
  - rewrite (process_row_seq_same cells st TheHeader es Ha Hrs).
    + by rewrite accept_stable.
    + simpl. by rewrite length_fmap.
  - rewrite (process_row_dict_fits (RowMap d) d st eq_refl Ha Hne Hfit).
    by rewrite accept_stable.
  - rewrite (process_row_dict_fits (RowObj d) d st eq_refl Ha Hne Hfit).
    by rewrite accept_stable.
Qed.

Lemma process_rows_fits rows st es :
  row_type st <> RTNone ->
  Forall (fun r => accepts (kind_of r) (row_type st)) rows ->
  header st <> [] -> rows2 st = TheHeader :: es ->
  Forall (fits (header st)) rows ->
  process_rows rows st
  = Ok (State (row_type st) (header st)
          (rows2 st ++ ((fun r => Cells (normalize (header st) r)) <$> rows))).
Proof.
  revert st es. induction rows as [|r rows IH]; intros st es Hrt Ha Hne Hrs Hfit.
  - simpl. rewrite app_nil_r. by rewrite state_eta.
  - apply Forall_cons in Ha as [Har Ha]. apply Forall_cons in Hfit as [Hfr Hfit].
    simpl. rewrite (process_row_fits r st es Hrt Har Hne Hrs Hfr), bind_Ok.
    rewrite (IH _ (es ++ [Cells (normalize (header st) r)])); simpl; try done.
    + by rewrite <- app_assoc.
    + by rewrite Hrs.
Qed.

(** Without a header, sequence rows of one length are appended as they
    are. *)
Lemma process_rows_seqs (cellss : list (list value)) st c0 es :
  row_type st = RTKind sequence -> rows2 st = Cells c0 :: es ->
  Forall (fun c => length c = length c0) cellss ->
  process_rows (RowSeq <$> cellss) st
  = Ok (State (row_type st) (header st) (rows2 st ++ (Cells <$> cellss))).
Proof.
  revert st es. induction cellss as [|c cellss IH]; intros st es Hrt Hrs Hall.
  - simpl. rewrite app_nil_r. by rewrite state_eta.
  - apply Forall_cons in Hall as [Hc Hall]. csimpl.
    assert (Ha : accepts sequence (row_type st)) by (right; right; done).
    rewrite (process_row_seq_same c st (Cells c0) es Ha Hrs Hc), bind_Ok.
    rewrite accept_stable by (by rewrite Hrt).
    rewrite (IH _ (es ++ [Cells c])); simpl; try done.
    + by rewrite <- app_assoc.
    + by rewrite Hrs.
Qed.

(** ** The header derived from the first mapping row *)

Lemma sorted_Sorted (l : list string) : Sorted String.le (sorted l).
Proof. apply Sorted_merge_sort. apply _. Qed.

Lemma sorted_Permutation (l : list string) : sorted l ≡ₚ l.
Proof. apply merge_sort_Permutation. Qed.

Lemma sorted_keys_elem (d : gmap string value) k : k ∈ sorted (keys d) <-> k ∈ dom d.
Proof. rewrite sorted_Permutation. unfold keys. apply elem_of_elements. Qed.

Lemma sorted_keys_NoDup (d : gmap string value) : NoDup (sorted (keys d)).
Proof. rewrite sorted_Permutation. apply NoDup_elements. Qed.

Lemma row_dict_kind r d : row_dict r = Some d -> kind_of r = mapping.
Proof. by destruct r. Qed.

Lemma row_dict_normalize r d hdr :
  row_dict r = Some d -> normalize hdr r = dict_cells d hdr.
Proof. destruct r; simpl; congruence. Qed.

Lemma row_dict_fits r d hdr :
  row_dict r = Some d -> Forall (fun k => k ∈ dom d) hdr -> fits hdr r.
Proof. destruct r; simpl; intros; by simplify_eq. Qed.

Lemma process_rows_empty_dicts rows st a b :
  header st = [] -> accepts mapping (row_type st) ->
  rows2 st = replicate a TheHeader ++ replicate b (Cells []) ->
  Forall (fun r => exists d, row_dict r = Some d /\ dom d = ∅) rows ->
  exists rt,
    process_rows rows st
    = Ok (State rt [] (replicate (a + length rows) TheHeader
                       ++ replicate (b + length rows) (Cells []))).
Proof.
  revert st a b. induction rows as [|r rows IH]; intros st a b Hh Ha Hrs Hall.
  - exists (row_type st). simpl. rewrite !Nat.add_0_r, <- Hrs, <- Hh.
    by rewrite state_eta.
  - apply Forall_cons in Hall as [(d & Hd & Hdom) Hall].
    simpl process_rows. rewrite (process_row_dict_derive r d st Hd Ha Hh), bind_Ok.
    assert (Hs : sorted (keys d) = []) by (by apply sorted_keys_nil).
    rewrite Hs. change (dict_cells d []) with (@nil value).
    destruct (IH (State (accept mapping (row_type st)) []
                    (TheHeader :: rows2 st ++ [Cells []])) (S a) (S b))
      as [rt Hrt]; simpl; try done.
    + destruct (row_type st); [right; right; done|right; left; done|done].
    + rewrite Hrs, <- app_assoc. f_equal. f_equal.
      change (Cells [] :: replicate b (Cells [])) with (replicate (S b) (Cells [])).
      by rewrite replicate_S_end.
    + exists rt. rewrite Hrt. simpl length.
      by rewrite !Nat.add_succ_r.
Qed.

Lemma render_blank st m :
  header st = [] -> rows2 st <> [] -> length (rows2 st) = m ->
  Forall (fun e => entry_cells [] e = []) (rows2 st) ->
  render st = Ok (join nl (replicate m EmptyString)).
Proof.
  intros Hh Hne Hm Hall.
  assert (Ht : str_rows st = replicate m []).
  { unfold str_rows. rewrite Hh. subst m.
    induction (rows2 st) as [|e es IH]; [done|].
    apply Forall_cons in Hall as [He Hall]. csimpl. rewrite He. f_equal.
    destruct es as [|e' es']; [done|]. by apply IH. }
  destruct m as [|m]; [by destruct (rows2 st)|].
  rewrite (render_rect st [] (replicate m [])); [| done |].
  - unfold layout. rewrite Hh, Ht. simpl. f_equal. f_equal. f_equal.
    by rewrite fmap_replicate.
  - rewrite Ht. apply Forall_forall. intros r Hr.
    apply elem_of_replicate in Hr as [-> _]. done.
Qed.

Lemma with_dash_cons hdr line0 ls :
  hdr <> [] ->
  with_dash hdr (line0 :: ls) = line0 :: str_mul "-" (String.length line0) :: ls.
Proof. by destruct hdr. Qed.

Lemma str_rows_header_first rt hdr (rows : list row) :
  str_rows (State rt hdr (TheHeader :: ((fun r => Cells (normalize hdr r)) <$> rows)))
  = hdr :: ((fun r => str <$> normalize hdr r) <$> rows).
Proof.
  unfold str_rows. simpl. rewrite str_VStr. f_equal.
  rewrite <- list_fmap_compose. reflexivity.
Qed.

Lemma header_table_rect hdr (rows : list row) :
  Forall (fits hdr) rows ->
  Forall (fun r => length r = length hdr)
    (hdr :: ((fun r => str <$> normalize hdr r) <$> rows)).
Proof.
  intros Hfit. constructor; [done|]. apply Forall_fmap.
  eapply Forall_impl; [exact Hfit|]. intros r Hr. simpl. rewrite length_fmap.
  destruct r as [cells|d|d]; simpl in *; [done|apply length_dict_cells..].
Qed.

(** C6. Without a header, when every row is a mapping (or a record) with the
    key set of the first one, the header is the keys of the first row in
    ascending order, each row is rendered from its values in that order, the
    first line of the result is the header and the second the dash line of
    the same length, and the lines of the rows end the result; for a key set
    that is not empty the result is exactly these lines. *)
Theorem derived_header_is_sorted_keys (r0 : row) (rest : list row)
    (d0 : gmap string value) :
  row_dict r0 = Some d0 ->
  Forall (fun r => exists d, row_dict r = Some d /\ dom d = dom d0) rest ->
  let rows := r0 :: rest in
  let hdr := sorted (keys d0) in
  let table := hdr :: ((fun r => str <$> normalize hdr r) <$> rows) in
  let header_line := render_line (table_widths table) hdr in
  let row_lines :=
    (fun r => render_line (table_widths table) (str <$> normalize hdr r)) <$> rows in
  Sorted String.le hdr /\ NoDup hdr /\ (forall k, k ∈ hdr <-> k ∈ dom d0)
  /\ exists lines,
       pretty_table rows None = Ok (join nl lines)
       /\ (exists below,
             lines = header_line :: str_mul "-" (String.length header_line) :: below)
       /\ (exists above, lines = above ++ row_lines)
       /\ (dom d0 <> ∅ ->
           lines = header_line :: str_mul "-" (String.length header_line) :: row_lines).
Proof.
  intros Hr0 Hrest rows hdr table header_line row_lines.
  split; [apply sorted_Sorted|]. split; [apply sorted_keys_NoDup|].
  split; [apply sorted_keys_elem|].
  assert (Ha0 : accepts mapping (row_type (State RTNone [] []))) by (left; done).
  destruct (decide (dom d0 = ∅)) as [Hempty|Hkeys].
  - (* no key at all: every line is empty *)
    assert (Hhdr : hdr = []) by (by apply sorted_keys_nil).
    assert (Hall : Forall (fun r => exists d, row_dict r = Some d /\ dom d = ∅) rows).
    { constructor; [eauto|]. eapply Forall_impl; [exact Hrest|].
      intros r (d & Hd & Hdom). exists d. by rewrite Hdom. }
    destruct (process_rows_empty_dicts rows (State RTNone [] []) 0 0 eq_refl Ha0
                eq_refl Hall) as [rt Hrun].
    change (0 + length rows) with (length rows) in Hrun.
    set (n := length rows) in *.
    assert (Hrender : pretty_table rows None
                      = Ok (join nl (replicate (n + n) EmptyString))).
    { unfold pretty_table. change (initial_state None) with (State RTNone [] []).
      rewrite Hrun, bind_Ok. apply render_blank; cbn [header rows2].
      - done.
      - assert (Hn : n = S (length rest)) by done. by rewrite Hn.
      - by rewrite length_app, !length_replicate.
      - apply Forall_app. split; apply Forall_forall; intros e He;
          apply elem_of_replicate in He as [-> _]; done. }
    assert (Hwidths : table_widths table = []).
    { unfold table, table_widths. by rewrite Hhdr. }
    assert (Hheader : header_line = EmptyString).
    { unfold header_line. by rewrite Hwidths, Hhdr. }
    assert (Hrows : row_lines = replicate n EmptyString).
    { unfold row_lines. rewrite Hwidths, Hhdr. subst n.
      clear -Hall. induction Hall as [|r rs (d & Hd & _) _ IH]; [done|].
      csimpl. rewrite IH. f_equal.
      by rewrite (row_dict_normalize r d [] Hd). }
    exists (replicate (n + n) EmptyString). split; [done|].
    rewrite Hheader, Hrows. split; [|split].
    + assert (Hn : n = S (length rest)) by done. rewrite Hn. simpl.
      rewrite Nat.add_succ_r. simpl. eauto.
    + exists (replicate n EmptyString). by rewrite replicate_add.
    + done.
  - (* the usual case *)
    assert (Hne : hdr <> []) by (intros H; by apply sorted_keys_nil in H).
    assert (Hfit : Forall (fits hdr) rows).
    { constructor.
      - apply (row_dict_fits r0 d0 hdr Hr0), sorted_keys_in_dom.
      - eapply Forall_impl; [exact Hrest|]. intros r (d & Hd & Hdom).
        apply (row_dict_fits r d hdr Hd). rewrite Hdom. apply sorted_keys_in_dom. }
    assert (Hrun : process_rows rows (State RTNone [] [])
                   = Ok (State (RTKind mapping) hdr
                           (TheHeader :: ((fun r => Cells (normalize hdr r)) <$> rows)))).
    { unfold rows. simpl process_rows.
      rewrite (process_row_dict_derive r0 d0 _ Hr0 Ha0 eq_refl), bind_Ok.
      fold hdr. simpl accept. simpl app.
      rewrite (process_rows_fits rest _ [Cells (dict_cells d0 hdr)]); simpl; try done.
      + by rewrite (row_dict_normalize r0 d0 hdr Hr0).
      + eapply Forall_impl; [exact Hrest|]. intros r (d & Hd & _).
        rewrite (row_dict_kind r d Hd). right; right; done.
      + by apply Forall_cons in Hfit as [_ Hfit]. }
    exists (header_line :: str_mul "-" (String.length header_line) :: row_lines).
    split; [|split; [eauto|split; [|done]]].
    + unfold pretty_table. change (initial_state None) with (State RTNone [] []).
      rewrite Hrun, bind_Ok.
      rewrite (render_rect _ hdr ((fun r => str <$> normalize hdr r) <$> rows));
        rewrite ?str_rows_header_first; [|done|by apply header_table_rect].
      unfold layout. cbn [header]. subst header_line row_lines table.
      rewrite fmap_cons, (with_dash_cons _ _ _ Hne).
      by rewrite <- list_fmap_compose.
    + exists [header_line; str_mul "-" (String.length header_line)]. done.
Qed.

Lemma derived_header_is_sorted_keys_witness :
  pretty_table [RowMap (d_ab 1 2); RowMap (d_ab 3 4)] None
  = Ok ("a | b" +:+ nl +:+ "-----" +:+ nl +:+ "1 | 2" +:+ nl +:+ "3 | 4").
Proof.
  destruct (derived_header_is_sorted_keys (RowMap (d_ab 1 2)) [RowMap (d_ab 3 4)]
              (d_ab 1 2) eq_refl) as (_ & _ & _ & lines & Hout & _ & _ & Hlines).
  - constructor; [|constructor]. exists (d_ab 3 4). split; [done|].
    unfold d_ab. by rewrite !dom_insert_L.
  - rewrite Hout, Hlines; [vm_compute; reflexivity|].
    intros H. assert (Hin : "a" ∈ dom (d_ab 1 2)) by (apply elem_of_dom; by eexists).
    rewrite H in Hin. by apply not_elem_of_empty in Hin.
Defined.

(** ** What a successful turn of the loop tells *)

Lemma dict_lookups_Ok_inv (d : gmap string value) (hdr : list string) cells :
  mapM (helpful_error_dict_get d) hdr = Ok cells ->
  Forall (fun k => k ∈ dom d) hdr /\ cells = dict_cells d hdr.
Proof.
  intros H. apply mapM_Ok_inv in H.
  induction H as [|k v hdr' cells' Hk _ [IH1 IH2]]; [done|].
  unfold helpful_error_dict_get in Hk.
  destruct (d !! k) as [v'|] eqn:Hv; [|discriminate]. injection Hk as ->.
  split.
  - constructor; [|done]. apply elem_of_dom. eauto.
  - unfold dict_cells. csimpl. rewrite (lookup_total_correct _ _ _ Hv).
    f_equal. exact IH2.
Qed.

Lemma handle_dict_Ok_inv d st cells st' :
  handle_dict d st = Ok (cells, st') ->
  accepts mapping (row_type st)
  /\ row_type st' = accept mapping (row_type st)
  /\ Forall (fun k => k ∈ dom d) (header st')
  /\ cells = dict_cells d (header st')
  /\ ((header st <> [] /\ header st' = header st /\ rows2 st' = rows2 st)
      \/ (header st = [] /\ header st' = sorted (keys d)
          /\ rows2 st' = TheHeader :: rows2 st)).
Proof.
  unfold handle_dict. intros H.
  destruct (require_type_cases mapping st) as [[Ha Hr]|[_ Hr]]; rewrite Hr in H;
    [|discriminate].
  rewrite bind_Ok in H. cbn [header row_type rows2] in H.
  apply bind_Ok_inv in H as (cells' & Hcells & H). injection H as -> <-.
  apply dict_lookups_Ok_inv in Hcells as [Hall Hcells].
  split; [done|].
  destruct (header st) as [|k hdr] eqn:Hh; cbn [header row_type rows2] in *.
  - repeat split; try done. right. done.
  - repeat split; try done. left. done.
Qed.

Lemma handle_seq_Ok_inv cells0 st cells st' :
  handle_seq cells0 st = Ok (cells, st') ->
  accepts sequence (row_type st)
  /\ row_type st' = accept sequence (row_type st)
  /\ cells = cells0 /\ header st' = header st /\ rows2 st' = rows2 st
  /\ (forall e0 es, rows2 st = e0 :: es ->
        length cells0 = length (entry_cells (header st) e0)).
Proof.
  unfold handle_seq. intros H.
  destruct (require_type_cases sequence st) as [[Ha Hr]|[_ Hr]]; rewrite Hr in H;
    [|discriminate].
  rewrite bind_Ok in H. cbn [header row_type rows2] in H.
  split; [done|].
  destruct (rows2 st) as [|e0 es] eqn:Hrs.
  - injection H as -> <-. repeat split; try done.
  - case_decide as Hlen; [discriminate|]. injection H as -> <-.
    repeat split; try done. intros e0' es' [= <- <-].
    destruct (decide (length cells = length (entry_cells (header st) e0))); [done|].
    by destruct Hlen.
Qed.

Lemma process_row_Ok_inv r st st' :
  process_row r st = Ok st' ->
  accepts (kind_of r) (row_type st)
  /\ row_type st' = accept (kind_of r) (row_type st)
  /\ match r with
     | RowSeq cells =>
         header st' = header st /\ rows2 st' = rows2 st ++ [Cells cells]
         /\ (forall e0 es, rows2 st = e0 :: es ->
               length cells = length (entry_cells (header st) e0))
     | RowMap d | RowObj d =>
         Forall (fun k => k ∈ dom d) (header st')
         /\ ((header st <> [] /\ header st' = header st
              /\ rows2 st' = rows2 st ++ [Cells (dict_cells d (header st))])
             \/ (header st = [] /\ header st' = sorted (keys d)
                 /\ rows2 st' = TheHeader :: rows2 st
                                ++ [Cells (dict_cells d (sorted (keys d)))]))
     end.
Proof.
  unfold process_row. intros H.
  apply bind_Ok_inv in H as ([cells st1] & H1 & H). injection H as <-.
  cbn [header row_type rows2].
  destruct r as [cells0|d|d]; cbn [kind_of].
  - apply handle_seq_Ok_inv in H1 as (Ha & Hrt & -> & Hh & Hrs & Hlen).
    rewrite Hrs. done.
  - apply handle_dict_Ok_inv in H1 as (Ha & Hrt & Hall & -> & Hcase).
    split; [done|]. split; [done|]. split; [done|].
    destruct Hcase as [(Hne & Hh & Hrs)|(Hnil & Hh & Hrs)]; rewrite Hrs, Hh.
    + left. done.
    + right. done.
  - apply handle_dict_Ok_inv in H1 as (Ha & Hrt & Hall & -> & Hcase).
    split; [done|]. split; [done|]. split; [done|].
    destruct Hcase as [(Hne & Hh & Hrs)|(Hnil & Hh & Hrs)]; rewrite Hrs, Hh.
    + left. done.
    + right. done.
Qed.

(** ** Runs of the whole loop *)

Lemma process_rows_cons r rows st :
  process_rows (r :: rows) st = (process_row r st ≫= process_rows rows).
Proof. reflexivity. Qed.

Lemma no_header_seqs_run h c0 (mid : list (list value)) :
  truthy h = false -> Forall (fun c => length c = length c0) mid ->
  process_rows (RowSeq c0 :: (RowSeq <$> mid)) (initial_state h)
  = Ok (State (RTKind sequence) [] (Cells c0 :: (Cells <$> mid))).
Proof.
  intros Hh Hmid. rewrite (initial_state_no_header h Hh), process_rows_cons.
  rewrite process_row_seq_first by (by left || done). rewrite bind_Ok.
  by rewrite (process_rows_seqs mid _ c0 []).
Qed.

Lemma header_run a (rows : list row) :
  truthy (Some a) = true -> ensure_list_if_string a <> [] ->
  Forall (fits (ensure_list_if_string a)) rows ->
  process_rows rows (initial_state (Some a))
  = Ok (State RTAny (ensure_list_if_string a)
          (TheHeader :: ((fun r => Cells (normalize (ensure_list_if_string a) r)) <$> rows))).
Proof.
  intros Ha Hne Hfit. rewrite (initial_state_header a Ha).
  rewrite (process_rows_fits rows _ []); simpl; try done.
  apply Forall_forall. intros r _. right; left; done.
Qed.

(** ** The length check on sequence rows *)





(** ** Mixing sequence rows with mapping rows *)

Lemma accepts_kind k k' : accepts k (RTKind k') -> k' = k.
Proof. intros [H|[H|H]]; congruence. Qed.

Lemma kind_locked rows st st' k :
  row_type st = RTKind k -> process_rows rows st = Ok st' ->
  row_type st' = RTKind k /\ Forall (fun r => kind_of r = k) rows.
Proof.
  revert st. induction rows as [|r rows IH]; intros st Hrt H.
  - injection H as <-. done.
  - rewrite process_rows_cons in H. apply bind_Ok_inv in H as (st1 & H1 & H).
    apply process_row_Ok_inv in H1 as (Ha & Hrt1 & _).
    rewrite Hrt in Ha, Hrt1. apply accepts_kind in Ha.
    destruct (IH st1 Hrt1 H) as [? ?]. split; [done|]. by constructor.
Qed.

Lemma any_locked rows st st' :
  row_type st = RTAny -> process_rows rows st = Ok st' -> row_type st' = RTAny.
Proof.
  revert st. induction rows as [|r rows IH]; intros st Hrt H.
  - by injection H as <-.
  - rewrite process_rows_cons in H. apply bind_Ok_inv in H as (st1 & H1 & H).
    apply process_row_Ok_inv in H1 as (_ & Hrt1 & _).
    rewrite Hrt in Hrt1. by apply (IH st1).
Qed.

Lemma mismatch_msg_ne_mixing first cells : mismatch_msg first cells <> mixing_msg.
Proof. unfold mismatch_msg, mixing_msg. rewrite str_app_cons. discriminate. Qed.

(** Without a header, once a sequence row stands first in [rows2] it stays
    there and the header stays empty. *)
Lemma seq_mode_state rows st st' c0 es :
  row_type st = RTKind sequence -> header st = [] -> rows2 st = Cells c0 :: es ->
  process_rows rows st = Ok st' ->
  header st' = [] /\ exists es', rows2 st' = Cells c0 :: es'.
Proof.
  revert st es. induction rows as [|r rows IH]; intros st es Hrt Hh Hrs H.
  - injection H as <-. eauto.
  - rewrite process_rows_cons in H. apply bind_Ok_inv in H as (st1 & H1 & H).
    apply process_row_Ok_inv in H1 as (Ha & Hrt1 & Hr).
    rewrite Hrt in Ha, Hrt1. apply accepts_kind in Ha.
    destruct r as [cells|d|d]; [|discriminate..].
    destruct Hr as (Hh1 & Hrs1 & _).
    apply (IH st1 (es ++ [Cells cells])); [done|congruence| |done].
    by rewrite Hrs1, Hrs.
Qed.

(** Every name of the header was given by the caller or is a key of a row
    processed before. *)
Lemma header_origin rows st st' key :
  process_rows rows st = Ok st' -> key ∈ header st' ->
  key ∈ header st
  \/ exists r d, r ∈ rows /\ row_dict r = Some d /\ key ∈ dom d.
Proof.
  revert st. induction rows as [|r rows IH]; intros st H Hkey.
  - injection H as <-. by left.
  - rewrite process_rows_cons in H. apply bind_Ok_inv in H as (st1 & H1 & H).
    destruct (IH st1 H Hkey) as [Hin|(r' & d & Hr' & Hd & Hdom)].
    + apply process_row_Ok_inv in H1 as (_ & _ & Hr).
      destruct r as [cells|d|d].
      * destruct Hr as (Hh & _). left. congruence.
      * destruct Hr as (Hall & _). right. exists (RowMap d), d.
        split; [left|]. split; [done|]. rewrite Forall_forall in Hall. auto.
      * destruct Hr as (Hall & _). right. exists (RowObj d), d.
        split; [left|]. split; [done|]. rewrite Forall_forall in Hall. auto.
    + right. exists r', d. split; [by right|done].
Qed.

Lemma rows_mixed_fail rows (r1 r2 : row) :
  r1 ∈ rows -> r2 ∈ rows -> kind_of r1 <> kind_of r2 ->
  exists e, process_rows rows (State RTNone [] []) = Raise e.
Proof.
  intros H1 H2 Hne.
  destruct (process_rows rows (State RTNone [] [])) as [st'|e] eqn:H; [|eauto].
  exfalso. destruct rows as [|r rows]; [by apply elem_of_nil in H1|].
  rewrite process_rows_cons in H. apply bind_Ok_inv in H as (st1 & Hst1 & H).
  apply process_row_Ok_inv in Hst1 as (_ & Hrt1 & _). cbn [row_type accept] in Hrt1.
  destruct (kind_locked rows st1 st' _ Hrt1 H) as [_ Hall].
  rewrite Forall_forall in Hall.
  assert (Hk : forall r', r' ∈ r :: rows -> kind_of r' = kind_of r).
  { intros r' Hr'. apply elem_of_cons in Hr' as [->|Hr']; auto. }
  apply Hne. by rewrite (Hk r1), (Hk r2).
Qed.

Lemma header_mode_inv rows st st' es :
  row_type st = RTAny -> header st <> [] -> rows2 st = TheHeader :: es ->
  process_rows rows st = Ok st' ->
  Forall (fits (header st)) rows.
Proof.
  revert st es. induction rows as [|r rows IH]; intros st es Hrt Hne Hrs H.
  - constructor.
  - rewrite process_rows_cons in H. apply bind_Ok_inv in H as (st1 & H1 & H).
    apply process_row_Ok_inv in H1 as (_ & Hrt1 & Hr). rewrite Hrt in Hrt1.
    assert (Hst1 : fits (header st) r /\ header st1 = header st
                   /\ exists es1, rows2 st1 = TheHeader :: es1).
    { destruct r as [cells|d|d].
      - destruct Hr as (Hh & Hrs1 & Hlen). split; [|split; [done|]].
        + simpl. rewrite (Hlen _ _ Hrs). simpl. by rewrite length_fmap.
        + rewrite Hrs1, Hrs. eauto.
      - destruct Hr as (Hall & [(_ & Hh & Hrs1)|(Hnil & _)]); [|done].
        split; [|split; [done|]].
        + simpl. by rewrite <- Hh.
        + rewrite Hrs1, Hrs. eauto.
      - destruct Hr as (Hall & [(_ & Hh & Hrs1)|(Hnil & _)]); [|done].
        split; [|split; [done|]].
        + simpl. by rewrite <- Hh.
        + rewrite Hrs1, Hrs. eauto. }
    destruct Hst1 as (Hfit & Hh & es1 & Hrs1).
    constructor; [done|]. rewrite <- Hh.
    apply (IH st1 es1); [done|by rewrite Hh|done|done].
Qed.

Lemma no_header_uniform_error rows e :
  (forall c c', RowSeq c ∈ rows -> RowSeq c' ∈ rows -> length c = length c') ->
  (forall r1 r2 d1 d2, r1 ∈ rows -> r2 ∈ rows ->
     row_dict r1 = Some d1 -> row_dict r2 = Some d2 -> dom d1 = dom d2) ->
  process_rows rows (State RTNone [] []) = Raise e ->
  e = ValueError mixing_msg.
Proof.
  intros Hlen Hdom H.
  apply process_rows_Raise in H as (before & r & after & st & -> & Hbefore & H).
  apply process_row_Raise in H
    as [[_ ->]|[(d & key & Hd & _ & Hin & Hkey & _)
               |(cells & e0 & es & -> & Ha & Hrs & Hne & _)]]; [done|exfalso..].
  - destruct (header_origin _ _ _ key Hbefore Hin) as [Hnil|(r' & d' & Hr' & Hd' & Hk)].
    { by apply elem_of_nil in Hnil. }
    assert (Heq : dom d' = dom d).
    { apply (Hdom r' r); [|apply elem_of_app; right; left|done|done].
      apply elem_of_app. by left. }
    rewrite Heq in Hk. apply elem_of_dom in Hk as [v Hv]. congruence.
  - destruct before as [|b bs].
    { injection Hbefore as <-. discriminate. }
    rewrite process_rows_cons in Hbefore.
    apply bind_Ok_inv in Hbefore as (st1 & Hst1 & Hbs).
    apply process_row_Ok_inv in Hst1 as (_ & Hrt1 & Hb).
    cbn [row_type accept header rows2] in Hrt1, Hb.
    destruct (kind_locked bs st1 st _ Hrt1 Hbs) as [Hrt _].
    rewrite Hrt in Ha. apply accepts_kind in Ha.
    destruct b as [c0|d|d]; [|discriminate..].
    destruct Hb as (Hh1 & Hrs1 & _). simpl in Hrs1.
    destruct (seq_mode_state bs st1 st c0 [] Hrt1 Hh1 Hrs1 Hbs) as (Hh & es' & Hrs').
    rewrite Hrs' in Hrs. injection Hrs as <- <-. simpl in Hne.
    apply Hne, Hlen.
    + apply elem_of_app. right. left.
    + left.
Qed.

(** C3 as stated fails: an explicit header does not make every mixed row
    set succeed, and without a header the error of an earlier row comes
    first. *)
Lemma header_does_not_rescue_counterexample :
  pretty_table [RowMap (d_ab 1 2); RowSeq [VInt 5; VInt 6]] None
  = Raise (ValueError mixing_msg)
  /\ pretty_table [RowMap (d_ab 1 2); RowSeq [VInt 5; VInt 6]] (Some (AStr "c d"))
     = Raise (KeyError "Tried to access 'c', only keys are: ['a', 'b']")
  /\ pretty_table [RowSeq [VInt 1; VInt 2]; RowSeq [VInt 3; VInt 4; VInt 5];
                   RowMap (d_ab 1 2)] None
     = Raise (ValueError (mismatch_msg [VInt 1; VInt 2] [VInt 3; VInt 4; VInt 5])).
Proof. repeat split; vm_compute; reflexivity. Qed.

(** C3, amended. A row collection with a sequence row and a mapping or
    record row always fails when no header is given, and the error is the
    ValueError about mixing unless an earlier row has already failed its own
    check (it is the mixing error whenever the sequence rows have one length
    and the mapping rows one key set). With a header the mixing error never
    occurs, and with a header that names a column the call succeeds exactly
    when every row agrees with the header: as many cells as names for a
    sequence, every name among the keys for a mapping or record. *)
Theorem mixed_rows_need_header (rows : list row) (cells : list value) (r : row) :
  RowSeq cells ∈ rows -> r ∈ rows -> kind_of r = mapping ->
  (forall h, truthy h = false ->
     exists e, pretty_table rows h = Raise e
       /\ ((forall c c', RowSeq c ∈ rows -> RowSeq c' ∈ rows -> length c = length c') ->
           (forall r1 r2 d1 d2, r1 ∈ rows -> r2 ∈ rows ->
              row_dict r1 = Some d1 -> row_dict r2 = Some d2 -> dom d1 = dom d2) ->
           e = ValueError mixing_msg))
  /\ (forall a, truthy (Some a) = true ->
        let names := ensure_list_if_string a in
        pretty_table rows (Some a) <> Raise (ValueError mixing_msg)
        /\ (names <> [] -> Forall (fits names) rows ->
            pretty_table rows (Some a)
            = Ok (layout names (names :: ((fun r => str <$> normalize names r) <$> rows))))
        /\ (names <> [] -> forall out,
              pretty_table rows (Some a) = Ok out -> Forall (fits names) rows)).
Proof.
  intros Hseq Hmap Hkind. split.
  - intros h Hh.
    destruct (rows_mixed_fail rows (RowSeq cells) r Hseq Hmap) as [e He].
    { rewrite Hkind. discriminate. }
    exists e. split.
    + unfold pretty_table. by rewrite (initial_state_no_header h Hh), He.
    + intros Hlen Hdom. by apply (no_header_uniform_error rows e).
  - intros a Ha names. split; [|split].
    + intros H.
      apply pretty_table_Raise in H as [(before & r' & after & st & _ & Hb & H)|H];
        [|discriminate].
      rewrite (initial_state_header a Ha) in Hb.
      apply any_locked in Hb; [|done].
      apply process_row_Raise in H
        as [[(t' & Hrt & _) _]|[(d & key & _ & _ & _ & _ & H)
                               |(cs & e0 & es & _ & _ & _ & _ & H)]].
      * congruence.
      * discriminate.
      * apply (mismatch_msg_ne_mixing (entry_cells (header st) e0) cs). congruence.
    + intros Hne Hfit. unfold pretty_table.
      rewrite (header_run a rows Ha Hne Hfit), bind_Ok. fold names.
      rewrite (render_rect _ names ((fun r => str <$> normalize names r) <$> rows));
        rewrite ?str_rows_header_first; [done|done|by apply header_table_rect].
    + intros Hne out H. unfold pretty_table in H.
      apply bind_Ok_inv in H as (st & Hst & _).
      rewrite (initial_state_header a Ha) in Hst.
      by apply (header_mode_inv rows _ st []) in Hst.
Qed.

Lemma mixed_rows_need_header_witness :
  pretty_table [RowMap (d_ab 1 2); RowObj (d_ab 3 4); RowSeq [VInt 5; VInt 6]] None
  = Raise (ValueError "Cannot mix sequences and other types of rows without specifying a header")
  /\ pretty_table [RowMap (d_ab 1 2); RowObj (d_ab 3 4); RowSeq [VInt 5; VInt 6]]
       (Some (AList ["b"; "a"]))
     = Ok ("b | a" +:+ nl +:+ "-----" +:+ nl +:+ "2 | 1" +:+ nl +:+ "4 | 3" +:+ nl +:+ "5 | 6").
Proof.
  destruct (mixed_rows_need_header
              [RowMap (d_ab 1 2); RowObj (d_ab 3 4); RowSeq [VInt 5; VInt 6]]
              [VInt 5; VInt 6] (RowMap (d_ab 1 2))) as [Hnone Hheader].
  - right. right. left.
  - left.
  - reflexivity.
  - split.
    + destruct (Hnone None eq_refl) as (e & He & Hmix). rewrite He. f_equal.
      apply Hmix.
      * intros c c' Hc Hc'.
        repeat (apply elem_of_cons in Hc as [Hc|Hc]; [try discriminate|]);
          [|by apply elem_of_nil in Hc].
        repeat (apply elem_of_cons in Hc' as [Hc'|Hc']; [try discriminate|]);
          [|by apply elem_of_nil in Hc'].
        congruence.
      * intros r1 r2 d1 d2 H1 H2 Hd1 Hd2.
        assert (Hd : forall r' d', r' ∈ [RowMap (d_ab 1 2); RowObj (d_ab 3 4);
                                         RowSeq [VInt 5; VInt 6]] ->
                                   row_dict r' = Some d' -> dom d' = dom (d_ab 0 0)).
        { intros r' d' Hr' Hd'.
          repeat (apply elem_of_cons in Hr' as [->|Hr']);
            [..|by apply elem_of_nil in Hr']; simpl in Hd'; simplify_eq;
            unfold d_ab; by rewrite !dom_insert_L. }
        by rewrite (Hd r1 d1), (Hd r2 d2).
    + destruct (Hheader (AList ["b"; "a"]) eq_refl) as (_ & Hok & _).
      rewrite Hok; [vm_compute; reflexivity|discriminate|].
      repeat constructor; apply elem_of_dom; by eexists.
Defined.

(** ** Whitespace, bars and newlines in texts *)

Lemma has_char_app c s t : has_char c (s +:+ t) = has_char c s || has_char c t.
Proof.
  induction s as [|a s IH]; [done|]. rewrite str_app_cons. simpl.
  by rewrite IH, orb_assoc.
Qed.

Lemma has_char_str_mul c a n : a <> c -> has_char c (str_mul a n) = false.
Proof.
  intros Hne. induction n as [|n IH]; [done|]. simpl. rewrite IH.
  by apply Ascii.eqb_neq in Hne as ->.
Qed.

Lemma has_char_lstrip c s : has_char c s = false -> has_char c (lstrip s) = false.
Proof.
  induction s as [|a s IH]; [done|]. simpl. intros H.
  apply orb_false_iff in H as [Ha Hs]. destruct (is_space a); [auto|].
  simpl. by rewrite Ha, Hs.
Qed.

Lemma has_char_rstrip c s : has_char c s = false -> has_char c (rstrip s) = false.
Proof.
  induction s as [|a s IH]; [done|]. simpl. intros H.
  apply orb_false_iff in H as [Ha Hs]. specialize (IH Hs).
  destruct (rstrip s) as [|b r].
  - destruct (is_space a); [done|]. simpl. by rewrite Ha.
  - simpl in *. by rewrite Ha, IH.
Qed.

Lemma has_char_strip c s : has_char c s = false -> has_char c (strip s) = false.
Proof. intros H. by apply has_char_rstrip, has_char_lstrip. Qed.

Lemma has_char_ljust c s w :
  c <> " "%char -> has_char c s = false -> has_char c (ljust s w) = false.
Proof.
  intros Hc Hs. unfold ljust. rewrite has_char_app, Hs. simpl.
  apply has_char_str_mul. congruence.
Qed.

Lemma has_char_join c sep (l : list string) :
  has_char c sep = false -> Forall (fun s => has_char c s = false) l ->
  has_char c (join sep l) = false.
Proof.
  intros Hsep Hl. induction Hl as [|s l Hs Hl IH]; [done|].
  unfold join in *. destruct l as [|s' l']; [done|].
  change (String.concat sep (s :: s' :: l'))
    with (s +:+ sep +:+ String.concat sep (s' :: l')).
  by rewrite !has_char_app, Hs, Hsep, IH.
Qed.

Lemma has_visible_app s t : has_visible (s +:+ t) = has_visible s || has_visible t.
Proof.
  induction s as [|a s IH]; [done|]. rewrite str_app_cons. simpl.
  by rewrite IH, orb_assoc.
Qed.

Lemma has_visible_ljust s w : has_visible s = true -> has_visible (ljust s w) = true.
Proof. intros H. unfold ljust. by rewrite has_visible_app, H. Qed.

Lemma lstrip_app a b : has_visible a = true -> lstrip (a +:+ b) = lstrip a +:+ b.
Proof.
  induction a as [|c a IH]; [done|]. rewrite str_app_cons. simpl.
  destruct (is_space c); simpl; [exact IH|]. intros _. by rewrite str_app_cons.
Qed.

Lemma rstrip_visible s : has_visible s = true -> rstrip s <> EmptyString.
Proof.
  induction s as [|c s IH]; [done|]. simpl. intros H.
  destruct (rstrip s) as [|b r] eqn:Hr; [|done].
  destruct (is_space c); [|done]. simpl in H. by apply IH in H.
Qed.

Lemma rstrip_app a b : has_visible b = true -> rstrip (a +:+ b) = a +:+ rstrip b.
Proof.
  intros Hb. induction a as [|c a IH]; [done|]. rewrite !str_app_cons. simpl.
  rewrite IH. destruct (a +:+ rstrip b) as [|x y] eqn:Heq; [|done].
  exfalso. destruct a; [|discriminate]. rewrite str_app_nil_l in Heq.
  by apply rstrip_visible in Hb.
Qed.

Lemma lstrip_spec s :
  exists a, s = a +:+ lstrip s /\ has_visible a = false.
Proof.
  induction s as [|c s (a & Ha & Hv)]; [by exists EmptyString|]. simpl.
  destruct (is_space c) eqn:Hc.
  - exists (String c a). rewrite str_app_cons, <- Ha. simpl. by rewrite Hc, Hv.
  - by exists EmptyString.
Qed.

Lemma rstrip_spec s :
  exists b, s = rstrip s +:+ b /\ has_visible b = false.
Proof.
  induction s as [|c s (b & Hb & Hv)]; [by exists EmptyString|]. simpl.
  destruct (rstrip s) as [|x r] eqn:Hr.
  - rewrite str_app_nil_l in Hb. subst b. destruct (is_space c) eqn:Hc.
    + exists (String c s). rewrite str_app_nil_l. simpl. by rewrite Hc, Hv.
    + exists s. by rewrite str_app_cons, str_app_nil_l.
  - exists b. by rewrite str_app_cons, <- Hb.
Qed.

Lemma rstrip_idem s : rstrip (rstrip s) = rstrip s.
Proof.
  induction s as [|c s IH]; [done|]. simpl.
  destruct (rstrip s) as [|x r] eqn:Hr.
  - destruct (is_space c) eqn:Hc; [done|]. simpl. by rewrite Hc.
  - change (rstrip (String c (String x r)))
      with (match rstrip (String x r) with
            | EmptyString => if is_space c then EmptyString else String c EmptyString
            | String a r' => String c (String a r')
            end).
    by rewrite IH.
Qed.

Lemma lstrip_fixed s :
  lstrip s = s <-> match s with String c _ => is_space c = false | EmptyString => True end.
Proof.
  destruct s as [|c s]; [done|]. simpl. destruct (is_space c) eqn:Hc; [|done].
  split; [|done]. intros H. exfalso.
  destruct (lstrip_spec s) as (a & Ha & _).
  assert (Hlen : String.length s = String.length a + String.length (lstrip s))
    by (rewrite Ha at 1; apply str_length_app).
  rewrite H in Hlen. simpl in Hlen. lia.
Qed.

Lemma lstrip_idem s : lstrip (lstrip s) = lstrip s.
Proof.
  induction s as [|c s IH]; [done|]. simpl.
  destruct (is_space c) eqn:Hc; [done|]. simpl. by rewrite Hc.
Qed.

(** [strip] removes a blank text at either end and leaves nothing more to
    remove. *)
Lemma strip_spec s :
  (exists a b, s = a +:+ strip s +:+ b /\ has_visible a = false /\ has_visible b = false)
  /\ lstrip (strip s) = strip s /\ rstrip (strip s) = strip s.
Proof.
  unfold strip. split; [|split].
  - destruct (lstrip_spec s) as (a & Ha & Hva).
    destruct (rstrip_spec (lstrip s)) as (b & Hb & Hvb).
    exists a, b. split; [|done]. by rewrite <- Hb.
  - apply lstrip_fixed. pose proof (lstrip_idem s) as Hfix.
    apply lstrip_fixed in Hfix. destruct (lstrip s) as [|c t]; [done|].
    simpl. destruct (rstrip t); [|done]. by rewrite Hfix.
  - apply rstrip_idem.
Qed.

(** ** Counting separators and lines *)

Lemma join_cons2 sep (s s' : string) (l : list string) :
  join sep (s :: s' :: l) = s +:+ sep +:+ join sep (s' :: l).
Proof. reflexivity. Qed.

Lemma count_from_cons sub c s :
  count_from sub 0 (String c s)
  = if String.prefix sub (String c s)
    then S (count_from sub (String.length sub - 1) s)
    else count_from sub 0 s.
Proof. reflexivity. Qed.

Lemma prefix_cons a s1 b s2 :
  String.prefix (String a s1) (String b s2)
  = if ascii_dec a b then String.prefix s1 s2 else false.
Proof. reflexivity. Qed.

Lemma prefix_sep_bar s : String.prefix " | " s = true -> has_char bar s = true.
Proof.
  destruct s as [|a [|b s]]; [done| |].
  - rewrite prefix_cons. by destruct (ascii_dec " " a).
  - rewrite !prefix_cons. destruct (ascii_dec " " a); [|done].
    destruct (ascii_dec "|" b) as [<-|]; [|done].
    intros _. cbn [has_char]. unfold bar. rewrite Ascii.eqb_refl.
    by rewrite orb_true_r.
Qed.

Lemma count_no_bar s skip : has_char bar s = false -> count_from " | " skip s = 0.
Proof.
  revert skip. induction s as [|a s IH]; intros skip H; [done|].
  assert (Hs : has_char bar s = false).
  { simpl in H. by apply orb_false_iff in H as [_ ?]. }
  destruct skip as [|k]; [|simpl; auto].
  rewrite count_from_cons.
  destruct (String.prefix " | " (String a s)) eqn:Hp; [|auto].
  apply prefix_sep_bar in Hp. congruence.
Qed.

Lemma prefix_sep_false c a t :
  has_char bar (String c a) = false ->
  String.prefix " | " (String c (a +:+ " | " +:+ t)) = false.
Proof.
  intros H. cbn [has_char] in H. apply orb_false_iff in H as [_ Ha].
  rewrite prefix_cons. destruct (ascii_dec " " c); [|done].
  destruct a as [|b a].
  - rewrite str_app_nil_l, !str_app_cons, prefix_cons.
    by destruct (ascii_dec "|" " ").
  - rewrite str_app_cons, prefix_cons. cbn [has_char] in Ha.
    apply orb_false_iff in Ha as [Hb _].
    destruct (ascii_dec "|" b) as [<-|]; [|done].
    unfold bar in Hb. by rewrite Ascii.eqb_refl in Hb.
Qed.

Lemma prefix_sep_true t : String.prefix " | " (" | " +:+ t) = true.
Proof.
  rewrite !str_app_cons, str_app_nil_l, !prefix_cons.
  destruct (ascii_dec " " " "); [|done]. destruct (ascii_dec "|" "|"); [|done].
  by destruct t.
Qed.

Lemma count_sep_app a t :
  has_char bar a = false ->
  count_from " | " 0 (a +:+ " | " +:+ t) = S (count_from " | " 0 t).
Proof.
  induction a as [|c a IH]; intros H.
  - rewrite str_app_nil_l. pose proof (prefix_sep_true t) as Hp.
    rewrite !str_app_cons, str_app_nil_l in *.
    rewrite count_from_cons, Hp. reflexivity.
  - rewrite str_app_cons, count_from_cons, (prefix_sep_false c a t H).
    apply IH. simpl in H. by apply orb_false_iff in H as [_ ?].
Qed.

Lemma split_on_none c s : has_char c s = false -> split_on c s = [s].
Proof.
  induction s as [|a s IH]; [done|]. simpl. intros H.
  apply orb_false_iff in H as [Ha Hs]. by rewrite Ha, (IH Hs).
Qed.

Lemma split_on_app c s t :
  has_char c s = false ->
  split_on c (s +:+ String c t) = s :: split_on c t.
Proof.
  induction s as [|a s IH]; intros H.
  - rewrite str_app_nil_l. simpl. by rewrite Ascii.eqb_refl.
  - simpl in H. apply orb_false_iff in H as [Ha Hs].
    rewrite str_app_cons. simpl. by rewrite Ha, (IH Hs).
Qed.

Lemma lines_of_join (lines : list string) :
  lines <> [] -> Forall (fun l => has_char newline l = false) lines ->
  lines_of (join nl lines) = lines.
Proof.
  intros Hne Hall. unfold lines_of.
  induction Hall as [|l ls Hl Hls IH]; [done|].
  destruct ls as [|l' ls].
  - by apply split_on_none.
  - rewrite join_cons2. unfold nl at 1. rewrite str_app_cons, str_app_nil_l.
    rewrite (split_on_app _ _ _ Hl). f_equal. by apply IH.
Qed.

Lemma join_visible sep (l : list string) z :
  last l = Some z -> has_visible z = true -> has_visible (join sep l) = true.
Proof.
  intros Hlast Hz. induction l as [|s l IH]; [done|].
  destruct l as [|s' l'].
  - simpl in *. congruence.
  - rewrite join_cons2, !has_visible_app. rewrite IH; [|done].
    by rewrite !orb_true_r.
Qed.

(** After [rstrip], a joined row whose cells hold no bar and whose last cell
    is visible still has one separator between two cells. *)
Lemma count_rstrip_join (l : list string) z :
  Forall (fun s => has_char bar s = false) l ->
  last l = Some z -> has_visible z = true ->
  count " | " (rstrip (join " | " l)) = length l - 1.
Proof.
  intros Hall. revert z. induction Hall as [|s l Hs Hl IH]; intros z Hlast Hz; [done|].
  destruct l as [|s' l'].
  - simpl. apply count_no_bar. by apply has_char_rstrip.
  - rewrite join_cons2.
    assert (Hv : has_visible (join " | " (s' :: l')) = true)
      by (by apply (join_visible _ _ z)).
    rewrite rstrip_app by (by rewrite has_visible_app, Hv, orb_true_r).
    rewrite rstrip_app by done.
    unfold count in *. rewrite (count_sep_app _ _ Hs).
    rewrite (IH z Hlast Hz). simpl. lia.
Qed.

(** A rendered row has one separator between two cells, when no cell holds
    a bar and the two outer cells are visible. *)
Lemma count_strip_join (l : list string) :
  Forall (fun s => has_char bar s = false) l -> ends_visible l ->
  count " | " (strip (join " | " l)) = length l - 1.
Proof.
  intros Hall Hends. destruct l as [|s [|s' l']].
  - reflexivity.
  - simpl. apply Forall_cons in Hall as [Hs _].
    apply count_no_bar. by apply has_char_strip.
  - destruct Hends as (Hs & z & Hlast & Hz).
    apply Forall_cons in Hall as [Hbar Hall].
    unfold strip. rewrite join_cons2, (lstrip_app _ _ Hs).
    assert (Hv : has_visible (join " | " (s' :: l')) = true)
      by (by apply (join_visible _ _ z)).
    rewrite rstrip_app by (by rewrite has_visible_app, Hv, orb_true_r).
    rewrite rstrip_app by done.
    unfold count. rewrite count_sep_app by (by apply has_char_lstrip).
    pose proof (count_rstrip_join (s' :: l') z Hall Hlast Hz) as Hc.
    unfold count in Hc. rewrite Hc. simpl. lia.
Qed.

(** ** The shape of a table of sequence rows *)

Lemma length_table_widths (row0 : list string) rest :
  length (table_widths (row0 :: rest)) = length row0.
Proof. unfold table_widths. by rewrite length_fmap, length_seq. Qed.

Lemma last_zip_ljust (r : list string) (widths : list nat) z :
  length widths = length r -> last r = Some z ->
  exists w, last (zip_with ljust r widths) = Some (ljust z w).
Proof.
  revert widths. induction r as [|c r IH]; intros [|w widths] Hlen Hlast; try done.
  destruct r as [|c' r'].
  - injection Hlast as ->. destruct widths; [|done]. by exists w.
  - destruct widths as [|w' widths']; [done|].
    destruct (IH (w' :: widths')) as [wz Hwz]; [simpl in *; lia|done|].
    exists wz. exact Hwz.
Qed.

Lemma padded_plain (r : list string) (widths : list nat) c :
  c <> " "%char -> Forall (fun s => has_char c s = false) r ->
  Forall (fun s => has_char c s = false) (zip_with ljust r widths).
Proof.
  intros Hc Hr. revert widths. induction Hr as [|s r Hs _ IH]; intros [|w widths];
    try constructor; auto using has_char_ljust.
Qed.

Lemma padded_ends_visible (r : list string) (widths : list nat) :
  length widths = length r -> ends_visible r ->
  ends_visible (zip_with ljust r widths).
Proof.
  intros Hlen Hends. destruct r as [|c [|c' r']]; [done|by destruct widths|].
  destruct widths as [|w [|w' widths']]; [done..|].
  destruct Hends as (Hc & z & Hlast & Hz).
  destruct (last_zip_ljust (c' :: r') (w' :: widths') z) as [wz Hwz];
    [simpl in *; lia|done|].
  split; [by apply has_visible_ljust|].
  exists (ljust z wz). split; [exact Hwz|by apply has_visible_ljust].
Qed.

Lemma length_zip_ljust (r : list string) (widths : list nat) :
  length widths = length r -> length (zip_with ljust r widths) = length r.
Proof. intros H. rewrite length_zip_with. lia. Qed.

(** A row of plain cells with visible ends is rendered on one line, with
    one separator between two cells. *)
Lemma render_line_shape (widths : list nat) (r : list string) :
  length widths = length r -> Forall plain r -> ends_visible r ->
  count " | " (render_line widths r) = length r - 1
  /\ has_char newline (render_line widths r) = false
  /\ has_char newline (str_mul "-" (String.length (render_line widths r))) = false
  /\ count " | " (str_mul "-" (String.length (render_line widths r))) = 0.
Proof.
  intros Hlen Hplain Hends. unfold render_line.
  assert (Hbar : Forall (fun s => has_char bar s = false) r).
  { eapply Forall_impl; [exact Hplain|]. by intros s [? ?]. }
  assert (Hnl : Forall (fun s => has_char newline s = false) r).
  { eapply Forall_impl; [exact Hplain|]. by intros s [? ?]. }
  split; [|split; [|split]].
  - rewrite count_strip_join.
    + by rewrite length_zip_ljust.
    + by apply padded_plain.
    + by apply padded_ends_visible.
  - apply has_char_strip, has_char_join; [done|]. by apply padded_plain.
  - by apply has_char_str_mul.
  - apply count_no_bar. by apply has_char_str_mul.
Qed.

Lemma table_lines_shape (table : list (list string)) (row0 : list string) rest n :
  table = row0 :: rest ->
  Forall (fun r => length r = n) table ->
  Forall (fun r => Forall plain r /\ ends_visible r) table ->
  Forall (fun line => count " | " line = n - 1 /\ has_char newline line = false)
    (render_line (table_widths table) <$> table).
Proof.
  intros Ht Hlen Hplain.
  assert (Hw : length (table_widths table) = n).
  { rewrite Ht, length_table_widths. rewrite Ht in Hlen.
    by apply Forall_cons in Hlen as [? _]. }
  apply Forall_fmap, Forall_forall. intros r Hr.
  rewrite Forall_forall in Hlen, Hplain.
  destruct (Hplain r Hr) as [Hp He]. specialize (Hlen r Hr).
  destruct (render_line_shape (table_widths table) r) as (Hc & Hn & _); try done.
  - congruence.
  - simpl. split; [congruence|done].
Qed.

Lemma with_dash_nil lines : with_dash [] lines = lines.
Proof. reflexivity. Qed.

Lemma str_rows_cells rt hdr (cellss : list (list value)) :
  str_rows (State rt hdr (Cells <$> cellss)) = (fun c : list value => str <$> c) <$> cellss.
Proof. unfold str_rows. simpl. by rewrite <- list_fmap_compose. Qed.

(** C2 as stated fails: a header adds two lines, the dash line has no
    separator, and a blank outer cell loses its separator to [strip]. *)
Lemma header_adds_two_lines_counterexample :
  pretty_table [RowSeq [VStr "a"; VStr "b"]] (Some (AList ["x"; "y"]))
  = Ok ("x | y" +:+ nl +:+ "-----" +:+ nl +:+ "a | b")
  /\ length (lines_of ("x | y" +:+ nl +:+ "-----" +:+ nl +:+ "a | b")) = 3
  /\ count " | " "-----" = 0
  /\ pretty_table [RowSeq [VStr "a"; VStr EmptyString]] None = Ok "a |"
  /\ count " | " "a |" = 0.
Proof. repeat split; vm_compute; reflexivity. Qed.

(** C2, amended. Let every row be a sequence of [L] cells whose texts hold
    neither a bar nor a newline and, when [L] is 2 or more, begin and end
    with a cell that is not blank. Without a header and with at least one
    row the result has one line per row; with a header of [L] such names it
    has two lines more, the header line and the dash line under it. Every
    line except the dash line holds the separator exactly [L - 1] times; the
    dash line holds none. *)
Theorem sequence_table_lines (cellss : list (list value)) (L : nat) :
  Forall (fun cells => length cells = L) cellss ->
  Forall (fun cells => Forall plain (str <$> cells) /\ ends_visible (str <$> cells))
    cellss ->
  (cellss <> [] ->
   exists out,
     pretty_table (RowSeq <$> cellss) None = Ok out
     /\ length (lines_of out) = length cellss
     /\ Forall (fun line => count " | " line = L - 1) (lines_of out))
  /\ (forall a,
        let names := ensure_list_if_string a in
        names <> [] -> length names = L -> Forall plain names -> ends_visible names ->
        exists out header_line body,
          pretty_table (RowSeq <$> cellss) (Some a) = Ok out
          /\ lines_of out
             = header_line :: str_mul "-" (String.length header_line) :: body
          /\ length (lines_of out) = length cellss + 2
          /\ length body = length cellss
          /\ count " | " header_line = L - 1
          /\ Forall (fun line => count " | " line = L - 1) body
          /\ count " | " (str_mul "-" (String.length header_line)) = 0).
Proof.
  intros Hlen Hplain.
  assert (Htable : Forall (fun r => length r = L) ((fun c : list value => str <$> c) <$> cellss)).
  { apply Forall_fmap. eapply Forall_impl; [exact Hlen|].
    intros c Hc. simpl. by rewrite length_fmap. }
  assert (Hcells : Forall (fun r => Forall plain r /\ ends_visible r)
                     ((fun c : list value => str <$> c) <$> cellss)).
  { apply Forall_fmap. eapply Forall_impl; [exact Hplain|]. by intros c Hc. }
  split.
  - intros Hne. destruct cellss as [|c0 cs]; [done|].
    set (table := (fun c : list value => str <$> c) <$> (c0 :: cs)) in *.
    assert (Hc0 : length c0 = L) by (by apply Forall_cons in Hlen as [? _]).
    assert (Hrun : process_rows (RowSeq <$> c0 :: cs) (initial_state None)
                   = Ok (State (RTKind sequence) [] (Cells <$> c0 :: cs))).
    { apply (no_header_seqs_run None c0 cs eq_refl).
      apply Forall_cons in Hlen as [_ Hcs].
      eapply Forall_impl; [exact Hcs|]. intros c Hc. simpl in *. congruence. }
    pose proof (table_lines_shape table _ _ L eq_refl Htable Hcells) as Hshape.
    exists (layout [] table). split; [|split].
    + unfold pretty_table. rewrite Hrun, bind_Ok.
      erewrite render_rect; rewrite ?str_rows_cells; [done|reflexivity|].
      eapply Forall_impl; [exact Htable|]. intros r Hr. simpl in *.
      rewrite length_fmap. congruence.
    + unfold layout. rewrite with_dash_nil, lines_of_join.
      * unfold table. by rewrite !length_fmap.
      * unfold table. by rewrite !fmap_cons.
      * eapply Forall_impl; [exact Hshape|]. by intros l [_ ?].
    + unfold layout. rewrite with_dash_nil, lines_of_join.
      * eapply Forall_impl; [exact Hshape|]. by intros l [? _].
      * unfold table. by rewrite !fmap_cons.
      * eapply Forall_impl; [exact Hshape|]. by intros l [_ ?].
  - intros a names Hne Hnames Hnplain Hnends.
    pose proof (names_truthy a Hne) as Ha.
    set (body_table := (fun c : list value => str <$> c) <$> cellss) in *.
    set (table := names :: body_table).
    assert (Hfit : Forall (fits names) (RowSeq <$> cellss)).
    { apply Forall_fmap. eapply Forall_impl; [exact Hlen|].
      intros c Hc. simpl in *. congruence. }
    assert (Hnorm : (fun r => str <$> normalize names r) <$> (RowSeq <$> cellss)
                    = body_table).
    { unfold body_table. by rewrite <- list_fmap_compose. }
    assert (Hrect : Forall (fun r => length r = L) table) by (by constructor).
    assert (Hall : Forall (fun r => Forall plain r /\ ends_visible r) table)
      by (by constructor).
    pose proof (table_lines_shape table names body_table L eq_refl Hrect Hall) as Hshape.
    change (render_line (table_widths table) <$> table)
      with (render_line (table_widths table) names
            :: (render_line (table_widths table) <$> body_table)) in Hshape.
    apply Forall_cons in Hshape as [[Hcount Hnl] Hbody].
    set (header_line := render_line (table_widths table) names) in *.
    set (body := render_line (table_widths table) <$> body_table) in *.
    set (dash := str_mul "-" (String.length header_line)).
    assert (Hout : pretty_table (RowSeq <$> cellss) (Some a)
                   = Ok (join nl (header_line :: dash :: body))).
    { unfold pretty_table. rewrite (header_run a _ Ha Hne Hfit), bind_Ok.
      fold names.
      rewrite (render_rect _ names
                 ((fun r => str <$> normalize names r) <$> (RowSeq <$> cellss)));
        rewrite ?str_rows_header_first; [|done|by apply header_table_rect].
      unfold layout. cbn [header]. rewrite Hnorm. fold table.
      change (render_line (table_widths table) <$> table) with (header_line :: body).
      by rewrite (with_dash_cons _ _ _ Hne). }
    assert (Hlines : lines_of (join nl (header_line :: dash :: body))
                     = header_line :: dash :: body).
    { apply lines_of_join; [done|]. constructor; [done|]. constructor.
      - by apply has_char_str_mul.
      - eapply Forall_impl; [exact Hbody|]. by intros l [_ ?]. }
    assert (Hblen : length body = length cellss).
    { unfold body, body_table. by rewrite !length_fmap. }
    exists (join nl (header_line :: dash :: body)), header_line, body.
    split; [done|]. split; [done|]. rewrite Hlines. split; [simpl; lia|].
    split; [done|]. split; [done|]. split.
    + eapply Forall_impl; [exact Hbody|]. by intros l [? _].
    + apply count_no_bar. by apply has_char_str_mul.
Qed.

Lemma sequence_table_lines_witness :
  (exists out,
     pretty_table (RowSeq <$> example_cells) None = Ok out
     /\ length (lines_of out) = 2
     /\ Forall (fun line => count " | " line = 3) (lines_of out))
  /\ (exists out,
        pretty_table (RowSeq <$> example_cells) (Some (AStr "col1 col2 col3 col4")) = Ok out
        /\ length (lines_of out) = 4).
Proof.
  assert (Hlen : Forall (fun cells => length cells = 4) example_cells)
    by (repeat constructor).
  assert (Hplain : Forall (fun cells => Forall plain (str <$> cells)
                                        /\ ends_visible (str <$> cells)) example_cells).
  { repeat constructor; vm_compute; eauto. }
  destruct (sequence_table_lines example_cells 4 Hlen Hplain) as [Hnone Hheader].
  split.
  - destruct Hnone as (out & Hout & Hlines & Hcount); [discriminate|].
    exists out. done.
  - destruct (Hheader (AStr "col1 col2 col3 col4"))
      as (out & header_line & body & Hout & _ & Hlines & _).
    + discriminate.
    + reflexivity.
    + repeat constructor.
    + vm_compute. eauto.
    + exists out. done.
Defined.

(** ** What the loop leaves in [rows2] *)

Lemma well_formed_initial h : well_formed (initial_state h).
Proof.
  unfold initial_state, well_formed. destruct h as [a|]; [|done].
  destruct (truthy (Some a)); simpl; [|done].
  split; [eauto|]. by repeat constructor.
Qed.

Lemma entry_ok_dict d hdr : entry_ok hdr (Cells (dict_cells d hdr)).
Proof. left. apply length_dict_cells. Qed.

Lemma entry_ok_rehead hdr e : entry_ok [] e -> entry_ok hdr e.
Proof. destruct e as [|c]; [done|]. intros [Hc| ->]; right; [by destruct c|done]. Qed.

Lemma dict_step d st st' :
  (header st = [] /\ rows2 st = []) \/ header_first st ->
  (header st <> [] /\ header st' = header st
   /\ rows2 st' = rows2 st ++ [Cells (dict_cells d (header st))])
  \/ (header st = [] /\ header st' = sorted (keys d)
      /\ rows2 st' = TheHeader :: rows2 st ++ [Cells (dict_cells d (sorted (keys d)))]) ->
  header_first st'.
Proof.
  unfold header_first.
  intros Hst [(Hne & Hh' & Hrs')|(Hnil & Hh' & Hrs')]; rewrite Hrs', Hh'.
  - destruct Hst as [[Hh _]|[[es Hrs] Hall]]; [done|]. split.
    + rewrite Hrs. eauto.
    + apply Forall_app. split; [done|]. constructor; [|done]. apply entry_ok_dict.
  - split; [eauto|]. constructor; [done|]. apply Forall_app. split.
    + destruct Hst as [[_ ->]|[_ Hall]]; [done|].
      eapply Forall_impl; [exact Hall|]. intros e. rewrite Hnil.
      apply entry_ok_rehead.
    + constructor; [|done]. apply entry_ok_dict.
Qed.

Lemma well_formed_step r st st' :
  well_formed st -> process_row r st = Ok st' -> well_formed st'.
Proof.
  unfold well_formed. intros Hwf H.
  apply process_row_Ok_inv in H as (Ha & Hrt & Hr). rewrite Hrt.
  destruct (row_type st) as [| |[|]] eqn:Hrt0; cbn [accept].
  - (* nothing stored yet *)
    destruct r as [cells|d|d]; cbn [kind_of].
    + destruct Hwf as [Hh Hrs]. destruct Hr as (Hh' & Hrs' & _).
      split; [congruence|]. exists cells, []. rewrite Hrs', Hrs. by split.
    + destruct Hr as [_ Hr]. apply (dict_step d st); [by left|done].
    + destruct Hr as [_ Hr]. apply (dict_step d st); [by left|done].
  - (* under any kind of row *)
    destruct r as [cells|d|d].
    + destruct Hwf as [[es Hrs] Hall]. destruct Hr as (Hh' & Hrs' & Hlen).
      unfold header_first. rewrite Hrs', Hh'. split.
      * rewrite Hrs. eauto.
      * apply Forall_app. split; [done|]. constructor; [|done]. left.
        rewrite (Hlen _ _ Hrs). simpl. by rewrite length_fmap.
    + destruct Hr as [_ Hr]. apply (dict_step d st); [by right|done].
    + destruct Hr as [_ Hr]. apply (dict_step d st); [by right|done].
  - (* sequence rows only *)
    apply accepts_kind in Ha. destruct r as [cells|d|d]; [|discriminate..].
    destruct Hwf as (Hh & c0 & cs & Hrs & Hall).
    destruct Hr as (Hh' & Hrs' & Hlen). split; [congruence|].
    exists c0, (cs ++ [cells]). split.
    + rewrite Hrs', Hrs, fmap_app. done.
    + apply Forall_app. split; [done|]. constructor; [|done].
      by rewrite (Hlen _ _ Hrs).
  - (* mapping rows only *)
    apply accepts_kind in Ha. destruct r as [cells|d|d]; [discriminate|..].
    + destruct Hr as [_ Hr]. apply (dict_step d st); [by right|done].
    + destruct Hr as [_ Hr]. apply (dict_step d st); [by right|done].
Qed.

Lemma well_formed_run rows st st' :
  well_formed st -> process_rows rows st = Ok st' -> well_formed st'.
Proof.
  revert st. induction rows as [|r rows IH]; intros st Hwf H.
  - by injection H as <-.
  - rewrite process_rows_cons in H. apply bind_Ok_inv in H as (st1 & H1 & H).
    eauto using well_formed_step.
Qed.

(** ** The table of a successful call *)

Lemma mapM_Ok_elem {A B} (f : A -> result B) (l : list A) (k : list B) x :
  mapM f l = Ok k -> x ∈ l -> exists y, f x = Ok y.
Proof.
  intros H Hx. apply mapM_Ok_inv in H. revert x Hx.
  induction H as [|a b l' k' Hab _ IH]; intros x Hx.
  - by apply elem_of_nil in Hx.
  - apply elem_of_cons in Hx as [->|Hx]; eauto.
Qed.

Lemma render_Ok_inv st out :
  render st = Ok out ->
  exists row0 rest,
    str_rows st = row0 :: rest
    /\ Forall (fun r => length row0 <= length r) (str_rows st).
Proof.
  unfold render. intros H.
  apply bind_Ok_inv in H as (row0 & Hrow0 & H).
  apply bind_Ok_inv in H as (widths & Hwidths & _).
  unfold list_get in Hrow0.
  destruct (str_rows st) as [|r0 rest] eqn:Hrows; [discriminate|].
  simpl in Hrow0. injection Hrow0 as ->. exists row0, rest. split; [done|].
  destruct (length row0) as [|n] eqn:Hn.
  { apply Forall_forall. intros; lia. }
  destruct (mapM_Ok_elem _ _ _ n Hwidths) as [w Hw].
  { apply elem_of_seq. lia. }
  unfold column_width in Hw. apply bind_Ok_inv in Hw as (lens & Hlens & _).
  apply Forall_forall. intros r Hr.
  destruct (mapM_Ok_elem _ _ _ r Hlens Hr) as [len Hlen].
  unfold list_get in Hlen. destruct (r !! n) as [c|] eqn:Hc; [|discriminate].
  apply lookup_lt_Some in Hc. lia.
Qed.

Lemma header_first_rect st row0 rest :
  header_first st -> str_rows st = row0 :: rest ->
  Forall (fun r => length row0 <= length r) (str_rows st) ->
  Forall (fun r => length r = length row0) (str_rows st).
Proof.
  intros [[es Hrs] Hall] Hrows Hge.
  assert (Hrow0 : length row0 = length (header st)).
  { unfold str_rows in Hrows. rewrite Hrs in Hrows. injection Hrows as <- _.
    simpl. by rewrite !length_fmap. }
  rewrite Forall_forall in Hall. rewrite Forall_forall in Hge.
  apply Forall_forall. intros r Hr.
  specialize (Hge r Hr). unfold str_rows in Hr.
  apply list_elem_of_fmap in Hr as (e & -> & He). specialize (Hall e He).
  rewrite length_fmap in Hge |- *. destruct e as [|c]; simpl in *.
  - by rewrite length_fmap.
  - destruct Hall as [Hc| ->]; [congruence|]. simpl in *. lia.
Qed.

(** After a successful call all rows of the table have one length. *)
Lemma success_rect st out :
  well_formed st -> render st = Ok out ->
  exists row0 rest,
    str_rows st = row0 :: rest
    /\ Forall (fun r => length r = length row0) (str_rows st).
Proof.
  intros Hwf H. destruct (render_Ok_inv st out H) as (row0 & rest & Hrows & Hge).
  exists row0, rest. split; [done|].
  unfold well_formed in Hwf.
  destruct (row_type st) as [| |[|]].
  - destruct Hwf as [_ Hrs]. unfold str_rows in Hrows. rewrite Hrs in Hrows.
    discriminate.
  - by apply (header_first_rect st row0 rest).
  - destruct Hwf as (Hh & c0 & cs & Hrs & Hall). unfold str_rows in *.
    rewrite Hrs in Hrows |- *. injection Hrows as <- _.
    constructor; [done|].
    apply Forall_forall. intros r Hr.
    apply list_elem_of_fmap in Hr as (e & -> & He).
    apply list_elem_of_fmap in He as (c & -> & Hc).
    rewrite Forall_forall in Hall. simpl. rewrite !length_fmap. auto.
  - by apply (header_first_rect st row0 rest).
Qed.

Lemma foldl_max_spec (x : nat) (l : list nat) :
  x <= foldl Nat.max x l
  /\ Forall (fun y => y <= foldl Nat.max x l) l
  /\ (foldl Nat.max x l = x \/ foldl Nat.max x l ∈ l).
Proof.
  revert x. induction l as [|y l IH]; intros x; simpl.
  - split; [lia|]. split; [constructor|by left].
  - destruct (IH (Nat.max x y)) as (Hx & Hall & Hin).
    split; [lia|]. split; [constructor; [lia|done]|].
    destruct Hin as [Heq|Hin]; [|right; by right].
    rewrite Heq. destruct (Nat.max_spec x y) as [[_ ->]|[_ ->]].
    + right. left.
    + by left.
Qed.

Lemma column_max_spec (table : list (list string)) (i : nat) :
  table <> [] -> Forall (fun r => i < length r) table ->
  (forall r, r ∈ table ->
     exists c, r !! i = Some c /\ String.length c <= column_max table i)
  /\ (exists r c, r ∈ table /\ r !! i = Some c
                  /\ String.length c = column_max table i).
Proof.
  intros Hne Hall. destruct table as [|r0 rest]; [done|]. clear Hne.
  unfold column_max. set (f := fun r => String.length (nth i r EmptyString)).
  rewrite fmap_cons.
  destruct (foldl_max_spec (f r0) (f <$> rest)) as (Hx & Hle & Hin).
  set (m := foldl Nat.max (f r0) (f <$> rest)) in *.
  assert (Hcell : forall r, r ∈ r0 :: rest ->
                            exists c, r !! i = Some c /\ String.length c = f r).
  { intros r Hr. rewrite Forall_forall in Hall. specialize (Hall r Hr).
    apply lookup_lt_is_Some_2 in Hall as [c Hc]. exists c. split; [done|].
    unfold f. by rewrite (nth_lookup_Some _ _ EmptyString _ Hc). }
  split.
  - intros r Hr. destruct (Hcell r Hr) as (c & Hc & Hlen). exists c.
    split; [done|]. rewrite Hlen.
    apply elem_of_cons in Hr as [->|Hr]; [done|].
    rewrite Forall_forall in Hle. apply Hle. by apply list_elem_of_fmap_2.
  - destruct Hin as [Heq|Hin].
    + destruct (Hcell r0) as (c & Hc & Hlen); [left|].
      exists r0, c. split; [left|]. split; [done|]. congruence.
    + apply list_elem_of_fmap in Hin as (r & Hm & Hr).
      destruct (Hcell r) as (c & Hc & Hlen); [by right|].
      exists r, c. split; [by right|]. split; [done|]. congruence.
Qed.

(** ** Rendering *)

(** C7 as stated fails: a blank cell at the start of a line is trimmed away
    with the padding, so the line is not the padded cells with only the
    trailing whitespace removed. *)
Lemma leading_blank_is_trimmed_counterexample :
  pretty_table [RowSeq [VStr EmptyString; VStr "x"]; RowSeq [VStr "ab"; VStr "y"]] None
  = Ok ("| x" +:+ nl +:+ "ab | y")
  /\ layout_trailing [] [[EmptyString; "x"]; ["ab"; "y"]]
     = "   | x" +:+ nl +:+ "ab | y"
  /\ pretty_table [RowSeq [VStr EmptyString; VStr "x"]; RowSeq [VStr "ab"; VStr "y"]] None
     <> Ok (layout_trailing [] [[EmptyString; "x"]; ["ab"; "y"]]).
Proof. split; [|split]; [vm_compute; reflexivity..|vm_compute; discriminate]. Qed.

(** C7, amended. In every successful call the table is the list [rows2]
    with every cell converted by [str]; its rows have one length; the width
    of a column is the greatest length of a cell of that column, the header
    included; a row is rendered as its cells padded to the column widths,
    joined by the separator and stripped of whitespace at both ends; when the
    header is not empty a line of dashes as long as the first rendered line
    follows that line; and the result is the lines joined by newlines. *)
Theorem pretty_table_rendering (rows : list row) (h : option str_or_list) (out : string) :
  pretty_table rows h = Ok out ->
  exists st n,
    process_rows rows (initial_state h) = Ok st
    /\ let table := (fun e => str <$> entry_cells (header st) e) <$> rows2 st in
       let widths := table_widths table in
       table <> [] /\ Forall (fun r => length r = n) table /\ length widths = n
       /\ (forall i w, widths !! i = Some w ->
             (forall r, r ∈ table ->
                exists c, r !! i = Some c /\ String.length c <= w)
             /\ (exists r c, r ∈ table /\ r !! i = Some c /\ String.length c = w))
       /\ out = join nl (with_dash (header st)
                  ((fun r => strip (join " | " (zip_with ljust r widths))) <$> table))
       /\ (header st = [] -> forall lines, with_dash (header st) lines = lines)
       /\ (header st <> [] -> forall line0 ls,
             with_dash (header st) (line0 :: ls)
             = line0 :: str_mul "-" (String.length line0) :: ls)
       /\ (forall s w,
             ljust s w = s +:+ str_mul " " (w - String.length s)
             /\ String.length (ljust s w) = Nat.max (String.length s) w)
       /\ (forall s,
             (exists a b, s = a +:+ strip s +:+ b
                          /\ has_visible a = false /\ has_visible b = false)
             /\ lstrip (strip s) = strip s /\ rstrip (strip s) = strip s).
Proof.
  unfold pretty_table. intros H. apply bind_Ok_inv in H as (st & Hst & Hout).
  pose proof (well_formed_run rows _ st (well_formed_initial h) Hst) as Hwf.
  destruct (success_rect st out Hwf Hout) as (row0 & rest & Hrows & Hrect).
  rewrite (render_rect st row0 rest Hrows Hrect) in Hout. injection Hout as <-.
  exists st, (length row0). split; [done|].
  cbv zeta. fold (str_rows st). rewrite Hrows in *.
  split; [done|]. split; [done|].
  split; [apply length_table_widths|].
  split; [|split; [done|split; [|split; [|split]]]].
  - intros i w Hw. unfold table_widths in Hw.
    rewrite list_lookup_fmap in Hw.
    destruct (seq 0 (length row0) !! i) as [j|] eqn:Hj; [|discriminate].
    apply lookup_seq in Hj as [-> Hi]. simpl in Hw. injection Hw as <-.
    apply column_max_spec; [done|].
    eapply Forall_impl; [exact Hrect|]. intros r Hr. simpl in *. lia.
  - intros ->. reflexivity.
  - intros Hne line0 ls. by apply with_dash_cons.
  - intros s w. split; [reflexivity|]. unfold ljust.
    rewrite str_length_app, length_str_mul. lia.
  - apply strip_spec.
Qed.

Lemma pretty_table_rendering_witness :
  pretty_table (RowSeq <$> example_cells) None
  = Ok ("a     | hello | c | 1" +:+ nl +:+ "world | b     | d | 2")
  /\ exists st n,
       process_rows (RowSeq <$> example_cells) (initial_state None) = Ok st
       /\ length (table_widths ((fun e => str <$> entry_cells (header st) e) <$> rows2 st))
          = n.
Proof.
  assert (H : pretty_table (RowSeq <$> example_cells) None
              = Ok ("a     | hello | c | 1" +:+ nl +:+ "world | b     | d | 2"))
    by reflexivity.
  split; [exact H|].
  destruct (pretty_table_rendering _ _ _ H) as (st & n & Hst & _ & _ & Hn & _).
  exists st, n. split; [exact Hst|exact Hn].
Defined.

(** ** Conversion to floating point *)

Lemma round_half_even_close (n d : Z) :
  (0 < d)%Z -> (2 * Z.abs (round_half_even n d * d - n) <= d)%Z.
Proof.
  intros Hd. unfold round_half_even.
  pose proof (Z.div_mod n d ltac:(lia)) as Hdm.
  pose proof (Z.mod_pos_bound n d Hd) as Hr.
  destruct (Z.ltb_spec (2 * (n mod d)) d); [nia|].
  destruct (Z.ltb_spec d (2 * (n mod d))); [nia|].
  destruct (Z.even (n / d)); nia.
Qed.

Lemma scaled_pos p q e : (0 < fst (scaled p q e) /\ 0 < snd (scaled p q e))%Z.
Proof.
  unfold scaled. destruct (Z.ltb_spec e 0); simpl.
  - split; [|lia]. apply Z.mul_pos_pos; [lia|]. apply Z.pow_pos_nonneg; lia.
  - split; [lia|]. apply Z.mul_pos_pos; [lia|]. apply Z.pow_pos_nonneg; lia.
Qed.

(** [ilog2_ratio p q] is the exponent of the power of two at or just below
    [p / q]. *)
Lemma ilog2_ratio_spec p q :
  (snd (scaled p q (ilog2_ratio p q)) <= fst (scaled p q (ilog2_ratio p q))
   < 2 * snd (scaled p q (ilog2_ratio p q)))%Z.
Proof.
  unfold ilog2_ratio.
  set (a := Z.log2 (Z.pos p)). set (b := Z.log2 (Z.pos q)).
  pose proof (Z.log2_spec (Z.pos p) ltac:(lia)) as Ha. fold a in Ha.
  pose proof (Z.log2_spec (Z.pos q) ltac:(lia)) as Hb. fold b in Hb.
  pose proof (Z.log2_nonneg (Z.pos p)) as Ha0. fold a in Ha0.
  pose proof (Z.log2_nonneg (Z.pos q)) as Hb0. fold b in Hb0.
  rewrite !Z.pow_succ_r in Ha, Hb by lia.
  assert (Hpa : (0 < 2 ^ a)%Z) by (apply Z.pow_pos_nonneg; lia).
  assert (Hpb : (0 < 2 ^ b)%Z) by (apply Z.pow_pos_nonneg; lia).
  destruct (scaled p q (a - b)) as [n d] eqn:Hs.
  unfold scaled in Hs. unfold scaled.
  destruct (Z.ltb_spec (a - b) 0) as [Hk|Hk]; injection Hs as <- <-.
  - (* a < b *)
    assert (Hab : (2 ^ b = 2 ^ a * 2 ^ (- (a - b)))%Z).
    { rewrite <- Z.pow_add_r by lia. f_equal. lia. }
    assert (Hpk : (0 < 2 ^ (- (a - b)))%Z) by (apply Z.pow_pos_nonneg; lia).
    destruct (Z.leb_spec (Z.pos q) (Z.pos p * 2 ^ (- (a - b)))) as [Ht|Ht].
    + rewrite (proj2 (Z.ltb_lt _ _) Hk). simpl. nia.
    + assert (Hk1 : (a - b - 1 < 0)%Z) by lia.
      rewrite (proj2 (Z.ltb_lt _ _) Hk1). simpl.
      replace (- (a - b - 1))%Z with (Z.succ (- (a - b))) by lia.
      rewrite Z.pow_succ_r by lia. nia.
  - (* b <= a *)
    assert (Hab : (2 ^ a = 2 ^ b * 2 ^ (a - b))%Z).
    { rewrite <- Z.pow_add_r by lia. f_equal. lia. }
    assert (Hpk : (0 < 2 ^ (a - b))%Z) by (apply Z.pow_pos_nonneg; lia).
    destruct (Z.leb_spec (Z.pos q * 2 ^ (a - b)) (Z.pos p)) as [Ht|Ht].
    + rewrite (proj2 (Z.ltb_ge _ _) Hk). simpl. nia.
    + destruct (Z.ltb_spec (a - b - 1) 0) as [Hk1|Hk1]; simpl.
      * assert (a - b = 0)%Z as Hz by lia. rewrite Hz in *.
        replace (- (0 - 1))%Z with 1%Z by lia. simpl in *. nia.
      * assert (Hsucc : (2 ^ (a - b) = 2 * 2 ^ (a - b - 1))%Z).
        { rewrite <- Z.pow_succ_r by lia. f_equal. lia. }
        assert (Hpk1 : (0 < 2 ^ (a - b - 1))%Z) by (apply Z.pow_pos_nonneg; lia).
        nia.
Qed.

(** The same ratio counted in two units: [n1/d1 = 2^(e2 - e1) * n2/d2]. *)
Lemma scaled_ratio p q e1 e2 :
  (e1 <= e2)%Z ->
  (fst (scaled p q e1) * snd (scaled p q e2)
   = 2 ^ (e2 - e1) * fst (scaled p q e2) * snd (scaled p q e1))%Z.
Proof.
  intros Hle. unfold scaled.
  destruct (Z.ltb_spec e1 0) as [H1|H1], (Z.ltb_spec e2 0) as [H2|H2]; simpl.
  - replace (- e1)%Z with ((e2 - e1) + - e2)%Z by lia.
    rewrite Z.pow_add_r by lia. ring.
  - replace (e2 - e1)%Z with (e2 + - e1)%Z by lia.
    rewrite Z.pow_add_r by lia. ring.
  - lia.
  - replace e2 with ((e2 - e1) + e1)%Z at 1 by lia.
    rewrite Z.pow_add_r by lia. ring.
Qed.

Lemma scaled_below_2_53 p q :
  (fst (scaled p q (ulp_exponent p q)) < 2 ^ 53 * snd (scaled p q (ulp_exponent p q)))%Z.
Proof.
  pose proof (ilog2_ratio_spec p q) as [_ Hk].
  set (k := ilog2_ratio p q) in *. unfold ulp_exponent. fold k.
  set (e0 := Z.max (k - 52) (-1074)).
  destruct (scaled_pos p q k) as [Hnk Hdk].
  destruct (scaled_pos p q e0) as [Hn0 Hd0].
  set (nk := fst (scaled p q k)) in *. set (dk := snd (scaled p q k)) in *.
  set (n0 := fst (scaled p q e0)) in *. set (d0 := snd (scaled p q e0)) in *.
  destruct (Z.le_gt_cases e0 k) as [Hle|Hgt].
  - pose proof (scaled_ratio p q e0 k Hle) as Hr.
    fold nk dk n0 d0 in Hr.
    assert (Hpow : (0 < 2 ^ (k - e0) /\ 2 * 2 ^ (k - e0) <= 2 ^ 53)%Z).
    { split; [apply Z.pow_pos_nonneg; lia|].
      rewrite <- Z.pow_succ_r by lia. apply Z.pow_le_mono_r; lia. }
    set (c := (2 ^ (k - e0))%Z) in *. set (B := (2 ^ 53)%Z) in *.
    destruct Hpow as [Hc HcB].
    assert (H1 : (n0 * dk < c * (2 * dk) * d0)%Z) by nia.
    assert (H2 : (c * (2 * dk) * d0 <= B * d0 * dk)%Z) by nia.
    nia.
  - pose proof (scaled_ratio p q k e0 ltac:(lia)) as Hr.
    fold nk dk n0 d0 in Hr.
    assert (Hc : (1 <= 2 ^ (e0 - k))%Z).
    { change 1%Z with (2 ^ 0)%Z. apply Z.pow_le_mono_r; lia. }
    set (c := (2 ^ (e0 - k))%Z) in *.
    assert (H1 : (n0 * dk <= c * n0 * dk)%Z) by nia.
    assert (H2 : (n0 * dk < 2 * dk * d0)%Z) by nia.
    assert (H3 : (n0 < 2 * d0)%Z) by nia.
    assert (HB : (2 <= 2 ^ 53)%Z) by (vm_compute; discriminate).
    nia.
Qed.

(** The finite result of [nearest_binary64] has the sign asked for, a
    mantissa below [2^53] and an exponent in the binary64 range, and is
    within half a unit in the last place of [p / q]. *)
Lemma nearest_binary64_spec neg p q s m e :
  nearest_binary64 neg p q = Some (FFinite s m e) ->
  s = neg
  /\ (Z.pos m < 2 ^ 53)%Z
  /\ (ulp_exponent p q <= e <= 971)%Z
  /\ within_half_unit p q (ulp_exponent p q) (Z.pos m * 2 ^ (e - ulp_exponent p q)).
Proof.
  unfold nearest_binary64, within_half_unit.
  pose proof (scaled_below_2_53 p q) as Hlt.
  destruct (scaled_pos p q (ulp_exponent p q)) as [Hn Hd].
  destruct (scaled p q (ulp_exponent p q)) as [n d] eqn:Hs. simpl in *.
  pose proof (round_half_even_close n d Hd) as Hclose.
  set (m0 := round_half_even n d) in *.
  assert (Hm0 : (m0 <= 2 ^ 53)%Z).
  { set (B := (2 ^ 53)%Z) in *. nia. }
  destruct (Z.eqb_spec m0 (2 ^ 53)) as [Heq|Hne].
  - change (2 ^ 52)%Z with (Z.pos (2 ^ 52)).
    destruct (Z.ltb_spec 971 (ulp_exponent p q + 1)); [discriminate|].
    intros [= <- <- <-]. split; [done|]. split; [done|]. split; [lia|].
    replace (ulp_exponent p q + 1 - ulp_exponent p q)%Z with 1%Z by lia.
    change (Z.pos (2 ^ 52) * 2 ^ 1)%Z with (2 ^ 53)%Z. by rewrite <- Heq.
  - destruct m0 as [|m0'|m0'] eqn:Hm; [discriminate| |discriminate].
    destruct (Z.ltb_spec 971 (ulp_exponent p q)); [discriminate|].
    intros [= <- <- <-]. split; [done|]. split; [lia|]. split; [lia|].
    rewrite Z.sub_diag. simpl (2 ^ 0)%Z. by rewrite Z.mul_1_r.
Qed.

(** ** The nearest binary64 number *)





























(** ** Numbers, dates and times in the encoder *)


Example default_fraction_third (self : DecentJSONEncoder) :
  default self (EFraction 1 3) = Ok (JFloat (FFinite false 6004799503160661 (-54))).
Proof. vm_compute. reflexivity. Qed.

Example default_datetime (self : DecentJSONEncoder) :
  default self (EDate (ADateTime (DateTime (Date 2004 5 6) (Time 7 8 9 0))))
  = Ok (JStr "2004-05-06T07:08:09").
Proof. vm_compute. reflexivity. Qed.

(** * The other helpers *)

(** ** [helpful_error_list_get] *)

(** X1. [helpful_error_list_get] returns an item exactly for the indexes
    from [-len(lst)] to [len(lst) - 1], a negative index counting from the
    end; every other index raises the IndexError that names the index and the
    length. [HelpfulErrorList] reads its items this way. *)
Theorem helpful_error_list_get_bounds {A} (lst : list A) (index : Z) :
  ((- Z.of_nat (length lst) <= index < Z.of_nat (length lst))%Z ->
     exists x, helpful_error_list_get lst index = Ok x
               /\ lst !! Z.to_nat (index mod Z.of_nat (length lst)) = Some x)
  /\ (~ (- Z.of_nat (length lst) <= index < Z.of_nat (length lst))%Z ->
      helpful_error_list_get lst index
      = Raise (IndexError ("Tried to access " +:+ str_int index
                           +:+ ", length is only " +:+ str_nat (length lst))))
  /\ HelpfulErrorList.__getitem__ (HelpfulErrorList.UserList lst) index
     = helpful_error_list_get lst index.
Proof.
  split; [|split; [|reflexivity]].
  - intros Hi. unfold helpful_error_list_get, list_getitem.
    set (n := Z.of_nat (length lst)) in *.
    assert (Hpos : (index mod n = if (index <? 0)%Z then index + n else index)%Z).
    { destruct (Z.ltb_spec index 0).
      - rewrite <- (Z_mod_plus_full index 1 n), Z.mod_small; lia.
      - rewrite Z.mod_small; lia. }
    rewrite Hpos. clear Hpos.
    set (i := if (index <? 0)%Z then (index + n)%Z else index).
    assert (Hr : (0 <= i < n)%Z).
    { subst i. destruct (Z.ltb_spec index 0); lia. }
    destruct (Z.ltb_spec i 0); [lia|].
    unfold list_get.
    destruct (lst !! Z.to_nat i) as [x|] eqn:Hx; [eauto|].
    apply lookup_ge_None in Hx. subst n. lia.
  - intros Hi. unfold helpful_error_list_get, list_getitem.
    set (n := Z.of_nat (length lst)) in *.
    set (i := if (index <? 0)%Z then (index + n)%Z else index).
    destruct (Z.ltb_spec i 0); [reflexivity|].
    unfold list_get.
    destruct (lst !! Z.to_nat i) as [x|] eqn:Hx; [|reflexivity].
    apply lookup_lt_Some in Hx. subst i n.
    destruct (Z.ltb_spec index 0); lia.
Qed.

(** ** [only] *)

(** X2. On a list or tuple [only] returns a value exactly when the
    collection has one item, and then that item; for any other length it
    raises the AssertionError that tells the length. *)
Theorem only_sized (l : list value) :
  (forall x, only (OSized l) = Return x <-> l = [x])
  /\ (length l <> 1 ->
      only (OSized l)
      = Throw (AssertionError ("Expected one value, found " +:+ str_nat (length l)))).
Proof.
  split.
  - intros x. unfold only. destruct l as [|y [|z l]]; simpl.
    + split; discriminate.
    + split; congruence.
    + split; discriminate.
  - intros Hl. unfold only. by destruct (decide (length l ≠ 1)).
Qed.

(** X3. On an iterator [only] calls [next] at most twice, so it ends on an
    endless iterator too. It returns [x] exactly when the iterator yields [x]
    and then stops, reports [found 0] exactly when the iterator yields
    nothing, and [found several] exactly when it yields two items or
    more. *)
Theorem only_iterator (it : iterator) :
  calls (only_draw it) <= 2
  /\ (forall x, only (OIterator it) = Return x
                <-> yields (it_next it) (it_start it) [x])
  /\ (only (OIterator it) = Throw (AssertionError "Expected one value, found 0")
      <-> yields (it_next it) (it_start it) [])
  /\ (only (OIterator it) = Throw (AssertionError "Expected one value, found several")
      <-> exists x y, yields_at_least (it_next it) (it_start it) [x; y]).
Proof.
  destruct it as [St s0 next]. unfold only, only_draw. simpl.
  destruct (next s0) as [[x1 s1]|] eqn:H0; simpl.
  - destruct (next s1) as [[x2 s2]|] eqn:H1; simpl.
    + split; [lia|]. split; [|split].
      * intros x. split; [discriminate|].
        intros Hy. inversion Hy as [|? ? ? ? Hn Hy']; subst.
        rewrite H0 in Hn. injection Hn as -> ->.
        inversion Hy' as [? Hn|]; subst. congruence.
      * split; [discriminate|]. intros Hy. inversion Hy; congruence.
      * split; [|done]. intros _. exists x1, x2.
        eapply at_least_item; [exact H0|].
        eapply at_least_item; [exact H1|]. constructor.
    + split; [lia|]. split; [|split].
      * intros x. split.
        -- intros [= ->]. eapply yields_item; [exact H0|]. by constructor.
        -- intros Hy. inversion Hy as [|? ? ? ? Hn Hy']; subst.
           rewrite H0 in Hn. by injection Hn as -> ->.
      * split; [discriminate|]. intros Hy. inversion Hy; congruence.
      * split; [discriminate|]. intros (x & y & Hy).
        inversion Hy as [|? ? ? ? Hn Hy']; subst.
        rewrite H0 in Hn. injection Hn as -> ->.
        inversion Hy'; congruence.
  - split; [lia|]. split; [|split].
    + intros x. split; [discriminate|]. intros Hy. inversion Hy; congruence.
    + split; [|done]. intros _. by constructor.
    + split; [discriminate|]. intros (x & y & Hy). inversion Hy; congruence.
Qed.

(** ** [retry] *)

Lemma wrapper_loop_last {W A} num_attempts exception_class log sleeptime
    (func : W -> outcome A * W) w es w1 r w2 i todo :
  (0 <= sleeptime)%Z ->
  fails_with func exception_class w es w1 ->
  Z.of_nat (i + todo) = num_attempts ->
  length es < todo ->
  func w1 = (r, w2) ->
  caught exception_class r = false \/ S (length es) = todo ->
  wrapper_loop num_attempts exception_class log sleeptime func i todo w
  = Attempted (wrapper_result r) w2 (retry_effects log sleeptime es) (S (length es)).
Proof.
  intros Hs Hf. revert i todo.
  induction Hf as [w|w e w' es w1 He Hc Hf IH]; intros i todo Hn Hlen Hr Hlast.
  - destruct todo as [|todo]; [simpl in Hlen; lia|]. simpl. rewrite Hr.
    destruct r as [a|e]; [done|]. simpl in *.
    destruct (exception_class e) eqn:Hc; [|done].
    destruct Hlast as [|Hlast]; [done|].
    destruct (Z.eqb_spec (Z.of_nat i) (num_attempts - 1)); [done|lia].
  - destruct todo as [|todo]; [simpl in Hlen; lia|]. simpl in Hlen.
    cbn [wrapper_loop]. rewrite He, Hc.
    destruct (Z.eqb_spec (Z.of_nat i) (num_attempts - 1)); [lia|].
    destruct (Z.ltb_spec sleeptime 0); [lia|].
    rewrite (IH (S i) todo); [|lia|lia|done|].
    + unfold retry_effects. csimpl. by rewrite <- app_assoc.
    + destruct Hlast as [?|Hlast]; [by left|right]. simpl in Hlast. lia.
Qed.

(** X4. With a sleep time that is not negative, the wrapper built by [retry]
    ends with the call of the function that is the first not to raise an
    exception of the class, or with the call number [num_attempts] when all
    calls before raised one: it returns what that call returns or raises
    what it raises, after one log entry (if a logger is given) and one sleep
    for every failure before it. *)
Theorem retry_ends_with_last_call {W A} num_attempts exception_class log sleeptime
    (func : W -> outcome A * W) w es w1 r w2 :
  (0 <= sleeptime)%Z ->
  fails_with func exception_class w es w1 ->
  (Z.of_nat (length es) < num_attempts)%Z ->
  func w1 = (r, w2) ->
  caught exception_class r = false \/ (Z.of_nat (length es) + 1)%Z = num_attempts ->
  retry num_attempts exception_class log sleeptime func w
  = Attempted (wrapper_result r) w2 (retry_effects log sleeptime es) (S (length es)).
Proof.
  intros Hs Hf Hlen Hr Hlast. unfold retry.
  apply (wrapper_loop_last _ _ _ _ _ w es w1); try done; try lia.
  destruct Hlast as [?|?]; [by left|right; lia].
Qed.

Lemma retry_ends_with_last_call_witness :
  retry 3 Exception true 0 always_fails 0
  = Attempted (Throw (Builtin (KeyError "1"))) 3
      [Logged retry_message (Builtin (KeyError "1")); Slept 0;
       Logged retry_message (Builtin (KeyError "1")); Slept 0] 3.
Proof.
  apply (retry_ends_with_last_call 3 Exception true 0%Z always_fails 0
           [Builtin (KeyError "1"); Builtin (KeyError "1")] 2
           (Throw (Builtin (KeyError "1"))) 3).
  - lia.
  - eapply fails_cons; [reflexivity|reflexivity|].
    eapply fails_cons; [reflexivity|reflexivity|]. constructor.
  - simpl. lia.
  - reflexivity.
  - right. reflexivity.
Defined.

Lemma wrapper_loop_bounds {W A} num_attempts exception_class log sleeptime
    (func : W -> outcome A * W) i todo w :
  todo = 0 \/ Z.of_nat (i + todo) = num_attempts ->
  attempts (wrapper_loop num_attempts exception_class log sleeptime func i todo w) <= todo
  /\ length (filter (fun e => is_sleep e = true)
               (effects (wrapper_loop num_attempts exception_class log sleeptime
                           func i todo w)))
     <= attempts (wrapper_loop num_attempts exception_class log sleeptime func i todo w) - 1
  /\ (returned (wrapper_loop num_attempts exception_class log sleeptime func i todo w)
      = Return None -> todo = 0).
Proof.
  revert i w. induction todo as [|todo IH]; intros i w Hn.
  - simpl. split; [lia|split; [lia|done]].
  - destruct Hn as [|Hn]; [done|]. cbn [wrapper_loop].
    destruct (func w) as [[a|e] w1]; [simpl; split; [lia|split; [lia|done]]|].
    destruct (exception_class e); [|simpl; split; [lia|split; [lia|done]]].
    destruct (Z.eqb_spec (Z.of_nat i) (num_attempts - 1));
      [simpl; split; [lia|split; [lia|done]]|].
    destruct (Z.ltb_spec sleeptime 0).
    { cbn [attempts effects returned]. split; [lia|split; [|done]].
      destruct log; simpl; lia. }
    cbn [attempts effects returned].
    destruct (IH (S i) w1) as (Ha & Hsl & Hret); [right; lia|].
    assert (Hpos : attempts (wrapper_loop num_attempts exception_class log sleeptime
                               func (S i) todo w1) <> 0).
    { destruct todo as [|todo]; [lia|]. cbn [wrapper_loop].
      destruct (func w1) as [[a'|e'] w2]; [done|].
      destruct (exception_class e'); [|done].
      destruct (Z.of_nat (S i) =? num_attempts - 1)%Z; [done|].
      by destruct (sleeptime <? 0)%Z. }
    split; [lia|split].
    + rewrite filter_app, length_app, filter_cons_True by done.
      assert (Hlog : filter (fun e0 => is_sleep e0 = true)
                       (if log then [Logged retry_message e] else []) = [])
        by (by destruct log).
      rewrite Hlog. simpl. lia.
    + intros Hnone. specialize (Hret Hnone). lia.
Qed.

(** X5. The wrapper built by [retry] calls the function at most
    [num_attempts] times and sleeps at most once between two calls. With
    [num_attempts] of one or more it never ends without a result: it returns
    what a call returned or raises; with [num_attempts] of zero or less it
    returns [None] and the function is not called at all. *)
Theorem retry_bounds {W A} num_attempts exception_class log sleeptime
    (func : W -> outcome A * W) w :
  attempts (retry num_attempts exception_class log sleeptime func w)
  <= Z.to_nat num_attempts
  /\ length (filter (fun e => is_sleep e = true)
               (effects (retry num_attempts exception_class log sleeptime func w)))
     <= attempts (retry num_attempts exception_class log sleeptime func w) - 1
  /\ (returned (retry num_attempts exception_class log sleeptime func w) = Return None
      <-> (num_attempts <= 0)%Z)
  /\ ((num_attempts <= 0)%Z ->
      retry num_attempts exception_class log sleeptime func w
      = Attempted (Return None) w [] 0).
Proof.
  assert (Hzero : (num_attempts <= 0)%Z ->
                  retry num_attempts exception_class log sleeptime func w
                  = Attempted (Return None) w [] 0).
  { intros Hn. unfold retry. by replace (Z.to_nat num_attempts) with 0 by lia. }
  unfold retry in *.
  destruct (wrapper_loop_bounds num_attempts exception_class log sleeptime func
              0 (Z.to_nat num_attempts) w) as (Ha & Hsl & Hret); [lia|].
  split; [done|split; [done|split; [split|done]]].
  - intros Hnone. specialize (Hret Hnone). lia.
  - intros Hn. by rewrite Hzero.
Qed.

(** X6. A negative sleep time defeats the retry: when the first call raises
    an exception of the class and more attempts are allowed, [sleep] refuses
    the time, and the wrapper raises that ValueError in place of the
    exception of the function, after one call and without a second one. *)
Theorem retry_negative_sleeptime {W A} num_attempts exception_class log sleeptime
    (func : W -> outcome A * W) w e w1 :
  (sleeptime < 0)%Z -> (2 <= num_attempts)%Z ->
  func w = (Throw e, w1) -> exception_class e = true ->
  retry num_attempts exception_class log sleeptime func w
  = Attempted (Throw sleep_error) w1 (if log then [Logged retry_message e] else []) 1.
Proof.
  intros Hs Hn He Hc. unfold retry.
  destruct (Z.to_nat num_attempts) as [|todo] eqn:Htodo; [lia|].
  cbn [wrapper_loop]. rewrite He, Hc.
  destruct (Z.eqb_spec (Z.of_nat 0) (num_attempts - 1)); [lia|].
  by destruct (Z.ltb_spec sleeptime 0); [|lia].
Qed.

Lemma retry_negative_sleeptime_witness :
  retry 3 Exception false (-1) always_fails 0 = Attempted (Throw sleep_error) 1 [] 1.
Proof.
  apply (retry_negative_sleeptime 3 Exception false (-1)%Z always_fails 0
           (Builtin (KeyError "1")) 1); [lia|lia|reflexivity|reflexivity].
Defined.

(** ** Prefixes *)

Lemma str_prefix_app p r : String.prefix p (p +:+ r) = true.
Proof.
  induction p as [|c p IH]; [by destruct r|].
  rewrite str_app_cons, prefix_cons. by destruct (ascii_dec c c).
Qed.

Lemma slice_from_app p r : slice_from (String.length p) (p +:+ r) = r.
Proof. induction p as [|c p IH]; [done|]. by rewrite str_app_cons. Qed.

Lemma str_prefix_slice p s :
  String.prefix p s = true -> s = p +:+ slice_from (String.length p) s.
Proof.
  revert s. induction p as [|c p IH]; intros s H; [done|].
  destruct s as [|d s]; [done|]. rewrite prefix_cons in H.
  destruct (ascii_dec c d) as [->|]; [|done].
  rewrite str_app_cons. simpl. f_equal. by apply IH.
Qed.

Lemma str_prefix_false p s : String.prefix p s = false -> forall r, s <> p +:+ r.
Proof. intros H r ->. by rewrite str_prefix_app in H. Qed.

(** X7. [strip_required_prefix] returns [r] exactly when the string is the
    prefix followed by [r]; a string that does not start with the prefix
    raises the AssertionError that shows the first characters of the string,
    as many as the prefix has, and the prefix; nothing else is raised. *)
Theorem strip_required_prefix_spec (s prefix : string) :
  (forall r, strip_required_prefix s prefix = Return r <-> s = prefix +:+ r)
  /\ (forall e, strip_required_prefix s prefix = Throw e
                <-> (forall r, s <> prefix +:+ r)
                    /\ e = AssertionError
                             ("String starts with "
                              +:+ repr_str (slice_to (String.length prefix) s)
                              +:+ ", not " +:+ repr_str prefix)).
Proof.
  unfold strip_required_prefix.
  destruct (String.prefix prefix s) eqn:Hp.
  - split.
    + intros r. split.
      * intros [= <-]. by apply str_prefix_slice.
      * intros ->. by rewrite slice_from_app.
    + intros e. split; [discriminate|]. intros [Hno _].
      destruct (Hno _ (str_prefix_slice _ _ Hp)).
  - split.
    + intros r. split; [discriminate|]. intros ->. by rewrite str_prefix_app in Hp.
    + intros e. split.
      * intros [= <-]. split; [by apply str_prefix_false|done].
      * by intros [_ ->].
Qed.

(** X8. [strip_optional_prefix] never fails: a string that is the prefix
    followed by [r] gives [r] and no warning, any other string comes back
    unchanged, with one warning that carries the first characters of the
    string and the prefix when a logger is given. The result is always an
    end of the string, and it is the result of [strip_required_prefix]
    whenever that function returns. *)
Theorem strip_optional_prefix_spec (s prefix : string) (log : bool) :
  (forall r, s = prefix +:+ r -> strip_optional_prefix s prefix log = (r, []))
  /\ ((forall r, s <> prefix +:+ r) ->
      strip_optional_prefix s prefix log
      = (s, if log
            then [Warn "String starts with %r, not %r"
                       [slice_to (String.length prefix) s; prefix]]
            else []))
  /\ (exists t, s = t +:+ fst (strip_optional_prefix s prefix log))
  /\ (forall r, strip_required_prefix s prefix = Return r ->
                strip_optional_prefix s prefix log = (r, [])).
Proof.
  unfold strip_optional_prefix, strip_required_prefix.
  destruct (String.prefix prefix s) eqn:Hp.
  - split; [|split; [|split]].
    + intros r ->. by rewrite slice_from_app.
    + intros Hno. destruct (Hno _ (str_prefix_slice _ _ Hp)).
    + exists prefix. by apply str_prefix_slice.
    + by intros r [= <-].
  - split; [|split; [|split]].
    + intros r ->. by rewrite str_prefix_app in Hp.
    + intros _. by destruct log.
    + exists EmptyString. by destruct log.
    + discriminate.
Qed.

(** ** The words of [ensure_list_if_string] *)

Lemma re_split_go_cons b s : exists w ws, re_split_go b s = w :: ws.
Proof.
  revert b. induction s as [|c s IH]; intros b; simpl; [eauto|].
  destruct (is_sep c).
  - destruct b; [apply IH|eauto].
  - destruct (IH false) as (w & ws & ->). eauto.
Qed.

Lemma re_split_go_no_sep b s : Forall (fun w => no_sep w = true) (re_split_go b s).
Proof.
  revert b. induction s as [|c s IH]; intros b; simpl.
  - by repeat constructor.
  - destruct (is_sep c) eqn:Hc.
    + destruct b; [apply IH|]. constructor; [done|apply IH].
    + specialize (IH false). destruct (re_split_go false s) as [|w ws].
      * repeat constructor. simpl. by rewrite Hc.
      * apply Forall_cons in IH as [Hw Hws]. constructor; [|done].
        simpl. by rewrite Hc.
Qed.

Lemma concat_empty_cons (w : string) (ws : list string) :
  join EmptyString (w :: ws) = w +:+ join EmptyString ws.
Proof.
  unfold join. destruct ws as [|w' ws]; simpl; [by rewrite str_app_nil_r|].
  by rewrite str_app_nil_l.
Qed.

Lemma re_split_go_concat b s :
  join EmptyString (filter (fun w => nonempty w = true) (re_split_go b s)) = remove_seps s.
Proof.
  revert b. induction s as [|c s IH]; intros b; simpl; [done|].
  destruct (is_sep c) eqn:Hc.
  - destruct b; [apply IH|]. rewrite filter_cons_False by done. apply IH.
  - specialize (IH false). destruct (re_split_go_cons false s) as (w & ws & Hs).
    rewrite Hs in *. rewrite filter_cons_True by done.
    rewrite concat_empty_cons, str_app_cons. f_equal.
    rewrite <- IH. destruct w as [|a w].
    + rewrite filter_cons_False by done. by rewrite str_app_nil_l.
    + rewrite filter_cons_True by done. by rewrite concat_empty_cons.
Qed.

(** X9. The list [ensure_list_if_string] makes of a string holds words only:
    none is empty and none holds a comma or a whitespace character; and the
    words, put together, are the string without its separators, so that no
    other character is lost. A list is returned as it is. *)
Theorem ensure_list_if_string_words (s : string) :
  Forall (fun w => nonempty w = true /\ no_sep w = true) (ensure_list_if_string (AStr s))
  /\ join EmptyString (ensure_list_if_string (AStr s)) = remove_seps s
  /\ forall l, ensure_list_if_string (AList l) = l.
Proof.
  split; [|split; [|done]].
  - simpl. apply Forall_forall. intros w Hw.
    apply list_elem_of_filter in Hw as [Hne Hw]. split; [done|].
    pose proof (re_split_go_no_sep false s) as Hall.
    rewrite Forall_forall in Hall. by apply Hall.
  - apply re_split_go_concat.
Qed.

(** [w] put before the first piece. *)
Lemma re_split_go_word w rest :
  no_sep w = true ->
  re_split_go false (w +:+ rest)
  = match re_split_go false rest with
    | p :: ps => (w +:+ p) :: ps
    | [] => [w]
    end.
Proof.
  induction w as [|c w IH]; intros Hw.
  - rewrite str_app_nil_l. destruct (re_split_go_cons false rest) as (p & ps & ->).
    by rewrite str_app_nil_l.
  - simpl in Hw. apply andb_true_iff in Hw as [Hc Hw].
    apply negb_true_iff in Hc. rewrite str_app_cons. simpl. rewrite Hc.
    rewrite (IH Hw). destruct (re_split_go_cons false rest) as (p & ps & ->).
    by rewrite str_app_cons.
Qed.

Lemma re_split_go_flag b w rest :
  is_word w = true -> re_split_go b (w +:+ rest) = re_split_go false (w +:+ rest).
Proof.
  destruct w as [|c w]; [done|]. unfold is_word.
  intros Hw. simpl in Hw. apply andb_true_iff in Hw as [Hc _]. apply negb_true_iff in Hc.
  rewrite str_app_cons. simpl. by rewrite Hc.
Qed.

Lemma re_split_go_seps sep rest :
  all_sep sep = true -> re_split_go true (sep +:+ rest) = re_split_go true rest.
Proof.
  induction sep as [|c sep IH]; intros Hs; [by rewrite str_app_nil_l|].
  simpl in Hs. apply andb_true_iff in Hs as [Hc Hs].
  rewrite str_app_cons. simpl. rewrite Hc. by apply IH.
Qed.

Lemma re_split_go_sep sep rest :
  nonempty sep = true -> all_sep sep = true ->
  re_split_go false (sep +:+ rest) = EmptyString :: re_split_go true rest.
Proof.
  destruct sep as [|c sep]; [done|]. intros _ Hs.
  simpl in Hs. apply andb_true_iff in Hs as [Hc Hs].
  rewrite str_app_cons. simpl. rewrite Hc. f_equal. by apply re_split_go_seps.
Qed.

Lemma str_app_assoc (a b c : string) : (a +:+ b) +:+ c = a +:+ (b +:+ c).
Proof. induction a as [|x a IH]; [done|]. by rewrite !str_app_cons, IH. Qed.

Lemma split_join sep (l : list string) b :
  nonempty sep = true -> all_sep sep = true ->
  Forall (fun w => is_word w = true) l ->
  filter (fun w => nonempty w = true) (re_split_go b (join sep l)) = l.
Proof.
  intros Hne Hsep Hl. revert b. induction Hl as [|w l Hw Hl IH]; intros b.
  - simpl. by destruct b.
  - assert (Hw' := Hw). unfold is_word in Hw'.
    apply andb_true_iff in Hw' as [Hwne Hwns].
    destruct l as [|w2 l].
    + unfold join. simpl. rewrite <- (str_app_nil_r w).
      rewrite re_split_go_flag, re_split_go_word by done. simpl.
      rewrite str_app_nil_r. by rewrite filter_cons_True, filter_nil by done.
    + rewrite join_cons2.
      rewrite re_split_go_flag, re_split_go_word by done.
      rewrite re_split_go_sep by done. rewrite str_app_nil_r.
      rewrite filter_cons_True by done. f_equal. apply IH.
Qed.

(** X10. Joining and splitting are inverse on words: for every list of
    words, that is of texts that are not empty and hold no comma or
    whitespace, and every separator made of commas and whitespace,
    [ensure_list_if_string] gives the list back from the joined string. *)
Theorem ensure_list_if_string_join (sep : string) (l : list string) :
  nonempty sep = true -> all_sep sep = true ->
  Forall (fun w => is_word w = true) l ->
  ensure_list_if_string (AStr (join sep l)) = l.
Proof. intros Hne Hsep Hl. by apply split_join. Qed.

Lemma ensure_list_if_string_join_witness :
  ensure_list_if_string (AStr "abc, def, 123") = ["abc"; "def"; "123"].
Proof.
  apply (ensure_list_if_string_join ", " ["abc"; "def"; "123"]).
  - reflexivity.
  - reflexivity.
  - repeat constructor.
Defined.

(** ** [select_keys] *)

Lemma lookup_restricted {V} ks (d : gmap string V) k :
  restricted ks d !! k = if decide (k ∈ ks) then d !! k else None.
Proof.
  unfold restricted. destruct (decide (k ∈ ks)) as [Hk|Hk].
  - destruct (d !! k) as [v|] eqn:Hd.
    + by apply map_lookup_filter_Some.
    + apply map_lookup_filter_None. by left.
  - apply map_lookup_filter_None. right. intros v _. done.
Qed.

Lemma dict_comprehension_Ok {V} (get : string -> result V) (d : gmap string V) ks acc :
  (forall k v, d !! k = Some v -> get k = Ok v) ->
  Forall (fun k => k ∈ dom d) ks ->
  dict_comprehension get ks acc = Ok (restricted ks d ∪ acc).
Proof.
  intros Hget Hks. revert acc. induction Hks as [|k ks Hk Hks IH]; intros acc.
  - simpl. f_equal. apply map_eq. intros i.
    rewrite lookup_union, lookup_restricted.
    destruct (decide (i ∈ [])) as [Hi|_]; [by apply elem_of_nil in Hi|].
    by rewrite (left_id None _).
  - apply elem_of_dom in Hk as [v Hv]. simpl. rewrite (Hget k v Hv), bind_Ok, IH.
    f_equal. apply map_eq. intros i.
    rewrite !lookup_union, !lookup_restricted.
    destruct (decide (i = k)) as [->|Hne].
    + rewrite lookup_insert_eq, Hv.
      destruct (decide (k ∈ k :: ks)) as [_|Hn]; [|destruct Hn; apply elem_of_cons; by left].
      destruct (decide (k ∈ ks)); destruct (acc !! k); done.
    + rewrite lookup_insert_ne by done.
      destruct (decide (i ∈ ks)) as [Hi|Hi].
      * destruct (decide (i ∈ k :: ks)) as [_|Hn]; [done|]. destruct Hn.
        apply elem_of_cons. by right.
      * destruct (decide (i ∈ k :: ks)) as [Hi'|_]; [|done].
        apply elem_of_cons in Hi' as [?|?]; done.
Qed.

Lemma dict_comprehension_Raise {V} (get : string -> result V) (d : gmap string V)
    before k after acc e :
  (forall k v, d !! k = Some v -> get k = Ok v) ->
  Forall (fun k => k ∈ dom d) before -> get k = Raise e ->
  dict_comprehension get (before ++ k :: after) acc = Raise e.
Proof.
  intros Hget Hb He. revert acc. induction Hb as [|k0 ks Hk Hks IH]; intros acc.
  - simpl. by rewrite He.
  - apply elem_of_dom in Hk as [v Hv]. simpl. by rewrite (Hget k0 v Hv), bind_Ok, IH.
Qed.

Lemma dict_comprehension_Ok_inv {V} (get : string -> result V) (d : gmap string V) ks acc r :
  (forall k, d !! k = None -> exists e, get k = Raise e) ->
  dict_comprehension get ks acc = Ok r -> Forall (fun k => k ∈ dom d) ks.
Proof.
  intros Hget. revert acc. induction ks as [|k ks IH]; intros acc H; [constructor|].
  simpl in H. apply bind_Ok_inv in H as (v & Hv & H).
  constructor; [|by eapply IH].
  apply elem_of_dom. destruct (d !! k) eqn:Hd; [done|].
  destruct (Hget k Hd) as [e He]. congruence.
Qed.

Lemma helpful_error_dict_get_Some {V} (d : gmap string V) k v :
  d !! k = Some v -> helpful_error_dict_get d k = Ok v.
Proof. unfold helpful_error_dict_get. by intros ->. Qed.

Lemma dict_getitem_Some {V} (d : gmap string V) k v :
  d !! k = Some v -> dict_getitem d k = Ok v.
Proof. unfold dict_getitem. by intros ->. Qed.

Lemma select_keys_Ok {V} (d : gmap string V) keys helpful_error :
  Forall (fun k => k ∈ dom d) (ensure_list_if_string keys) ->
  select_keys d keys helpful_error = Ok (restricted (ensure_list_if_string keys) d).
Proof.
  intros Hks. unfold select_keys. destruct helpful_error.
  - rewrite (dict_comprehension_Ok _ d); [|apply helpful_error_dict_get_Some|done].
    by rewrite (right_id ∅ _).
  - rewrite (dict_comprehension_Ok _ d); [|apply dict_getitem_Some|done].
    by rewrite (right_id ∅ _).
Qed.

Lemma select_keys_Ok_inv {V} (d : gmap string V) keys helpful_error r :
  select_keys d keys helpful_error = Ok r ->
  Forall (fun k => k ∈ dom d) (ensure_list_if_string keys).
Proof.
  unfold select_keys. destruct helpful_error; intros H.
  - eapply dict_comprehension_Ok_inv; [|exact H].
    intros k Hk. unfold helpful_error_dict_get, _helpful_dict_error. rewrite Hk. eauto.
  - eapply dict_comprehension_Ok_inv; [|exact H].
    intros k Hk. unfold dict_getitem. rewrite Hk. eauto.
Qed.

(** X11. [select_keys] succeeds exactly when the dict has every key asked
    for, whether the helpful error is on or off, and it then returns the
    entries of the dict under these keys and no other entry. *)
Theorem select_keys_present {V} (d r : gmap string V) (keys : str_or_list)
    (helpful_error : bool) :
  select_keys d keys helpful_error = Ok r
  <-> Forall (fun k => k ∈ dom d) (ensure_list_if_string keys)
      /\ forall k, r !! k = if decide (k ∈ ensure_list_if_string keys) then d !! k else None.
Proof.
  split.
  - intros H. pose proof (select_keys_Ok_inv _ _ _ _ H) as Hks.
    split; [done|]. rewrite (select_keys_Ok d keys helpful_error Hks) in H.
    injection H as <-. apply lookup_restricted.
  - intros [Hks Hr]. rewrite (select_keys_Ok d keys helpful_error Hks).
    f_equal. apply map_eq. intros k. by rewrite Hr, lookup_restricted.
Qed.

(** X12. When a key asked for is missing, [select_keys] fails at the first
    such key in the order of the keys: with the helpful error the KeyError
    carries the message of [_helpful_dict_error] for that key and the keys
    of the whole dict, without it the KeyError carries the key alone. *)
Theorem select_keys_missing {V} (d : gmap string V) (keys : str_or_list)
    (helpful_error : bool) (before : list string) (k : string) (after : list string) :
  ensure_list_if_string keys = before ++ k :: after ->
  Forall (fun k' => k' ∈ dom d) before -> k ∉ dom d ->
  select_keys d keys helpful_error
  = Raise (KeyError
             (if helpful_error
              then "Tried to access " +:+ repr_str k +:+ ", only keys are: "
                   +:+ slice_to 1000 (str_list (repr_str <$> sorted (Py.keys d)))
              else k)).
Proof.
  intros Hks Hb Hk. apply not_elem_of_dom in Hk.
  unfold select_keys. rewrite Hks. destruct helpful_error.
  - apply (dict_comprehension_Raise _ d); [apply helpful_error_dict_get_Some|done|].
    unfold helpful_error_dict_get. by rewrite Hk.
  - apply (dict_comprehension_Raise _ d); [apply dict_getitem_Some|done|].
    unfold dict_getitem. by rewrite Hk.
Qed.

Lemma select_keys_missing_witness :
  select_keys (d_ab 1 2) (AStr "a d") true
  = Raise (KeyError "Tried to access 'd', only keys are: ['a', 'b']")
  /\ select_keys (d_ab 1 2) (AStr "a d") false = Raise (KeyError "d").
Proof.
  assert (Ha : Forall (fun k' => k' ∈ dom (d_ab 1 2)) ["a"]).
  { constructor; [|constructor]. apply elem_of_dom. by eexists. }
  assert (Hd : "d" ∉ dom (d_ab 1 2)) by (apply not_elem_of_dom; reflexivity).
  split.
  - exact (select_keys_missing (d_ab 1 2) (AStr "a d") true ["a"] "d" [] eq_refl Ha Hd).
  - exact (select_keys_missing (d_ab 1 2) (AStr "a d") false ["a"] "d" [] eq_refl Ha Hd).
Defined.

(** X13. Selecting from a selection: when [select_keys] has returned [r] for
    some keys, selecting keys among these from [r] gives what selecting them
    from the dict itself gives. *)
Theorem select_keys_twice {V} (d r : gmap string V) (keys keys' : str_or_list)
    (helpful_error helpful_error' : bool) :
  select_keys d keys helpful_error = Ok r ->
  (forall k, k ∈ ensure_list_if_string keys' -> k ∈ ensure_list_if_string keys) ->
  select_keys r keys' helpful_error' = select_keys d keys' helpful_error'
  /\ exists r', select_keys r keys' helpful_error' = Ok r'.
Proof.
  intros H Hsub. pose proof (select_keys_Ok_inv _ _ _ _ H) as Hks.
  rewrite (select_keys_Ok d keys helpful_error Hks) in H. injection H as <-.
  rewrite Forall_forall in Hks.
  assert (Hd : Forall (fun k => k ∈ dom d) (ensure_list_if_string keys')).
  { apply Forall_forall. intros k Hk. apply Hks. by apply Hsub. }
  assert (Hr : Forall (fun k => k ∈ dom (restricted (ensure_list_if_string keys) d))
                 (ensure_list_if_string keys')).
  { apply Forall_forall. intros k Hk. apply elem_of_dom.
    rewrite lookup_restricted. rewrite decide_True by (by apply Hsub).
    apply elem_of_dom. apply Hks. by apply Hsub. }
  rewrite (select_keys_Ok _ keys' helpful_error' Hr).
  rewrite (select_keys_Ok d keys' helpful_error' Hd).
  split; [|eauto]. f_equal. apply map_eq. intros k.
  rewrite !lookup_restricted.
  destruct (decide (k ∈ ensure_list_if_string keys')) as [Hk|]; [|done].
  by rewrite decide_True by (by apply Hsub).
Qed.

Lemma select_keys_twice_witness :
  select_keys (restricted ["a"; "b"] (d_ab 1 2)) (AStr "a") true
  = select_keys (d_ab 1 2) (AStr "a") true
  /\ exists r', select_keys (restricted ["a"; "b"] (d_ab 1 2)) (AStr "a") true = Ok r'.
Proof.
  apply (select_keys_twice (d_ab 1 2) _ (AStr "a b") (AStr "a") false true).
  - apply select_keys_Ok.
    constructor; [|constructor; [|constructor]]; apply elem_of_dom; by eexists.
  - intros k Hk.
    change (ensure_list_if_string (AStr "a")) with ["a"] in Hk.
    change (ensure_list_if_string (AStr "a b")) with ["a"; "b"].
    apply list_elem_of_singleton in Hk as ->. apply elem_of_cons. by left.
Defined.

(** ** [group_by_key_func] *)

Section GroupByKeyFunc.
Context {A K : Type} `{Countable K} (key_func : A -> K).

Lemma group_fold_lookup (iterable : list A) (acc : gmap K (list A)) (k : K) :
  foldl (fun result item =>
           <[key_func item := from_option id [] (result !! key_func item) ++ [item]]> result)
        acc iterable !! k
  = match acc !! k, filter (fun x => key_func x = k) iterable with
    | None, [] => None
    | o, g => Some (from_option id [] o ++ g)
    end.
Proof.
  revert acc. induction iterable as [|x l IH]; intros acc.
  - simpl. destruct (acc !! k); simpl; [by rewrite app_nil_r|done].
  - simpl. rewrite IH. destruct (decide (key_func x = k)) as [<-|Hne].
    + rewrite lookup_insert_eq, filter_cons_True by done.
      destruct (acc !! key_func x) as [g|]; simpl.
      * by rewrite <- app_assoc.
      * done.
    + rewrite lookup_insert_ne, filter_cons_False by done. done.
Qed.

Lemma group_fold_concat (iterable : list A) (acc : gmap K (list A)) :
  concat (snd <$> map_to_list
            (foldl (fun result item =>
                      <[key_func item := from_option id [] (result !! key_func item)
                                         ++ [item]]> result)
                   acc iterable))
  ≡ₚ concat (snd <$> map_to_list acc) ++ iterable.
Proof.
  revert acc. induction iterable as [|x l IH]; intros acc.
  - simpl. by rewrite app_nil_r.
  - simpl. rewrite IH. change (x :: l) with ([x] ++ l).
    rewrite app_assoc. apply Permutation_app_tail.
    destruct (acc !! key_func x) as [g|] eqn:Hg; simpl.
    + rewrite <- (insert_delete_eq acc).
      rewrite map_to_list_insert by apply lookup_delete_eq.
      rewrite <- (map_to_list_delete acc _ _ Hg). csimpl.
      rewrite <- !app_assoc. apply Permutation_app_head, Permutation_app_comm.
    + rewrite map_to_list_insert by done. csimpl.
      apply Permutation_cons_append.
Qed.

End GroupByKeyFunc.

(** X14. The group of a key is the list of the items with that key, in the
    order of the input; a key of no item has no group, so that no group is
    empty. *)
Theorem group_by_key_func_groups {A K} `{Countable K} (iterable : list A)
    (key_func : A -> K) (k : K) :
  group_by_key_func iterable key_func !! k
  = match filter (fun x => key_func x = k) iterable with
    | [] => None
    | g => Some g
    end.
Proof.
  unfold group_by_key_func. rewrite group_fold_lookup, lookup_empty.
  by destruct (filter _ iterable).
Qed.

(** X15. The groups split the input: all groups together hold every item of
    the input as often as the input does, and nothing else. *)
Theorem group_by_key_func_partition {A K} `{Countable K} (iterable : list A)
    (key_func : A -> K) :
  concat (snd <$> map_to_list (group_by_key_func iterable key_func)) ≡ₚ iterable.
Proof.
  unfold group_by_key_func. rewrite group_fold_concat.
  by rewrite map_to_list_empty.
Qed.

(** ** [setattrs] *)

(** X16. After [setattrs] every attribute named in the keyword arguments has
    the value given, and every other attribute of the object is as it
    was. *)
Theorem setattrs_sets {V} (obj kwargs : gmap string V) (name : string) :
  setattrs obj kwargs !! name
  = match kwargs !! name with
    | Some v => Some v
    | None => obj !! name
    end.
Proof.
  unfold setattrs. revert name.
  apply (map_fold_weak_ind
           (fun r m => forall name,
              r !! name = match m !! name with Some v => Some v | None => obj !! name end)).
  - intros name. by rewrite lookup_empty.
  - intros i x m r Hi IH name. destruct (decide (name = i)) as [->|Hne].
    + by rewrite !lookup_insert_eq.
    + by rewrite !lookup_insert_ne.
Qed.

(** ** Keys that the header does not name *)

Lemma fits_restrict hdr r : fits hdr (restrict_row hdr r) <-> fits hdr r.
Proof.
  assert (Hd : forall d : gmap string value,
             Forall (fun k => k ∈ dom (restricted hdr d)) hdr
             <-> Forall (fun k => k ∈ dom d) hdr).
  { intros d. rewrite !Forall_forall. split; intros Hall k Hk.
    - specialize (Hall k Hk). apply elem_of_dom in Hall.
      rewrite lookup_restricted, decide_True in Hall by done. by apply elem_of_dom.
    - apply elem_of_dom. rewrite lookup_restricted, decide_True by done.
      apply elem_of_dom. by apply Hall. }
  destruct r as [cells|d|d]; simpl; [done|apply Hd|apply Hd].
Qed.

Lemma normalize_restrict hdr r : normalize hdr (restrict_row hdr r) = normalize hdr r.
Proof.
  assert (Hd : forall d : gmap string value,
             dict_cells (restricted hdr d) hdr = dict_cells d hdr).
  { intros d. unfold dict_cells. apply list_fmap_ext. intros i k Hk.
    unfold lookup_total, map_lookup_total.
    rewrite lookup_restricted, decide_True; [done|]. by eapply list_elem_of_lookup_2. }
  destruct r as [cells|d|d]; simpl; [done|apply Hd|apply Hd].
Qed.

Lemma header_success a rows out :
  ensure_list_if_string a <> [] ->
  pretty_table rows (Some a) = Ok out ->
  Forall (fits (ensure_list_if_string a)) rows.
Proof.
  intros Hne H. unfold pretty_table in H. apply bind_Ok_inv in H as (st & Hst & _).
  rewrite (initial_state_header a (names_truthy a Hne)) in Hst.
  by apply (header_mode_inv rows _ st []) in Hst.
Qed.

(** X17. Under a header that names at least one column, the entries of a
    mapping or record row under keys that the header does not name have no
    effect: the call succeeds with the rows as given exactly when it succeeds
    with these entries removed, and the text is the same. *)
Theorem pretty_table_ignores_other_keys (rows : list row) (a : str_or_list) (out : string) :
  ensure_list_if_string a <> [] ->
  pretty_table rows (Some a) = Ok out
  <-> pretty_table (restrict_row (ensure_list_if_string a) <$> rows) (Some a) = Ok out.
Proof.
  intros Hne. set (hdr := ensure_list_if_string a).
  assert (Hrun : forall rows', Forall (fits hdr) rows' ->
            pretty_table rows' (Some a)
            = render (State RTAny hdr
                        (TheHeader :: ((fun r => Cells (normalize hdr r)) <$> rows')))).
  { intros rows' Hfit. unfold pretty_table.
    by rewrite (header_run a rows' (names_truthy a Hne) Hne Hfit), bind_Ok. }
  assert (Hfits : Forall (fits hdr) (restrict_row hdr <$> rows) <-> Forall (fits hdr) rows).
  { rewrite Forall_fmap. apply Forall_iff. intros r. apply fits_restrict. }
  assert (Hsame : (fun r => Cells (normalize hdr r)) <$> (restrict_row hdr <$> rows)
                  = (fun r => Cells (normalize hdr r)) <$> rows).
  { rewrite <- list_fmap_compose. apply list_fmap_ext. intros i r _. simpl.
    by rewrite normalize_restrict. }
  split; intros H.
  - pose proof (header_success a rows out Hne H) as Hfit.
    rewrite Hrun in H by done. rewrite Hrun by (by apply Hfits). by rewrite Hsame.
  - pose proof (header_success a _ out Hne H) as Hfit. apply Hfits in Hfit.
    rewrite Hrun in H by (by apply Hfits). rewrite Hrun by done. by rewrite <- Hsame.
Qed.

Lemma pretty_table_ignores_other_keys_witness :
  pretty_table [RowMap (d_ab 1 2)] (Some (AStr "b")) = Ok ("b" +:+ nl +:+ "-" +:+ nl +:+ "2")
  /\ pretty_table (restrict_row ["b"] <$> [RowMap (d_ab 1 2)]) (Some (AStr "b"))
     = Ok ("b" +:+ nl +:+ "-" +:+ nl +:+ "2").
Proof.
  assert (H : pretty_table [RowMap (d_ab 1 2)] (Some (AStr "b"))
              = Ok ("b" +:+ nl +:+ "-" +:+ nl +:+ "2")) by reflexivity.
  split; [exact H|].
  apply (pretty_table_ignores_other_keys [RowMap (d_ab 1 2)] (AStr "b")); [done|exact H].
Defined.

(** ** The columns of a table *)

Lemma join_at (sep : string) (l : list string) (i : nat) (x : string) :
  l !! i = Some x ->
  exists before after,
    join sep l = before +:+ x +:+ after
    /\ String.length before
       = sum_list ((fun s => String.length s + String.length sep) <$> take i l).
Proof.
  revert i. induction l as [|y l IH]; intros i Hi; [done|].
  destruct i as [|i].
  - injection Hi as ->. exists EmptyString. destruct l as [|z l].
    + exists EmptyString. split; [|done]. unfold join. simpl.
      by rewrite str_app_nil_l, str_app_nil_r.
    + exists (sep +:+ join sep (z :: l)). split; [|done].
      by rewrite join_cons2, str_app_nil_l.
  - simpl in Hi. destruct l as [|z l]; [done|].
    destruct (IH i Hi) as (before & after & Hj & Hlen).
    exists (y +:+ sep +:+ before), after. split.
    + rewrite join_cons2, Hj. by rewrite !str_app_assoc.
    + change (take (S i) (y :: z :: l)) with (y :: take i (z :: l)).
      rewrite fmap_cons. cbn [sum_list_with]. rewrite <- Hlen, !str_length_app.
      unfold id. lia.
Qed.

Lemma join_length (sep : string) (l : list string) :
  l <> [] ->
  String.length (join sep l) + String.length sep
  = sum_list ((fun s => String.length s + String.length sep) <$> l).
Proof.
  induction l as [|y l IH]; [done|]. intros _. destruct l as [|z l].
  - unfold join. simpl. lia.
  - rewrite join_cons2, !str_length_app. specialize (IH ltac:(done)).
    rewrite fmap_cons. cbn [sum_list_with]. rewrite <- IH. unfold id. lia.
Qed.

Lemma padded_offsets (r : list string) (widths : list nat) (i : nat) :
  Forall2 (fun c w => String.length c <= w) r widths ->
  sum_list ((fun s => String.length s + 3) <$> take i (zip_with ljust r widths))
  = column_offset widths i.
Proof.
  intros H. revert i. unfold column_offset.
  induction H as [|c w r widths Hc H IH]; intros i; [by destruct i|].
  destruct i as [|i]; [done|].
  change (take (S i) (zip_with ljust (c :: r) (w :: widths)))
    with (ljust c w :: take i (zip_with ljust r widths)).
  change (take (S i) (w :: widths)) with (w :: take i widths).
  rewrite !fmap_cons. cbn [sum_list_with]. rewrite IH. unfold ljust, id.
  rewrite str_length_app, length_str_mul. lia.
Qed.

Lemma table_widths_lookup (row0 : list string) rest i :
  i < length row0 ->
  table_widths (row0 :: rest) !! i = Some (column_max (row0 :: rest) i).
Proof.
  intros Hi. unfold table_widths. rewrite list_lookup_fmap.
  by rewrite lookup_seq_lt.
Qed.

Lemma rect_cells_fit (row0 : list string) rest r :
  Forall (fun r' => length r' = length row0) (row0 :: rest) ->
  r ∈ row0 :: rest ->
  Forall2 (fun c w => String.length c <= w) r (table_widths (row0 :: rest)).
Proof.
  intros Hrect Hr.
  assert (Hlen : length r = length row0).
  { rewrite Forall_forall in Hrect. by apply Hrect. }
  apply Forall2_same_length_lookup_2.
  - by rewrite length_table_widths.
  - intros i c w Hc Hw.
    assert (Hi : i < length row0) by (rewrite <- Hlen; by eapply lookup_lt_Some).
    rewrite table_widths_lookup in Hw by done. injection Hw as <-.
    destruct (column_max_spec (row0 :: rest) i) as [Hle _]; [done| |].
    + eapply Forall_impl; [exact Hrect|]. intros r' Hr'. simpl in Hr'. lia.
    + destruct (Hle r Hr) as (c' & Hc' & Hle'). congruence.
Qed.

Lemma padded_starts (r : list string) (widths : list nat) a s rest :
  r = String a s :: rest -> widths <> [] -> is_space a = false ->
  lstrip (padded widths r) = padded widths r.
Proof.
  intros -> Hw Ha. destruct widths as [|w widths]; [done|].
  assert (Ht : exists t, padded (w :: widths) (String a s :: rest) = String a t).
  { unfold padded.
    change (zip_with ljust (String a s :: rest) (w :: widths))
      with (ljust (String a s) w :: zip_with ljust rest widths).
    destruct (zip_with ljust rest widths) as [|x l].
    - unfold join. cbn [String.concat]. unfold ljust. rewrite str_app_cons. eauto.
    - rewrite join_cons2. unfold ljust. rewrite !str_app_cons. eauto. }
  destruct Ht as [t ->]. by apply lstrip_fixed.
Qed.

(** X18. The columns line up. In a successful call every row of the table,
    the header included, is padded to a line of one and the same length
    before it is stripped, and in that line the cell of column [i], padded
    to the width of the column, starts at an offset that depends on the
    column widths only: the widths of the columns before it and three
    characters of separator for each. A row whose first cell starts with a
    character that is not whitespace loses nothing at its start to [strip],
    so its cells stand at these offsets in the result. *)
Theorem pretty_table_columns_align (rows : list row) (h : option str_or_list)
    (out : string) :
  pretty_table rows h = Ok out ->
  exists st,
    process_rows rows (initial_state h) = Ok st
    /\ out = join nl (with_dash (header st)
               ((fun r => strip (padded (table_widths (str_rows st)) r)) <$> str_rows st))
    /\ forall r, r ∈ str_rows st ->
         (r <> [] ->
          String.length (padded (table_widths (str_rows st)) r) + 3
          = column_offset (table_widths (str_rows st)) (length r))
         /\ (forall i c, r !! i = Some c ->
               exists w before after,
                 table_widths (str_rows st) !! i = Some w
                 /\ padded (table_widths (str_rows st)) r = before +:+ ljust c w +:+ after
                 /\ String.length before = column_offset (table_widths (str_rows st)) i
                 /\ String.length (ljust c w) = w)
         /\ (forall a s rest, r = String a s :: rest -> is_space a = false ->
               exists blank,
                 padded (table_widths (str_rows st)) r
                 = strip (padded (table_widths (str_rows st)) r) +:+ blank
                 /\ has_visible blank = false).
Proof.
  unfold pretty_table. intros H. apply bind_Ok_inv in H as (st & Hst & Hout).
  pose proof (well_formed_run rows _ st (well_formed_initial h) Hst) as Hwf.
  destruct (success_rect st out Hwf Hout) as (row0 & rest & Hrows & Hrect).
  rewrite (render_rect st row0 rest Hrows Hrect) in Hout. injection Hout as <-.
  exists st. split; [done|]. split; [reflexivity|].
  rewrite Hrows in *. intros r Hr.
  pose proof (rect_cells_fit row0 rest r Hrect Hr) as Hfit.
  assert (Hlen : length r = length row0).
  { rewrite Forall_forall in Hrect. by apply Hrect. }
  assert (Hwl : length (table_widths (row0 :: rest)) = length r).
  { by rewrite length_table_widths. }
  set (widths := table_widths (row0 :: rest)) in *.
  split; [|split].
  - intros Hne.
    assert (Hz : zip_with ljust r widths <> []).
    { intros Hz. apply (f_equal length) in Hz.
      rewrite length_zip_ljust in Hz by done. by destruct r. }
    pose proof (join_length " | " _ Hz) as Hj. unfold padded.
    change (String.length " | ") with 3 in Hj. rewrite Hj.
    rewrite <- (padded_offsets r widths (length r) Hfit).
    rewrite take_ge; [done|]. rewrite length_zip_ljust by done. lia.
  - intros i c Hc.
    assert (Hi : i < length widths) by (rewrite Hwl; by eapply lookup_lt_Some).
    destruct (lookup_lt_is_Some_2 widths i Hi) as [w Hw].
    assert (Hz : zip_with ljust r widths !! i = Some (ljust c w)).
    { rewrite lookup_zip_with, Hc. simpl. by rewrite Hw. }
    destruct (join_at " | " _ i _ Hz) as (before & after & Hj & Hb).
    exists w, before, after. split; [done|]. split; [done|]. split.
    + rewrite Hb. change (String.length " | ") with 3. by apply padded_offsets.
    + rewrite Forall2_same_length_lookup in Hfit. destruct Hfit as [_ Hfit].
      specialize (Hfit i c w Hc Hw). unfold ljust.
      rewrite str_length_app, length_str_mul. lia.
  - intros a s rest' Hr' Ha.
    assert (Hw : widths <> []).
    { intros Hnil. rewrite Hnil in Hwl. rewrite Hr' in Hwl. done. }
    unfold strip. rewrite (padded_starts r widths a s rest' Hr' Hw Ha).
    apply rstrip_spec.
Qed.

Lemma pretty_table_columns_align_witness :
  exists st,
    process_rows (RowSeq <$> example_cells) (initial_state None) = Ok st
    /\ ("a     | hello | c | 1" +:+ nl +:+ "world | b     | d | 2")
       = join nl (with_dash (header st)
           ((fun r => strip (padded (table_widths (str_rows st)) r)) <$> str_rows st)).
Proof.
  assert (H : pretty_table (RowSeq <$> example_cells) None
              = Ok ("a     | hello | c | 1" +:+ nl +:+ "world | b     | d | 2"))
    by reflexivity.
  destruct (pretty_table_columns_align _ _ _ H) as (st & Hst & Hout & _).
  exists st. split; [exact Hst|exact Hout].
Defined.

(** ** Iteration over a [HelpfulErrorList] *)

Lemma helpful_error_list_get_nat {A} (lst : list A) (i : nat) :
  helpful_error_list_get lst (Z.of_nat i)
  = match lst !! i with
    | Some x => Ok x
    | None => Raise (IndexError ("Tried to access " +:+ str_int (Z.of_nat i)
                                 +:+ ", length is only " +:+ str_nat (length lst)))
    end.
Proof.
  unfold helpful_error_list_get, list_getitem.
  destruct (Z.ltb_spec (Z.of_nat i) 0); [lia|].
  destruct (Z.ltb_spec (Z.of_nat i) 0); [lia|].
  unfold list_get. rewrite Nat2Z.id. by destruct (lst !! i).
Qed.

Lemma helpful_error_list_iter (l1 l2 : list value) :
  yields (it_next (HelpfulErrorList.__iter__ (HelpfulErrorList.UserList (l1 ++ l2))))
    (length l1) l2.
Proof.
  revert l1. induction l2 as [|x l2 IH]; intros l1.
  - apply yields_stop. simpl. unfold HelpfulErrorList.__getitem__. simpl.
    rewrite helpful_error_list_get_nat, app_nil_r.
    by rewrite lookup_ge_None_2.
  - eapply (yields_item _ _ x (S (length l1))).
    + simpl. unfold HelpfulErrorList.__getitem__. simpl.
      rewrite helpful_error_list_get_nat. by rewrite list_lookup_middle.
    + specialize (IH (l1 ++ [x])). rewrite <- app_assoc in IH. simpl in IH.
      rewrite length_app in IH. simpl in IH.
      by replace (length l1 + 1) with (S (length l1)) in IH by lia.
Qed.

(** X19. The helpful error does not break iteration: an index read on a
    [HelpfulErrorList] raises nothing but [IndexError], so that iterating
    over the list, which reads the indexes 0, 1, ... until [IndexError],
    yields exactly the items of the list in order and then stops; [only]
    therefore finds the item of a one-item list through its iterator. *)
Theorem helpful_error_list_iterates (lst : list value) :
  (forall index e,
     HelpfulErrorList.__getitem__ (HelpfulErrorList.UserList lst) index = Raise e ->
     exists msg, e = IndexError msg)
  /\ yields (it_next (HelpfulErrorList.__iter__ (HelpfulErrorList.UserList lst)))
       (it_start (HelpfulErrorList.__iter__ (HelpfulErrorList.UserList lst))) lst
  /\ forall x, lst = [x] ->
       only (OIterator (HelpfulErrorList.__iter__ (HelpfulErrorList.UserList lst)))
       = Return x.
Proof.
  split; [|split].
  - intros index e. unfold HelpfulErrorList.__getitem__, helpful_error_list_get. simpl.
    unfold list_getitem, list_get.
    destruct (_ <? 0)%Z; [intros [= <-]; eauto|].
    destruct (lst !! _); [discriminate|]. intros [= <-]. eauto.
  - apply (helpful_error_list_iter [] lst).
  - intros x ->. reflexivity.
Qed.

(** ** The examples of the docstrings *)

Example ensure_list_if_string_doctest :
  ensure_list_if_string (AList ["abc"; "def"; "123"]) = ["abc"; "def"; "123"]
  /\ ensure_list_if_string (AStr "abc,def,123") = ["abc"; "def"; "123"]
  /\ ensure_list_if_string (AStr "abc def 123") = ["abc"; "def"; "123"]
  /\ ensure_list_if_string (AStr ", abc , def , 123  , ,") = ["abc"; "def"; "123"].
Proof. repeat split. Qed.

Example pretty_table_doctest_header :
  pretty_table (RowSeq <$> example_cells) (Some (AStr "col1 col2 col3 col4"))
  = Ok ("col1  | col2  | col3 | col4" +:+ nl
        +:+ "---------------------------" +:+ nl
        +:+ "a     | hello | c    | 1" +:+ nl
        +:+ "world | b     | d    | 2").
Proof. vm_compute. reflexivity. Qed.

Example pretty_table_doctest_missing_key :
  pretty_table [RowMap (d_ab 1 2)] (Some (AStr "c d"))
  = Raise (KeyError "Tried to access 'c', only keys are: ['a', 'b']").
Proof. vm_compute. reflexivity. Qed.

Example date_to_datetime_doctest :
  date_to_datetime (ADate (Date 2000 1 2)) = DateTime (Date 2000 1 2) (Time 0 0 0 0)
  /\ date_to_datetime (ADateTime (DateTime (Date 2000 1 2) (Time 3 4 5 0)))
     = DateTime (Date 2000 1 2) (Time 3 4 5 0).
Proof. split; reflexivity. Qed.

Example default_doctest (self : DecentJSONEncoder) :
  default self (ESequence "UserList" []) = Ok (JTuple [])
  /\ default (__init__ ∅) (EIterable "generator" (range_it 3))
     = Ok (JList [VInt 0; VInt 1; VInt 2])
  /\ default self (EMapping "HelpfulErrorDict" ∅) = Ok (JDict ∅)
  /\ default self (EOther "object")
     = Raise (TypeError "Object of type object is not JSON serializable").
Proof. repeat split; vm_compute; reflexivity. Qed.

(** A header made of separators only names no column: it is dropped again
    when the first mapping row fills the header list, which then stands twice
    in the table. *)
Example pretty_table_separator_header :
  pretty_table [] (Some (AStr ",")) = Ok EmptyString
  /\ pretty_table [RowMap (d_ab 1 2)] (Some (AStr ","))
     = Ok ("a | b" +:+ nl +:+ "-----" +:+ nl +:+ "a | b" +:+ nl +:+ "1 | 2").
Proof. split; vm_compute; reflexivity. Qed.

Example helpful_error_list_get_doctest :
  helpful_error_list_get [VInt 1; VInt 2; VInt 3] 1 = Ok (VInt 2)
  /\ helpful_error_list_get [VInt 1; VInt 2; VInt 3] 4
     = Raise (IndexError "Tried to access 4, length is only 3")
  /\ HelpfulErrorList.__getitem__ (HelpfulErrorList.UserList [VInt 1; VInt 2; VInt 3]) 4
     = Raise (IndexError "Tried to access 4, length is only 3").
Proof. repeat split. Qed.

Example only_doctest :
  only (OSized [VInt 7]) = Return (VInt 7)
  /\ only (OSized [VInt 1; VInt 2])
     = Throw (AssertionError "Expected one value, found 2")
  /\ only (OSized []) = Throw (AssertionError "Expected one value, found 0")
  /\ only (OIterator (repeat_it (VInt 5)))
     = Throw (AssertionError "Expected one value, found several")
  /\ only (OIterator (range_it 0)) = Throw (AssertionError "Expected one value, found 0").
Proof. repeat split. Qed.

(** The function of the docstring of [retry] counts its runs and fails; it
    runs three times by default, twice for two attempts, and once when
    another class of exceptions is retried. *)
Example retry_doctest :
  world (retry 3 Exception false 0 always_fails 0) = 3
  /\ world (retry 2 Exception false 0 always_fails 0) = 2
  /\ world (retry 3 class_IndexError false 0 always_fails 0) = 1
  /\ effects (retry 3 Exception true 0 always_fails 0)
     = [Logged retry_message (Builtin (KeyError "1")); Slept 0;
        Logged retry_message (Builtin (KeyError "1")); Slept 0]
  /\ returned (retry 3 Exception true 0 always_fails 0) = Throw (Builtin (KeyError "1")).
Proof. repeat split. Qed.

Example strip_prefix_doctest :
  strip_optional_prefix "abcdef" "abc" false = ("def", [])
  /\ strip_optional_prefix "abcdef" "123" false = ("abcdef", [])
  /\ strip_optional_prefix "abcdef" "123" true
     = ("abcdef", [Warn "String starts with %r, not %r" ["abc"; "123"]])
  /\ strip_required_prefix "abcdef" "abc" = Return "def"
  /\ strip_required_prefix "abcdef" "123"
     = Throw (AssertionError "String starts with 'abc', not '123'").
Proof. repeat split. Qed.

Example select_keys_doctest :
  select_keys (<["a" := VInt 1]> (<["b" := VInt 2]> (<["c" := VInt 3]> ∅))) (AStr "a c") true
  = Ok (<["a" := VInt 1]> (<["c" := VInt 3]> ∅))
  /\ select_keys (<["a" := VInt 1]> (<["b" := VInt 2]> (<["c" := VInt 3]> ∅))) (AStr "a d") true
     = Raise (KeyError "Tried to access 'd', only keys are: ['a', 'b', 'c']")
  /\ select_keys (<["a" := VInt 1]> (<["b" := VInt 2]> (<["c" := VInt 3]> ∅))) (AStr "a d") false
     = Raise (KeyError "d").
Proof. repeat split; vm_compute; reflexivity. Qed.

Example group_by_key_func_doctest :
  group_by_key_func ["a"; "bb"; "ccc"; "d"; "ee"; "fff"] String.length
  = <[1 := ["a"; "d"]]> (<[2 := ["bb"; "ee"]]> (<[3 := ["ccc"; "fff"]]> ∅))
  /\ group_by_key_func [-1; 0; 1; 3; 6; 8; 9; 2]%Z (fun x => x mod 2)%Z
     = <[0%Z := [0; 6; 8; 2]%Z]> (<[1%Z := [-1; 1; 3; 9]%Z]> ∅).
Proof. split; vm_compute; reflexivity. Qed.

Example setattrs_doctest :
  setattrs (V := value) ∅ (<["a" := VInt 1]> (<["b" := VInt 2]> ∅)) !! "a" = Some (VInt 1)
  /\ setattrs (V := value) ∅ (<["a" := VInt 1]> (<["b" := VInt 2]> ∅)) !! "b" = Some (VInt 2).
Proof. split; vm_compute; reflexivity. Qed.

Example HelpfulErrorDict_doctest :
  HelpfulErrorDict.__getitem__ (HelpfulErrorDict.UserDict (d_ab 2 4)) "a" = Ok (VInt 2)
  /\ HelpfulErrorDict.__getitem__ (HelpfulErrorDict.UserDict (d_ab 2 4)) "c"
     = Raise (KeyError "Tried to access 'c', only keys are: ['a', 'b']")
  /\ forall (d : gmap string value) key,
       HelpfulErrorDict.__getitem__ (HelpfulErrorDict.UserDict d) key
       = helpful_error_dict_get d key.
Proof. repeat split; vm_compute; reflexivity. Qed.
